(** * Stryke: a shallow embedding of StrykeCore.py

    The interpreter of StrykeCore.py is embedded as executable Rocq
    definitions: the text helpers it takes from Python's [str] and [re],
    the block extractor [parse_block], the expression evaluator
    [eval_ast] / [safe_eval], the function call machinery
    [call_user_func], the statement interpreter [execute_line], the
    debugger [check_debug_pause] / [debug_prompt] and the driver
    [run_file].  The module-level globals of the program ([env], the
    debugger flags, the standard streams) are threaded explicitly as a
    [state].

    Text is [String.string]; a character stands for a code point below 256. *)

From Stdlib Require Import ZArith Ascii String List Bool Lia.
From stdpp Require Import base option gmap strings list pretty.

Set Warnings "-register-all".

Local Open Scope string_scope.
Local Open Scope list_scope.
Local Open Scope Z_scope.

(** ** Text helpers (Python's [str] methods used by the program) *)

Module Text.

Definition code (c : ascii) : N := N_of_ascii c.

(** [str.isspace] on one character (also the class [\s] of [re]). *)
Definition is_space (c : ascii) : bool :=
  let n := code c in
  (((9 <=? n) && (n <=? 13)) || ((28 <=? n) && (n <=? 32))
   || (n =? 133) || (n =? 160))%N.

(** The class [\w] of [re] on a [str] pattern: alphanumerics and [_]. *)
Definition is_word (c : ascii) : bool :=
  let n := code c in
  (((48 <=? n) && (n <=? 57)) || ((65 <=? n) && (n <=? 90))
   || ((97 <=? n) && (n <=? 122)) || (n =? 95)
   || (n =? 170) || (n =? 178) || (n =? 179) || (n =? 181)
   || (n =? 185) || (n =? 186) || ((188 <=? n) && (n <=? 190))
   || ((192 <=? n) && (n <=? 214)) || ((216 <=? n) && (n <=? 246))
   || ((248 <=? n) && (n <=? 255)))%N.

Definition newline : ascii := ascii_of_N 10.

(** The one-character texts of a double and of a single quote. *)
Definition dquote : string := String (ascii_of_N 34) EmptyString.
Definition squote : string := String (ascii_of_N 39) EmptyString.

Definition is_newline (c : ascii) : bool := (code c =? 10)%N.

Fixpoint drop_while (p : ascii -> bool) (l : list ascii) : list ascii :=
  match l with
  | [] => []
  | c :: l' => if p c then drop_while p l' else l
  end.

Definition chars (s : string) : list ascii := list_ascii_of_string s.
Definition text (l : list ascii) : string := string_of_list_ascii l.

Definition lstrip_chars (p : ascii -> bool) (l : list ascii) : list ascii :=
  drop_while p l.
Fixpoint rstrip_chars (p : ascii -> bool) (l : list ascii) : list ascii :=
  match l with
  | [] => []
  | c :: l' =>
      match rstrip_chars p l' with
      | [] => if p c then [] else [c]
      | r => c :: r
      end
  end.

(** [s.strip()] *)
Definition strip (s : string) : string :=
  text (rstrip_chars is_space (lstrip_chars is_space (chars s))).

(** [s.rstrip("\n")] *)
Definition rstrip_newline (s : string) : string :=
  text (rstrip_chars is_newline (chars s)).

(** [s.startswith(p)] *)
Definition startswith (p s : string) : bool := String.prefix p s.

(** [s.endswith(p)] *)
Definition endswith (p s : string) : bool :=
  String.prefix (text (rev (chars p))) (text (rev (chars s))).

(** [s[n:]] for a non-negative [n] *)
Definition drop_prefix (n : nat) (s : string) : string :=
  text (drop n (chars s)).

(** [s[1:-1]] *)
Definition slice_inner (s : string) : string :=
  text (removelast (tl (chars s))).

Definition is_empty (s : string) : bool :=
  match s with EmptyString => true | _ => false end.

(** [s.split(sep, 1)] for a one-character separator: the text before the
    first separator and the text after it, or [None] when [sep] does
    not occur (Python then returns the one-element list [[s]]). *)
Fixpoint split_once_chars (sep : ascii) (l : list ascii)
  : option (list ascii * list ascii) :=
  match l with
  | [] => None
  | c :: l' =>
      if Ascii.eqb c sep then Some ([], l')
      else match split_once_chars sep l' with
           | Some (a, b) => Some (c :: a, b)
           | None => None
           end
  end.

Definition split_once (sep : ascii) (s : string) : option (string * string) :=
  match split_once_chars sep (chars s) with
  | Some (a, b) => Some (text a, text b)
  | None => None
  end.

(** [s.split(",")] *)
Fixpoint split_all_chars (sep : ascii) (cur : list ascii) (l : list ascii)
  : list (list ascii) :=
  match l with
  | [] => [rev cur]
  | c :: l' =>
      if Ascii.eqb c sep then rev cur :: split_all_chars sep [] l'
      else split_all_chars sep (c :: cur) l'
  end.

Definition split_all (sep : ascii) (s : string) : list string :=
  map text (split_all_chars sep [] (chars s)).

End Text.

(** ** Regular expressions (the fragment of Python's [re] the program uses)

    A backtracking matcher in continuation-passing style; [re.match]
    anchors the match at the start of the text and returns the captured
    groups of the first successful path. *)

Module Regex.

Inductive regex : Type :=
| Begin                                  (* ^ *)
| End_                                   (* $ *)
| Lit (c : ascii)                        (* a literal character *)
| Class (p : ascii -> bool)              (* \s, \w, . *)
| Seq (r1 r2 : regex)
| Star (greedy : bool) (r : regex)       (* r* and r*? *)
| Group (r : regex).                     (* ( r ), capturing *)

Definition captures := list (list ascii).
Definition cont := list ascii -> captures -> option captures.

(** The loop of [r*] and [r*?]: [step] matches one more [r], which must
    consume text, and [k] continues after the last one; the greedy form
    tries the longer match first, the lazy form the shorter. *)
Definition star_loop
    (step : list ascii -> captures -> cont -> option captures)
    (greedy : bool) (k : cont)
  : nat -> list ascii -> captures -> option captures :=
  fix star (n : nat) (s : list ascii) (caps : captures) {struct n}
    : option captures :=
    match n with
    | O => k s caps
    | S n' =>
        let more :=
          step s caps
            (fun s' caps' =>
               if (length s' <? length s)%nat then star n' s' caps'
               else None) in
        if greedy then
          match more with Some out => Some out | None => k s caps end
        else
          match k s caps with Some out => Some out | None => more end
    end.

(** [total] is the length of the whole subject, so that the position
    of a suffix [s] is [total - length s]. *)
Fixpoint rmatch (total : nat) (r : regex) (s : list ascii) (caps : captures)
    (k : cont) {struct r} : option captures :=
  match r with
  | Begin => if (length s =? total)%nat then k s caps else None
  | End_ =>
      match s with
      | [] => k s caps
      | [c] => if Text.is_newline c then k s caps else None
      | _ => None
      end
  | Lit c =>
      match s with
      | c' :: s' => if Ascii.eqb c c' then k s' caps else None
      | [] => None
      end
  | Class p =>
      match s with
      | c' :: s' => if p c' then k s' caps else None
      | [] => None
      end
  | Seq r1 r2 =>
      rmatch total r1 s caps (fun s' caps' => rmatch total r2 s' caps' k)
  | Star greedy r' =>
      star_loop (rmatch total r') greedy k (length s) s caps
  | Group r' =>
      rmatch total r' s caps
        (fun s' caps' =>
           k s' (caps' ++ [take (length s - length s') s]))
  end.

Definition plus (r : regex) : regex := Seq r (Star true r).

Fixpoint lit_chars (l : list ascii) : regex :=
  match l with
  | [] => Star true (Class (fun _ => false))
  | [c] => Lit c
  | c :: l' => Seq (Lit c) (lit_chars l')
  end.

Definition lit (s : string) : regex := lit_chars (Text.chars s).

Fixpoint seq (rs : list regex) : regex :=
  match rs with
  | [] => Star true (Class (fun _ => false))
  | [r] => r
  | r :: rs' => Seq r (seq rs')
  end.

Definition ws : regex := Class Text.is_space.            (* \s *)
Definition word : regex := Class Text.is_word.           (* \w *)
Definition dot : regex :=                                (* . *)
  Class (fun c => negb (Text.is_newline c)).

(** [re.match(pattern, s)]: the groups, or [None] for no match. *)
Definition re_match (r : regex) (s : string) : option (list string) :=
  let l := Text.chars s in
  match rmatch (length l) r l [] (fun _ caps => Some caps) with
  | Some caps => Some (map Text.text caps)
  | None => None
  end.

End Regex.

(** ** The statement patterns of [execute_line] *)

Module Patterns.
Import Regex.

(** [^\s*stryset\s+(\w+)\s*\(\s*(.+)\s*\)\s*$] *)
Definition stryset : regex :=
  seq [Begin; Star true ws; lit "stryset"; plus ws; Group (plus word);
       Star true ws; Lit "("; Star true ws; Group (plus dot);
       Star true ws; Lit ")"; Star true ws; End_].

(** [^\s*stryprint\s+(.+)$] *)
Definition stryprint : regex :=
  seq [Begin; Star true ws; lit "stryprint"; plus ws; Group (plus dot); End_].

(** [^\s*def\s+(\w+)\s*\((.*?)\)\s*:\s*$] *)
Definition def : regex :=
  seq [Begin; Star true ws; lit "def"; plus ws; Group (plus word);
       Star true ws; Lit "("; Group (Star false dot); Lit ")";
       Star true ws; Lit ":"; Star true ws; End_].

(** [^\s*return\s+(.+)$] *)
Definition return_ : regex :=
  seq [Begin; Star true ws; lit "return"; plus ws; Group (plus dot); End_].

(** [^\s*if\s*\(\s*(.+)\s*\)\s*:\s*$] *)
Definition if_ : regex :=
  seq [Begin; Star true ws; lit "if"; Star true ws; Lit "("; Star true ws;
       Group (plus dot); Star true ws; Lit ")"; Star true ws; Lit ":";
       Star true ws; End_].

End Patterns.

(** ** Block extractor *)

(** [parse_block(lines, start_idx)]: the lines from [start_idx] up to the
    first line whose stripped text is [end], and the index of that line;
    [None] stands for [SyntaxError("Missing 'end'")]. *)
Fixpoint parse_block_from (rest : list string) (i : nat) (block : list string)
  : option (list string * nat) :=
  match rest with
  | [] => None
  | l :: rest' =>
      if String.eqb (Text.strip l) "end" then Some (block, i)
      else parse_block_from rest' (S i) (block ++ [l])
  end.

Definition parse_block (lines : list string) (start_idx : nat)
  : option (list string * nat) :=
  parse_block_from (drop start_idx lines) start_idx [].

(** ** Values, expression trees, exceptions *)

(** A value of the language.  Floats are carried as their binary64 bit
    pattern and the remaining host objects (complex numbers, bytes,
    [Ellipsis]) as an opaque tag: the program never looks inside them, it
    hands them to the operators and built-ins of the host. *)
Inductive value : Type :=
| VNone
| VBool (b : bool)
| VInt (n : Z)
| VFloat (bits : Z)
| VStr (s : string)
| VBuiltin (name : string)     (* a function object of [safe_functions] *)
| VRegistry (key : string)     (* the dict stored in [global_env] under [key] *)
| VOpaque (tag : string).

Inductive operator : Type :=
| Add | Sub | Mult | Div | Mod | Pow
| FloorDiv | MatMult | LShift | RShift | BitOr | BitXor | BitAnd.

Inductive unaryop : Type := UAdd | USub | Not | Invert.

Inductive boolop : Type := And | Or.

Inductive cmpop : Type :=
| Eq | NotEq | Lt | LtE | Gt | GtE | Is | IsNot | In_ | NotIn.

(** The expression nodes of Python's [ast] module.  The first eight are
    the node classes [eval_ast] tests for; the others stand for the node
    classes it has no case for. *)
Inductive expr : Type :=
| Expression (body : expr)
| Constant (v : value)
| BinOp (left : expr) (op : operator) (right : expr)
| UnaryOp (op : unaryop) (operand : expr)
| BoolOp (op : boolop) (values : list expr)
| Compare (left : expr) (ops : list cmpop) (comparators : list expr)
| Name (id : string)
| Call (func : expr) (args : list expr) (keywords : list (option string * expr))
| Attribute (value : expr) (attr : string)
| Subscript (value : expr) (slice : expr)
| Comprehension (class : string) (elt : expr) (iters : list expr)
| Lambda (body : expr)
| OtherNode (class : string) (children : list expr).

Inductive exn : Type :=
| NameError (msg : string)
| TypeError (msg : string)
| ValueError (msg : string)
| SyntaxError (msg : string)
| KeyError (key : string)
| UnboundLocalError (name : string)
| ZeroDivisionError
| EOFError
| HostError (descr : string).

(** ** Program state

    The module-level globals of StrykeCore.py and the standard streams. *)

Abbreviation breakpoint := (Z + string * Z)%type.

Inductive out_event : Type :=
| OutPrint (v : value)
| OutPaused (source_name : string) (lineno : nat) (line_text : string)
| OutWatchesHeader
| OutWatch (w : string) (r : option value)
| OutPrompt (p : string)
| OutBreakpointSet (arg : string)
| OutBreakpointRemoved (arg : string)
| OutStack (depth : Z) (snapshot : gmap string value)
| OutWatchAdded (e : string)
| OutVars (snapshot : gmap string value)
| OutHelp
| OutUnknownCommand
| OutFileNotFound (path : string)
| OutHost (text : string).

Record io : Type := {
  stdin : list string;                 (* the lines still to be read *)
  stdout : list out_event;             (* what was printed, oldest first *)
  files : gmap string string;          (* the files the built-ins see *)
}.

Record state : Type := {
  vars : gmap string value;                              (* env["vars"] *)
  funcs : gmap string (list string * list string);       (* env["funcs"] *)
  breakpoints : gset breakpoint;                         (* _breakpoints *)
  single_step : bool;                                    (* _single_step *)
  step_over_depth : option Z;                            (* _step_over_depth *)
  call_depth : Z;                                        (* _call_depth *)
  watch_expressions : list string;                       (* _watch_expressions *)
  world : io;
}.

Definition set_vars (m : gmap string value) (s : state) : state :=
  {| vars := m; funcs := funcs s; breakpoints := breakpoints s;
     single_step := single_step s; step_over_depth := step_over_depth s;
     call_depth := call_depth s; watch_expressions := watch_expressions s;
     world := world s |}.

Definition set_funcs (m : gmap string (list string * list string)) (s : state)
  : state :=
  {| vars := vars s; funcs := m; breakpoints := breakpoints s;
     single_step := single_step s; step_over_depth := step_over_depth s;
     call_depth := call_depth s; watch_expressions := watch_expressions s;
     world := world s |}.

Definition set_breakpoints (b : gset breakpoint) (s : state) : state :=
  {| vars := vars s; funcs := funcs s; breakpoints := b;
     single_step := single_step s; step_over_depth := step_over_depth s;
     call_depth := call_depth s; watch_expressions := watch_expressions s;
     world := world s |}.

Definition set_single_step (b : bool) (s : state) : state :=
  {| vars := vars s; funcs := funcs s; breakpoints := breakpoints s;
     single_step := b; step_over_depth := step_over_depth s;
     call_depth := call_depth s; watch_expressions := watch_expressions s;
     world := world s |}.

Definition set_step_over_depth (d : option Z) (s : state) : state :=
  {| vars := vars s; funcs := funcs s; breakpoints := breakpoints s;
     single_step := single_step s; step_over_depth := d;
     call_depth := call_depth s; watch_expressions := watch_expressions s;
     world := world s |}.

Definition set_call_depth (d : Z) (s : state) : state :=
  {| vars := vars s; funcs := funcs s; breakpoints := breakpoints s;
     single_step := single_step s; step_over_depth := step_over_depth s;
     call_depth := d; watch_expressions := watch_expressions s;
     world := world s |}.

Definition set_watch_expressions (w : list string) (s : state) : state :=
  {| vars := vars s; funcs := funcs s; breakpoints := breakpoints s;
     single_step := single_step s; step_over_depth := step_over_depth s;
     call_depth := call_depth s; watch_expressions := w;
     world := world s |}.

Definition set_world (w : io) (s : state) : state :=
  {| vars := vars s; funcs := funcs s; breakpoints := breakpoints s;
     single_step := single_step s; step_over_depth := step_over_depth s;
     call_depth := call_depth s; watch_expressions := watch_expressions s;
     world := w |}.

(** [print(...)]: append one event to the output. *)
Definition emit (e : out_event) (s : state) : state :=
  set_world {| stdin := stdin (world s); stdout := stdout (world s) ++ [e];
               files := files (world s) |} s.

(** The module state right after import, on the given input. *)
Definition initial_state (input : list string) : state :=
  {| vars := ∅; funcs := ∅; breakpoints := ∅; single_step := false;
     step_over_depth := None; call_depth := 0; watch_expressions := [];
     world := {| stdin := input; stdout := []; files := ∅ |} |}.

(** ** The monad of the interpreter: state, exceptions, and fuel *)

Inductive outcome (A : Type) : Type :=
| Ok (a : A)
| Raise (e : exn)
| OutOfFuel.
Arguments Ok {A} a.
Arguments Raise {A} e.
Arguments OutOfFuel {A}.

Definition M (A : Type) : Type := state -> outcome A * state.

Definition ret {A} (a : A) : M A := fun s => (Ok a, s).
Definition raise {A} (e : exn) : M A := fun s => (Raise e, s).
Definition out_of_fuel {A} : M A := fun s => (OutOfFuel, s).

Definition bind {A B} (m : M A) (f : A -> M B) : M B :=
  fun s =>
    match m s with
    | (Ok a, s') => f a s'
    | (Raise e, s') => (Raise e, s')
    | (OutOfFuel, s') => (OutOfFuel, s')
    end.

Notation "x <- m ;; k" := (bind m (fun x => k))
  (at level 100, m at next level, right associativity).
Notation "m ;;; k" := (bind m (fun _ => k))
  (at level 100, right associativity).

Definition get : M state := fun s => (Ok s, s).
Definition modify (f : state -> state) : M unit := fun s => (Ok tt, f s).
Definition print (e : out_event) : M unit := modify (emit e).

Definition lift_result {A} (r : exn + A) : M A :=
  match r with inl e => raise e | inr a => ret a end.

(** [try: body finally: cleanup]: the cleanup runs on every way out of
    the body. *)
Definition try_finally {A} (body : M A) (cleanup : state -> state) : M A :=
  fun s => let '(r, s') := body s in (r, cleanup s').

(** [try: body except: handler]: a bare [except] catches every exception. *)
Definition try_except {A} (body : M A) (handler : M A) : M A :=
  fun s =>
    match body s with
    | (Raise _, s') => handler s'
    | r => r
    end.

(** [[f(x) for x in l]] *)
Definition mapM {A B} (f : A -> M B) : list A -> M (list B) :=
  fix go (l : list A) : M (list B) :=
    match l with
    | [] => ret []
    | x :: l' => y <- f x ;; ys <- go l' ;; ret (y :: ys)
    end.

(** ** The host

    What the program takes from the Python runtime and does not define
    itself: the parser [ast.parse], the operators of [operator] on
    operands this development does not interpret (floats, opaque objects,
    ill-typed combinations), the built-in functions behind
    [safe_functions], [int] on text, and reading a source file. *)
Record Host : Type := {
  ast_parse : string -> option expr;      (* [None]: ast.parse raised *)
  host_binop : operator -> value -> value -> exn + value;
  host_unaryop : unaryop -> value -> exn + value;
  host_compare : cmpop -> value -> value -> exn + value;
  host_truth : value -> bool;
  host_builtin : string -> list value -> io -> (exn + value) * io;
  host_int : string -> option Z;          (* [None]: int(text) raised *)
  host_readlines : string -> option (list string);  (* [None]: not a file *)
}.

(** ** Operators: the table [_ops] *)

Definition as_int (v : value) : option Z :=
  match v with
  | VBool b => Some (if b then 1 else 0)
  | VInt n => Some n
  | _ => None
  end.

Fixpoint str_repeat (n : nat) (s : string) : string :=
  match n with
  | O => ""
  | S n' => String.append s (str_repeat n' s)
  end.

(** Truth value of an object, as [not], [if], [all] and [any] take it. *)
Definition truthy (host : Host) (v : value) : bool :=
  match v with
  | VNone => false
  | VBool b => b
  | VInt n => negb (n =? 0)
  | VFloat bits => negb ((bits =? 0) || (bits =? 2 ^ 63))
  | VStr s => negb (Text.is_empty s)
  | VBuiltin _ => true
  | VRegistry _ => false
  | VOpaque _ => host_truth host v
  end.

Definition class_repr (name : string) : string :=
  String.append "<class 'ast." (String.append name "'>").

Definition operator_name (op : operator) : string :=
  match op with
  | Add => "Add" | Sub => "Sub" | Mult => "Mult" | Div => "Div"
  | Mod => "Mod" | Pow => "Pow" | FloorDiv => "FloorDiv"
  | MatMult => "MatMult" | LShift => "LShift" | RShift => "RShift"
  | BitOr => "BitOr" | BitXor => "BitXor" | BitAnd => "BitAnd"
  end.

Definition unaryop_name (op : unaryop) : string :=
  match op with
  | UAdd => "UAdd" | USub => "USub" | Not => "Not" | Invert => "Invert"
  end.

Definition cmpop_name (op : cmpop) : string :=
  match op with
  | Eq => "Eq" | NotEq => "NotEq" | Lt => "Lt" | LtE => "LtE" | Gt => "Gt"
  | GtE => "GtE" | Is => "Is" | IsNot => "IsNot" | In_ => "In"
  | NotIn => "NotIn"
  end.

Section Operators.
Variable host : Host.

(** [operator.add], [sub], [mul], [truediv], [mod], [pow] *)
Definition py_binop (op : operator) (a b : value) : exn + value :=
  match op, a, b with
  | Add, VStr x, VStr y => inr (VStr (String.append x y))
  | Mult, VStr x, (VInt _ | VBool _) =>
      match as_int b with
      | Some n => inr (VStr (str_repeat (Z.to_nat n) x))
      | None => host_binop host op a b
      end
  | Mult, (VInt _ | VBool _), VStr y =>
      match as_int a with
      | Some n => inr (VStr (str_repeat (Z.to_nat n) y))
      | None => host_binop host op a b
      end
  | _, _, _ =>
      match as_int a, as_int b with
      | Some x, Some y =>
          match op with
          | Add => inr (VInt (x + y))
          | Sub => inr (VInt (x - y))
          | Mult => inr (VInt (x * y))
          | Mod => if y =? 0 then inl ZeroDivisionError
                   else inr (VInt (x mod y))
          | Div => if y =? 0 then inl ZeroDivisionError
                   else host_binop host op a b
          | Pow => if 0 <=? y then inr (VInt (x ^ y))
                   else host_binop host op a b
          | _ => host_binop host op a b
          end
      | _, _ => host_binop host op a b
      end
  end.

(** [operator.pos], [operator.neg] *)
Definition py_unaryop (op : unaryop) (a : value) : exn + value :=
  match op, as_int a with
  | UAdd, Some x => inr (VInt x)
  | USub, Some x => inr (VInt (- x))
  | _, _ => host_unaryop host op a
  end.

Definition compare_Z (op : cmpop) (x y : Z) : option bool :=
  match op with
  | Eq => Some (x =? y)
  | NotEq => Some (negb (x =? y))
  | Lt => Some (x <? y)
  | LtE => Some (x <=? y)
  | Gt => Some (x >? y)
  | GtE => Some (x >=? y)
  | _ => None
  end.

Definition compare_str (op : cmpop) (x y : string) : option bool :=
  match op, String.compare x y with
  | Eq, c => Some (match c with Datatypes.Eq => true | _ => false end)
  | NotEq, c => Some (match c with Datatypes.Eq => false | _ => true end)
  | Lt, c => Some (match c with Datatypes.Lt => true | _ => false end)
  | LtE, c => Some (match c with Datatypes.Gt => false | _ => true end)
  | Gt, c => Some (match c with Datatypes.Gt => true | _ => false end)
  | GtE, c => Some (match c with Datatypes.Lt => false | _ => true end)
  | _, _ => None
  end.

(** [operator.eq], [ne], [lt], [le], [gt], [ge] *)
Definition py_compare (op : cmpop) (a b : value) : exn + value :=
  let verdict :=
    match a, b with
    | VStr x, VStr y => compare_str op x y
    | VNone, VNone =>
        match op with Eq => Some true | NotEq => Some false | _ => None end
    | (VNone | VStr _), (VInt _ | VBool _)
    | (VInt _ | VBool _), (VNone | VStr _)
    | VNone, VStr _ | VStr _, VNone =>
        match op with Eq => Some false | NotEq => Some true | _ => None end
    | _, _ =>
        match as_int a, as_int b with
        | Some x, Some y => compare_Z op x y
        | _, _ => None
        end
    end in
  match verdict with
  | Some r => inr (VBool r)
  | None => host_compare host op a b
  end.

(** The lookups [_ops[type(op)]]: [None] is the [KeyError] of a node
    class that is not a key of the table. *)
Definition ops_operator (op : operator)
  : option (value -> value -> exn + value) :=
  match op with
  | Add | Sub | Mult | Div | Mod | Pow => Some (py_binop op)
  | _ => None
  end.

Definition ops_unaryop (op : unaryop) : option (value -> exn + value) :=
  match op with
  | UAdd | USub => Some (py_unaryop op)
  | _ => None
  end.

Definition ops_cmpop (op : cmpop) : option (value -> value -> exn + value) :=
  match op with
  | Eq | NotEq | Lt | LtE | Gt | GtE => Some (py_compare op)
  | _ => None
  end.

End Operators.

(** ** Expression evaluator *)

(** The keys of [global_env] and of [safe_functions]. *)
Definition global_env_keys : list string := ["__modules__"; "__packages__"].

Definition safe_function_names : list string :=
  ["int"; "float"; "str"; "len"; "abs"; "max"; "min"; "round";
   "readfile"; "writefile"; "input"].

Definition mem (x : string) (l : list string) : bool :=
  existsb (String.eqb x) l.

Definition node_class (node : expr) : string :=
  match node with
  | Expression _ => "Expression"
  | Constant _ => "Constant"
  | BinOp _ _ _ => "BinOp"
  | UnaryOp _ _ => "UnaryOp"
  | BoolOp _ _ => "BoolOp"
  | Compare _ _ _ => "Compare"
  | Name _ => "Name"
  | Call _ _ _ => "Call"
  | Attribute _ _ => "Attribute"
  | Subscript _ _ => "Subscript"
  | Comprehension c _ _ => c
  | Lambda _ => "Lambda"
  | OtherNode c _ => c
  end.

Definition unsupported_expression (node : expr) : exn :=
  ValueError (String.append "Unsupported expression type: "
                (class_repr (node_class node))).

Section Evaluator.
Variable host : Host.
(** The call machinery, defined further down with the interpreter. *)
Variable call_user_func : string -> list value -> M value.

(** Calling the function object [safe_functions[fname]] on the arguments. *)
Definition call_builtin (fname : string) (args : list value) : M value :=
  fun s =>
    let '(r, w) := host_builtin host fname args (world s) in
    (match r with inl e => Raise e | inr v => Ok v end, set_world w s).

(** The loop of the [ast.Compare] case over [zip(node.ops, node.comparators)]. *)
Definition compare_loop (eval : expr -> M value)
  : list cmpop -> list expr -> value -> M value :=
  fix loop (ops : list cmpop) (comparators : list expr) (left : value)
    {struct comparators} : M value :=
    match comparators, ops with
    | comp :: comparators', op :: ops' =>
        right <- eval comp ;;
        match ops_cmpop host op with
        | None => raise (KeyError (class_repr (cmpop_name op)))
        | Some f =>
            r <- lift_result (f left right) ;;
            if negb (truthy host r) then ret (VBool false)
            else loop ops' comparators' right
        end
    | _, _ => ret (VBool true)
    end.

(** [eval_ast(node)].  The source also tests for [ast.Num] and [ast.Str];
    in the Python versions that still have them they are aliases whose
    instances are [ast.Constant] nodes, met by the case before. *)
Fixpoint eval_ast (node : expr) : M value :=
  match node with
  | Expression body => eval_ast body
  | Constant v => ret v
  | BinOp l op r =>
      left <- eval_ast l ;;
      right <- eval_ast r ;;
      match ops_operator host op with
      | None => raise (KeyError (class_repr (operator_name op)))
      | Some f => lift_result (f left right)
      end
  | UnaryOp op e =>
      operand <- eval_ast e ;;
      match ops_unaryop host op with
      | None => raise (KeyError (class_repr (unaryop_name op)))
      | Some f => lift_result (f operand)
      end
  | BoolOp op vs =>
      values <- mapM eval_ast vs ;;
      ret (VBool (match op with
                  | And => forallb (truthy host) values
                  | Or => existsb (truthy host) values
                  end))
  | Compare l ops comparators =>
      left <- eval_ast l ;;
      compare_loop eval_ast ops comparators left
  | Name idn =>
      s <- get ;;
      match vars s !! idn with
      | Some v => ret v
      | None =>
          if mem idn global_env_keys then ret (VRegistry idn)
          else if mem idn safe_function_names then ret (VBuiltin idn)
          else raise (NameError (String.append "Unknown identifier: " idn))
      end
  | Call func args _ =>
      match func with
      | Name fname =>
          argv <- mapM eval_ast args ;;
          s <- get ;;
          match funcs s !! fname with
          | Some _ => call_user_func fname argv
          | None =>
              if mem fname safe_function_names then call_builtin fname argv
              else raise (NameError (String.append "Unknown function: " fname))
          end
      | _ => raise (ValueError "Unsupported call expression")
      end
  | Attribute _ _ | Subscript _ _ | Comprehension _ _ _ | Lambda _
  | OtherNode _ _ => raise (unsupported_expression node)
  end.

Definition is_quoted (t : string) : bool :=
  (Text.startswith Text.dquote t && Text.endswith Text.dquote t)
  || (Text.startswith Text.squote t && Text.endswith Text.squote t).

Definition safe_eval (expr_text : string) : M value :=
  let expr_text := Text.strip expr_text in
  if is_quoted expr_text then ret (VStr (Text.slice_inner expr_text))
  else
    match ast_parse host expr_text with
    | None =>
        s <- get ;;
        match vars s !! expr_text with
        | Some v => ret v
        | None => ret (VStr expr_text)
        end
    | Some node => eval_ast node
    end.

End Evaluator.

(** ** Statement results and debugger actions *)

(** What [execute_line] returns: [None], an [int] (the index of a
    consumed block's terminator) or a [ReturnSignal]. *)
Inductive signal : Type :=
| SNone
| SJump (i : nat)
| SReturn (v : value).

(** What [debug_prompt] returns: ["continue"], ["step"] or ["next"]. *)
Inductive action : Type := Continue | Step | Next.

(** [check_debug_pause(source_name, lineno, line_text)] *)
Definition check_debug_pause (s : state) (source_name : string) (lineno : nat)
  : bool :=
  single_step s
  || bool_decide (inr (source_name, Z.of_nat lineno) ∈ breakpoints s)
  || bool_decide (inl (Z.of_nat lineno) ∈ breakpoints s).

(** The line number [execute_line] computes from [idx]. *)
Definition lineno_of (idx : option nat) : nat :=
  match idx with Some i => S i | None => O end.

(** [l.remove(x)]: drop the first occurrence. *)
Fixpoint remove_first (x : string) (l : list string) : list string :=
  match l with
  | [] => []
  | y :: l' => if String.eqb x y then l' else y :: remove_first x l'
  end.

(** ** The interpreter

    [execute_line], [call_user_func] and the debugger call each other, and
    the program's loops need not end; the recursion is cut by a fuel
    counter.  [interp] bundles the functions at one fuel level; each body
    below is the text of the source function, with its recursive calls
    and loops taken from the level beneath. *)

Record interp : Type := {
  i_execute_line :
    string -> option (list string) -> option nat -> string -> M signal;
  i_call_user_func : string -> list value -> M value;
  i_func_loop : string -> list string -> nat -> M value;
  i_if_while : list string -> nat -> option signal -> M (option signal);
  i_watch_loop : nat -> M unit;
  i_command_loop : M action;
}.

Definition bottom : interp :=
  {| i_execute_line := fun _ _ _ _ => out_of_fuel;
     i_call_user_func := fun _ _ => out_of_fuel;
     i_func_loop := fun _ _ _ => out_of_fuel;
     i_if_while := fun _ _ _ => out_of_fuel;
     i_watch_loop := fun _ => out_of_fuel;
     i_command_loop := out_of_fuel |}.

Section Bodies.
Variable host : Host.
Variable rec : interp.

Definition func_source (name : string) : string :=
  String.append "<func " (String.append name ">").

(** [call_user_func(name, arg_values)] *)
Definition call_user_func_body (name : string) (arg_values : list value)
  : M value :=
  s <- get ;;
  match funcs s !! name with
  | None => raise (KeyError name)
  | Some (params, body) =>
      if negb (length arg_values =? length params)%nat then
        raise (TypeError
                 (String.append name
                    (String.append " expects "
                       (String.append (pretty (length params))
                          (String.append " args, got "
                             (pretty (length arg_values)))))))
      else
        let saved_vars := vars s in
        modify (fun s => set_call_depth (call_depth s + 1) s) ;;;
        try_finally
          (modify (fun s =>
                     set_vars
                       (fold_left (fun m pv => <[pv.1 := pv.2]> m)
                                  (zip params arg_values) (vars s)) s) ;;;
           i_func_loop rec name body 0%nat)
          (fun s => set_call_depth (call_depth s - 1) (set_vars saved_vars s))
  end.

(** The [while i < len(body)] loop of [call_user_func], from index [i];
    falling out of the loop leads to the final [return None]. *)
Definition func_loop_body (name : string) (body : list string) (i : nat)
  : M value :=
  match body !! i with
  | None => ret VNone
  | Some line =>
      res <- i_execute_line rec line (Some body) (Some i) (func_source name) ;;
      match res with
      | SReturn v => ret v
      | SJump j => i_func_loop rec name body (S j)
      | SNone => i_func_loop rec name body (S i)
      end
  end.

(** The loop [while i<len(block): res=execute_line(block[i], lines=block, idx=i)]
    of the [if] case.  Its body is the single assignment on the same
    line, so [i] does not change; [res] is the local of that name,
    [None] while unassigned. *)
Definition if_while_body (block : list string) (i : nat) (res : option signal)
  : M (option signal) :=
  match block !! i with
  | None => ret res
  | Some line =>
      r <- i_execute_line rec line (Some block) (Some i) "<stdin>" ;;
      i_if_while rec block i (Some r)
  end.

(** The [for w in _watch_expressions] loop of [debug_prompt], at
    position [i] of the live list. *)
Definition watch_loop_body (i : nat) : M unit :=
  s <- get ;;
  match watch_expressions s !! i with
  | None => ret tt
  | Some w =>
      try_except
        (v <- safe_eval host (i_call_user_func rec) w ;;
         print (OutWatch w (Some v)))
        (print (OutWatch w None)) ;;;
      i_watch_loop rec (S i)
  end.

Definition add_breakpoint (b : breakpoint) : M unit :=
  modify (fun s => set_breakpoints ({[ b ]} ∪ breakpoints s) s).

Definition invalid_int (t : string) : exn :=
  ValueError (String.append "invalid literal for int() with base 10: " t).

(** One round of the [while True] loop of [debug_prompt]. *)
Definition command_loop_body : M action :=
  print (OutPrompt "(stry-debug) ") ;;;
  s <- get ;;
  match stdin (world s) with
  | [] => ret Continue                      (* EOFError *)
  | l :: rest =>
      modify (set_world {| stdin := rest; stdout := stdout (world s);
                           files := files (world s) |}) ;;;
      let cmd := Text.strip l in
      if mem cmd ["c"; "continue"] then ret Continue
      else if mem cmd ["s"; "step"] then ret Step
      else if mem cmd ["n"; "next"] then ret Next
      else if Text.startswith "b " cmd then
        let arg := Text.strip (Text.drop_prefix 2 cmd) in
        match Text.split_once ":" arg with
        | Some (fname, ln) =>
            match host_int host ln with
            | None => raise (invalid_int ln)
            | Some n =>
                add_breakpoint (inr (fname, n)) ;;;
                print OutUnknownCommand ;;;
                i_command_loop rec
            end
        | None =>
            match host_int host arg with
            | None => raise (invalid_int arg)
            | Some n =>
                add_breakpoint (inl n) ;;;
                print (OutBreakpointSet arg) ;;;
                i_command_loop rec
            end
        end
      else if Text.startswith "del " cmd then
        let arg := Text.strip (Text.drop_prefix 4 cmd) in
        match host_int host arg with
        | None => ret tt
        | Some n =>
            modify (fun s => set_breakpoints (breakpoints s ∖ {[ inl n ]}) s)
        end ;;;
        print (OutBreakpointRemoved arg) ;;;
        i_command_loop rec
      else if mem cmd ["bt"; "stack"] then
        s <- get ;;
        print (OutStack (call_depth s) (vars s)) ;;;
        i_command_loop rec
      else if Text.startswith "watch " cmd then
        let e := Text.strip (Text.drop_prefix 6 cmd) in
        modify (fun s => set_watch_expressions (watch_expressions s ++ [e]) s) ;;;
        print (OutWatchAdded e) ;;;
        i_command_loop rec
      else if Text.startswith "unwatch " cmd then
        let e := Text.strip (Text.drop_prefix 8 cmd) in
        modify (fun s =>
                  set_watch_expressions
                    (remove_first e (watch_expressions s)) s) ;;;
        i_command_loop rec
      else if mem cmd ["vars"] then
        s <- get ;;
        print (OutVars (vars s)) ;;;
        i_command_loop rec
      else if mem cmd ["help"; "?"] then
        print OutHelp ;;;
        i_command_loop rec
      else
        print OutUnknownCommand ;;;
        i_command_loop rec
  end.

(** [debug_prompt(source_name, lineno, line_text)] *)
Definition debug_prompt (source_name : string) (lineno : nat)
    (line_text : string) : M action :=
  print (OutPaused source_name lineno (Text.strip line_text)) ;;;
  s <- get ;;
  match watch_expressions s with
  | [] => ret tt
  | _ :: _ => print OutWatchesHeader ;;; i_watch_loop rec 0%nat
  end ;;;
  i_command_loop rec.

(** [parse_block(lines, idx+1)] as [execute_line] calls it, where
    [lines] and [idx] may still be their default [None]. *)
Definition block_after (lines : option (list string)) (idx : option nat)
  : M (list string * nat) :=
  match idx, lines with
  | None, _ =>
      raise (TypeError "unsupported operand type(s) for +: 'NoneType' and 'int'")
  | Some _, None =>
      raise (TypeError "object of type 'NoneType' has no len()")
  | Some i, Some ls =>
      match parse_block ls (S i) with
      | None => raise (SyntaxError "Missing 'end'")
      | Some r => ret r
      end
  end.

(** The pause check and prompt that [execute_line] runs before it
    dispatches on the statement. *)
Definition debug_check (source_name : string) (lineno : nat) (raw : string)
  : M unit :=
  s <- get ;;
  if check_debug_pause s source_name lineno then
    a <- debug_prompt source_name lineno raw ;;
    match a with
    | Continue => ret tt
    | Step => modify (set_single_step true)
    | Next =>
        modify (fun s =>
                  set_single_step true
                    (set_step_over_depth (Some (call_depth s)) s))
    end
  else ret tt.

(** The statement dispatch of [execute_line], on the stripped line.

    In the [if] case the source has the loop on one line,
    [while i<len(block): res=execute_line(block[i], lines=block, idx=i);],
    followed, at the indentation of [while], by
    [if isinstance(res,int): i=res; i+=1; continue], an [elif] returning a
    [ReturnSignal], [i+=1] and, one level out, [return end_idx].  The
    statements are embedded as they stand.  The [continue] has no loop
    around it, which CPython reports as the SyntaxError named below when it
    compiles the module; here that branch raises this error, and
    [if_while_returns_unassigned] shows that no run reaches it. *)
Definition dispatch (stripped : string) (lines : option (list string))
    (idx : option nat) : M signal :=
  let eval := safe_eval host (i_call_user_func rec) in
  match Regex.re_match Patterns.stryset stripped with
  | Some [name; e] =>
      v <- eval e ;;
      modify (fun s => set_vars (<[name := v]> (vars s)) s) ;;;
      ret SNone
  | _ =>
  match Regex.re_match Patterns.stryprint stripped with
  | Some [e] =>
      val <- eval e ;;
      print (OutPrint val) ;;;
      ret SNone
  | _ =>
  match Regex.re_match Patterns.def stripped with
  | Some [fname; params] =>
      let param_list :=
        filter (fun p => negb (Text.is_empty p) = true)
               (map Text.strip (Text.split_all "," params)) in
      found <- block_after lines idx ;;
      let '(block, end_idx) := found in
      modify (fun s => set_funcs (<[fname := (param_list, block)]> (funcs s)) s) ;;;
      ret (SJump end_idx)
  | _ =>
  match Regex.re_match Patterns.return_ stripped with
  | Some [e] =>
      val <- eval e ;;
      ret (SReturn val)
  | _ =>
  match Regex.re_match Patterns.if_ stripped with
  | Some [e] =>
      cond <- eval e ;;
      found <- block_after lines idx ;;
      let '(block, end_idx) := found in
      if truthy host cond then
        res <- i_if_while rec block 0%nat None ;;
        match res with
        | None => raise (UnboundLocalError "res")
        | Some (SJump _) =>
            (* [i=res; i+=1; continue], with no loop around it *)
            raise (SyntaxError "'continue' not properly in loop")
        | Some (SReturn v) => ret (SReturn v)
        | Some SNone => ret (SJump end_idx)
        end
      else ret (SJump end_idx)
  | _ => ret SNone
  end end end end end.

(** [execute_line(line, lines, idx, source_name)] *)
Definition execute_line_body (line : string) (lines : option (list string))
    (idx : option nat) (source_name : string) : M signal :=
  let raw := Text.rstrip_newline line in
  let stripped := Text.strip raw in
  if Text.is_empty stripped || Text.startswith "#" stripped then ret SNone
  else
    let lineno := lineno_of idx in
    debug_check source_name lineno raw ;;;
    dispatch stripped lines idx.

Definition step : interp :=
  {| i_execute_line := execute_line_body;
     i_call_user_func := call_user_func_body;
     i_func_loop := func_loop_body;
     i_if_while := if_while_body;
     i_watch_loop := watch_loop_body;
     i_command_loop := command_loop_body |}.

End Bodies.

Section Interpreter.
Variable host : Host.

Fixpoint interp_at (fuel : nat) : interp :=
  match fuel with
  | O => bottom
  | S fuel' => step host (interp_at fuel')
  end.

Definition execute_line (fuel : nat) :=
  execute_line_body host (interp_at fuel).

Definition call_user_func (fuel : nat) :=
  call_user_func_body (interp_at fuel).

(** The [while i<len(lines)] loop of [run_file], from index [i]. *)
Fixpoint run_loop (fuel : nat) (path : string) (lines : list string) (i : nat)
  : M value :=
  match fuel with
  | O => out_of_fuel
  | S fuel' =>
      match lines !! i with
      | None => ret VNone
      | Some line =>
          res <- execute_line fuel' line (Some lines) (Some i) path ;;
          match res with
          | SJump j => run_loop fuel' path lines (S j)
          | SReturn v => ret v
          | SNone => run_loop fuel' path lines (S i)
          end
      end
  end.

(** [run_file(path)] *)
Definition run_file (fuel : nat) (path : string) : M value :=
  match host_readlines host path with
  | None => print (OutFileNotFound path) ;;; ret VNone
  | Some lines => run_loop fuel path lines 0%nat
  end.

End Interpreter.

(** ** A host for the worked examples

    [sample_host] answers as CPython does on the expression texts of
    [sample_parse_table]; every other text is taken as one the parser
    rejects, so the examples below use only texts of the table and texts
    that are no Python expression.  Its operators and built-ins reject
    what this development does not interpret. *)

Definition sample_parse_table : list (string * expr) :=
  [ ("0", Expression (Constant (VInt 0)));
    ("1", Expression (Constant (VInt 1)));
    ("2", Expression (Constant (VInt 2)));
    ("5", Expression (Constant (VInt 5)));
    ("7", Expression (Constant (VInt 7)));
    ("99", Expression (Constant (VInt 99)));
    ("x", Expression (Name "x"));
    ("y", Expression (Name "y"));
    ("f()", Expression (Call (Name "f") [] []));
    ("g(1)", Expression (Call (Name "g") [Constant (VInt 1)] []));
    ("x > 0", Expression (Compare (Name "x") [Gt] [Constant (VInt 0)]));
    ("1 < 2 < 3",
     Expression (Compare (Constant (VInt 1)) [Lt; Lt]
                   [Constant (VInt 2); Constant (VInt 3)]));
    ("3 < 2 < 1",
     Expression (Compare (Constant (VInt 3)) [Lt; Lt]
                   [Constant (VInt 2); Constant (VInt 1)]));
    ("1 > 2 > x.y",
     Expression (Compare (Constant (VInt 1)) [Gt; Gt]
                   [Constant (VInt 2); Attribute (Name "x") "y"]));
    ("x.y", Expression (Attribute (Name "x") "y"));
    ("1 < 2 < x.y",
     Expression (Compare (Constant (VInt 1)) [Lt; Lt]
                   [Constant (VInt 2); Attribute (Name "x") "y"]));
    ("f(k=x.y)",
     Expression (Call (Name "f") [] [(Some "k", Attribute (Name "x") "y")]));
    ("'c' < 'b' < 'a'",
     Expression (Compare (Constant (VStr "c")) [Lt; Lt]
                   [Constant (VStr "b"); Constant (VStr "a")]));
    ("'a'.b + 'c'",
     Expression (BinOp (Attribute (Constant (VStr "a")) "b") Add
                   (Constant (VStr "c"))));
    ("1 / 0",
     Expression (BinOp (Constant (VInt 1)) Div (Constant (VInt 0)))) ].

Fixpoint assoc {A} (k : string) (l : list (string * A)) : option A :=
  match l with
  | [] => None
  | (k', a) :: l' => if String.eqb k k' then Some a else assoc k l'
  end.

Definition digit_value (c : ascii) : option Z :=
  let n := N_of_ascii c in
  if ((48 <=? n) && (n <=? 57))%N then Some (Z.of_N n - 48) else None.

Fixpoint decimal_chars (acc : Z) (l : list ascii) : option Z :=
  match l with
  | [] => Some acc
  | c :: l' =>
      match digit_value c with
      | Some d => decimal_chars (10 * acc + d) l'
      | None => None
      end
  end.

(** [int(text)] on a plain run of decimal digits. *)
Definition decimal (t : string) : option Z :=
  match Text.chars t with
  | [] => None
  | l => decimal_chars 0 l
  end.

(** A line as [readlines] returns it, with its newline. *)
Definition line_of (t : string) : string :=
  String.append t (String Text.newline EmptyString).

Definition while_program : list string :=
  map line_of ["stryset x (0)"; "while (x > 0):"; "stryset x (99)"; "end"].

Definition top_return_program : list string :=
  map line_of ["return 5"; "stryprint 1"].

Definition step_over_program : list string :=
  map line_of ["def f():"; "stryset y (1)"; "end"; "stryset x (f())"].

Definition scope_program : list string :=
  map line_of ["def f():"; "stryset x (99)"; "return x"; "end";
               "stryset x (1)"; "stryset y (f())"].

Definition sample_files : list (string * list string) :=
  [ ("while.stryke", while_program);
    ("top_return.stryke", top_return_program);
    ("step_over.stryke", step_over_program);
    ("scope.stryke", scope_program) ].

Definition sample_host : Host :=
  {| ast_parse := fun t => assoc t sample_parse_table;
     host_binop := fun _ _ _ => inl (TypeError "unsupported operand type(s)");
     host_unaryop := fun _ _ => inl (TypeError "bad operand type");
     host_compare := fun _ _ _ => inl (TypeError "comparison not supported");
     host_truth := fun _ => true;
     host_builtin := fun _ _ w => (inl (HostError "built-in not available"), w);
     host_int := decimal;
     host_readlines := fun path => assoc path sample_files |}.

(** ** Vocabulary of the properties *)

Definition is_ok {A} (r : outcome A) : bool :=
  match r with Ok _ => true | _ => false end.

Definition is_name (e : expr) : bool :=
  match e with Name _ => true | _ => false end.

(** A node outside the restricted grammar: a node class [eval_ast] has
    no case for, or a call whose callee is not a bare name. *)
Definition unsupported_node (e : expr) : bool :=
  match e with
  | Attribute _ _ | Subscript _ _ | Comprehension _ _ _ | Lambda _
  | OtherNode _ _ => true
  | Call f _ _ => negb (is_name f)
  | _ => false
  end.

(** The exception [eval_ast] raises at such a node. *)
Definition unsupported_error (e : expr) : exn :=
  match e with
  | Call _ _ _ => ValueError "Unsupported call expression"
  | _ => unsupported_expression e
  end.

(** The node under the [ast.Expression] wrapper of a parse result. *)
Definition root_node (e : expr) : expr :=
  match e with Expression b => b | _ => e end.

(** The parse tree contains such a node, anywhere. *)
Fixpoint contains_unsupported (e : expr) : bool :=
  match e with
  | Expression b => contains_unsupported b
  | Constant _ | Name _ => false
  | BinOp l _ r => contains_unsupported l || contains_unsupported r
  | UnaryOp _ x => contains_unsupported x
  | BoolOp _ vs => existsb contains_unsupported vs
  | Compare l _ cs => contains_unsupported l || existsb contains_unsupported cs
  | Call f args kws =>
      negb (is_name f) || contains_unsupported f
      || existsb contains_unsupported args
      || existsb (fun kw => contains_unsupported kw.2) kws
  | Attribute _ _ | Subscript _ _ | Comprehension _ _ _ | Lambda _
  | OtherNode _ _ => true
  end.

(** The parse tree contains such a node at a position that [eval_ast]
    evaluates on every run that gets that far: the root, an operand of a
    unary, binary or boolean operator, a positional argument of a call,
    the left operand of a comparison or its first comparator. *)
Fixpoint exposed (e : expr) : bool :=
  match e with
  | Expression b => exposed b
  | Constant _ | Name _ => false
  | BinOp l _ r => exposed l || exposed r
  | UnaryOp _ x => exposed x
  | BoolOp _ vs => existsb exposed vs
  | Compare l ops cs =>
      exposed l
      || match ops, cs with
         | _ :: _, c :: _ => exposed c
         | _, _ => false
         end
  | Call f args _ => negb (is_name f) || existsb exposed args
  | Attribute _ _ | Subscript _ _ | Comprehension _ _ _ | Lambda _
  | OtherNode _ _ => true
  end.

Section Reached.
Variable host : Host.
Variable call : string -> list value -> M value.

(** The elements of a list comprehension over [es], in turn: each is
    looked into, and passed when its evaluation produced a value. *)
Definition reached_in_list (reached : expr -> state -> option (expr * state))
  : list expr -> state -> option (expr * state) :=
  fix loop (es : list expr) (s : state) : option (expr * state) :=
    match es with
    | [] => None
    | e :: es' =>
        match reached e s with
        | Some found => Some found
        | None =>
            match eval_ast host call e s with
            | (Ok _, s') => loop es' s'
            | _ => None
            end
        end
    end.

(** The comparators of a chain, in turn: each is looked into, and passed
    when it produced a value and its pair with [left] holds. *)
Definition reached_in_chain (reached : expr -> state -> option (expr * state))
  : list cmpop -> list expr -> value -> state -> option (expr * state) :=
  fix loop (ops : list cmpop) (comparators : list expr) (left : value)
    (s : state) {struct comparators} : option (expr * state) :=
    match comparators, ops with
    | comp :: comparators', op :: ops' =>
        match reached comp s with
        | Some found => Some found
        | None =>
            match eval_ast host call comp s, ops_cmpop host op with
            | (Ok rv, s'), Some f =>
                match f left rv with
                | inr r =>
                    if truthy host r then loop ops' comparators' rv s'
                    else None
                | inl _ => None
                end
            | _, _ => None
            end
        end
    | _, _ => None
    end.

(** The first construct outside the restricted grammar that the
    evaluation of [node] from state [s] comes to, with the state at that
    moment; [None] when it comes to none.  The parts of a node are taken
    in the order [eval_ast] evaluates them: both operands of a binary
    operator, every operand of [and] and [or], the positional arguments
    of a call on a bare name (never the keyword arguments), the left
    operand of a comparison and then its comparators as long as every
    pair so far holds.  A part is passed only when its evaluation
    produced a value. *)
Fixpoint reached_unsupported (node : expr) (s : state)
  : option (expr * state) :=
  match node with
  | Expression body => reached_unsupported body s
  | Constant _ | Name _ => None
  | BinOp l _ r =>
      match reached_unsupported l s with
      | Some found => Some found
      | None =>
          match eval_ast host call l s with
          | (Ok _, s1) => reached_unsupported r s1
          | _ => None
          end
      end
  | UnaryOp _ e => reached_unsupported e s
  | BoolOp _ vs => reached_in_list reached_unsupported vs s
  | Compare l ops comparators =>
      match reached_unsupported l s with
      | Some found => Some found
      | None =>
          match eval_ast host call l s with
          | (Ok lv, s1) =>
              reached_in_chain reached_unsupported ops comparators lv s1
          | _ => None
          end
      end
  | Call func args _ =>
      match func with
      | Name _ => reached_in_list reached_unsupported args s
      | _ => Some (node, s)
      end
  | Attribute _ _ | Subscript _ _ | Comprehension _ _ _ | Lambda _
  | OtherNode _ _ => Some (node, s)
  end.

End Reached.

(** A line that is empty or whitespace only, or whose stripped text
    begins with [#]. *)
Definition blank_or_comment (line : string) : Prop :=
  Forall (fun c => Text.is_space c = true) (Text.chars line)
  \/ Text.startswith "#" (Text.strip line) = true.

(** The expression parser reads the text [name] as the identifier of
    that name, or does not accept it at all. *)
Definition reads_as_identifier (host : Host) (name : string) : Prop :=
  ast_parse host name = Some (Expression (Name name))
  \/ ast_parse host name = None.

(** The lines of a two-level construct: an [if] whose body holds a
    [while] block, each closed by its own [end]. *)
Definition nested_lines : list string :=
  ["if (a):"; "while (b):"; "stryset x (1)"; "end"; "stryset y (2)"; "end"].

(** A state in which the debugger would pause on any statement: single
    stepping is on and breakpoints sit on line 1. *)
Definition armed_state : state :=
  set_single_step true
    (set_breakpoints {[ inl 1; inr ("notes.stryke", 1) ]} (initial_state ["c"])).

(** The debugger set up for the step-over run: a breakpoint on line 4 of
    [step_over.stryke], and the commands [n], [bt], [c] waiting on the
    input. *)
Definition step_over_state : state :=
  set_breakpoints {[ inr ("step_over.stryke", 4) ]}
    (initial_state ["n"; "bt"; "c"]).

(** The matches of a regular expression, declaratively:
    [matches total r s caps s' caps'] when [r] can consume [s] down to its
    suffix [s'], taking the captured groups from [caps] to [caps']. *)
Inductive matches (total : nat)
  : Regex.regex -> list ascii -> Regex.captures -> list ascii
    -> Regex.captures -> Prop :=
| matches_Begin s caps :
    length s = total -> matches total Regex.Begin s caps s caps
| matches_End_nil caps : matches total Regex.End_ [] caps [] caps
| matches_End_newline c caps :
    Text.is_newline c = true -> matches total Regex.End_ [c] caps [c] caps
| matches_Lit c s caps : matches total (Regex.Lit c) (c :: s) caps s caps
| matches_Class p c s caps :
    p c = true -> matches total (Regex.Class p) (c :: s) caps s caps
| matches_Seq r1 r2 s caps s1 caps1 s2 caps2 :
    matches total r1 s caps s1 caps1 ->
    matches total r2 s1 caps1 s2 caps2 ->
    matches total (Regex.Seq r1 r2) s caps s2 caps2
| matches_Star_done g r s caps : matches total (Regex.Star g r) s caps s caps
| matches_Star_more g r s caps s1 caps1 s2 caps2 :
    matches total r s caps s1 caps1 ->
    matches total (Regex.Star g r) s1 caps1 s2 caps2 ->
    matches total (Regex.Star g r) s caps s2 caps2
| matches_Group r s caps s1 caps1 :
    matches total r s caps s1 caps1 ->
    matches total (Regex.Group r) s caps s1
      (caps1 ++ [take (length s - length s1) s]).

Fixpoint capture_free (r : Regex.regex) : bool :=
  match r with
  | Regex.Seq r1 r2 => capture_free r1 && capture_free r2
  | Regex.Star _ r' => capture_free r'
  | Regex.Group _ => false
  | _ => true
  end.

(** ** Vocabulary of the interpreter invariants *)

(** A computation respects the relation [R] on states when the state it
    ends in, whatever the outcome, is related to the state it started in. *)
Definition respects (R : state -> state -> Prop) {A} (m : M A) : Prop :=
  forall s, R s (m s).2.

(** The statement and call functions of one fuel level respect [R]. *)
Definition core_respects (R : state -> state -> Prop) (rec : interp) : Prop :=
  (forall line lines idx source_name,
      respects R (i_execute_line rec line lines idx source_name))
  /\ (forall name args, respects R (i_call_user_func rec name args))
  /\ (forall name body i, respects R (i_func_loop rec name body i))
  /\ (forall block i res, respects R (i_if_while rec block i res)).

(** The two loops of the debugger prompt respect [R]. *)
Definition prompt_respects (R : state -> state -> Prop) (rec : interp) : Prop :=
  (forall i, respects R (i_watch_loop rec i))
  /\ respects R (i_command_loop rec).

(** The debugger is disarmed: single stepping is off and no breakpoint is
    set, as in the state right after import. *)
Definition disarmed (s : state) : Prop :=
  single_step s = false /\ breakpoints s = ∅.

(** A preorder on states kept by the elementary updates of the statement
    interpreter: binding variables, registering a function, any change of
    the streams, and the call-depth bracket around a function body. *)
Record statement_invariant (R : state -> state -> Prop) : Prop := {
  inv_refl : forall s, R s s;
  inv_trans : forall s1 s2 s3, R s1 s2 -> R s2 s3 -> R s1 s3;
  inv_vars : forall s m, R s (set_vars m s);
  inv_funcs : forall s k v, R s (set_funcs (<[k := v]> (funcs s)) s);
  inv_world : forall s w, R s (set_world w s);
  inv_bracket :
    forall s s2 m,
      R (set_call_depth (call_depth s + 1) s) s2 ->
      R s (set_call_depth (call_depth s2 - 1) (set_vars m s2));
}.

(** ... and kept by what the debugger commands do to the debugger state. *)
Record debugger_invariant (R : state -> state -> Prop) : Prop := {
  inv_bp_add : forall s b, R s (set_breakpoints ({[ b ]} ∪ breakpoints s) s);
  inv_bp_del :
    forall s n, R s (set_breakpoints (breakpoints s ∖ {[ inl n ]}) s);
  inv_single_step : forall s, R s (set_single_step true s);
  inv_step_over : forall s d, R s (set_step_over_depth d s);
  inv_watch : forall s w, R s (set_watch_expressions w s);
}.

(** The relations of the invariants below. *)
Definition same_call_depth (s s' : state) : Prop :=
  call_depth s' = call_depth s.

Definition functions_kept (s s' : state) : Prop :=
  dom (funcs s) ⊆ dom (funcs s').

Definition single_step_kept (s s' : state) : Prop :=
  single_step s = true -> single_step s' = true.

Definition qualified_breakpoints_kept (s s' : state) : Prop :=
  forall b, inr b ∈ breakpoints s -> inr b ∈ breakpoints s'.

Definition debugger_untouched (s s' : state) : Prop :=
  disarmed s'
  /\ step_over_depth s' = step_over_depth s
  /\ watch_expressions s' = watch_expressions s.

Definition stays_disarmed (s s' : state) : Prop :=
  disarmed s -> debugger_untouched s s'.

(** A state with one [file:line] breakpoint and the commands [del 4] and
    [c] waiting on the input. *)
Definition del_state : state :=
  set_breakpoints {[ inr ("step_over.stryke", 4) ]}
    (initial_state ["del 4"; "c"]).

(** The five patterns [execute_line] tries, in its order, and the number
    of them that accept a text. *)
Definition statement_patterns : list Regex.regex :=
  [Patterns.stryset; Patterns.stryprint; Patterns.def; Patterns.return_;
   Patterns.if_].

Definition accepts (p : Regex.regex) (t : string) : bool :=
  match Regex.re_match p t with Some _ => true | None => false end.

Definition accepting_patterns (t : string) : nat :=
  length (List.filter (fun p => accepts p t) statement_patterns).

(** The parameter list [execute_line] builds from the text between the
    parentheses of a [def] line. *)
Definition param_list_of (params : string) : list string :=
  filter (fun p => negb (Text.is_empty p) = true)
         (map Text.strip (Text.split_all "," params)).

(** The [vars] mapping a call starts its body with: the caller's mapping
    with each parameter bound to its argument, in order. *)
Definition bind_params (params : list string) (arg_values : list value)
    (m : gmap string value) : gmap string value :=
  fold_left (fun m pv => <[pv.1 := pv.2]> m) (zip params arg_values) m.

(** Two states that agree on everything but the recorded step-over
    depth, and two computations that cannot tell such states apart: from
    agreeing states they reach the same outcome and agreeing states. *)
Definition agree_but_depth (s t : state) : Prop :=
  vars s = vars t /\ funcs s = funcs t /\ breakpoints s = breakpoints t
  /\ single_step s = single_step t /\ call_depth s = call_depth t
  /\ watch_expressions s = watch_expressions t /\ world s = world t.

Definition alike {A} (m1 m2 : M A) : Prop :=
  forall s t, agree_but_depth s t ->
    (m1 s).1 = (m2 t).1 /\ agree_but_depth (m1 s).2 (m2 t).2.

Definition core_alike (rec : interp) : Prop :=
  (forall line lines idx source_name,
      alike (i_execute_line rec line lines idx source_name)
            (i_execute_line rec line lines idx source_name))
  /\ (forall name args,
         alike (i_call_user_func rec name args) (i_call_user_func rec name args))
  /\ (forall name body i,
         alike (i_func_loop rec name body i) (i_func_loop rec name body i))
  /\ (forall block i res,
         alike (i_if_while rec block i res) (i_if_while rec block i res))
  /\ (forall i, alike (i_watch_loop rec i) (i_watch_loop rec i))
  /\ alike (i_command_loop rec) (i_command_loop rec).

Definition same_vars (s s' : state) : Prop := vars s' = vars s.

(** ** The transpiler of stryke_to_py.py

    [compile_file] reads a source file, turns each line into at most one
    line of Python and writes the result.  The per-line rules are the body
    of its [for] loop; reading and writing go through the host and the
    file table of the state. *)

Module Transpiler.
Import Regex.

(** [^stryset\s+(\w+)\s*\(\s*(.+)\s*\)\s*$] *)
Definition stryset : regex :=
  seq [Begin; lit "stryset"; plus ws; Group (plus word);
       Star true ws; Lit "("; Star true ws; Group (plus dot);
       Star true ws; Lit ")"; Star true ws; End_].

(** [^stryprint\s+(.+)$] *)
Definition stryprint : regex :=
  seq [Begin; lit "stryprint"; plus ws; Group (plus dot); End_].

(** [^if\s*\(\s*(.+)\s*\):\s*$] *)
Definition if_ : regex :=
  seq [Begin; lit "if"; Star true ws; Lit "("; Star true ws;
       Group (plus dot); Star true ws; Lit ")"; Lit ":"; Star true ws; End_].

(** [^while\s*\(\s*(.+)\s*\):\s*$] *)
Definition while_ : regex :=
  seq [Begin; lit "while"; Star true ws; Lit "("; Star true ws;
       Group (plus dot); Star true ws; Lit ")"; Lit ":"; Star true ws; End_].

(** [^def\s+(\w+)\s*\(\s*(.*?)\s*\)\s*:\s*$] *)
Definition def : regex :=
  seq [Begin; lit "def"; plus ws; Group (plus word); Star true ws; Lit "(";
       Star true ws; Group (Star false dot); Star true ws; Lit ")";
       Star true ws; Lit ":"; Star true ws; End_].

(** [^import\s+(\w+)\s*$] *)
Definition import_ : regex :=
  seq [Begin; lit "import"; plus ws; Group (plus word); Star true ws; End_].

(** [\{(\w+)\}] *)
Definition braces : regex :=
  seq [Lit "{"; Group (plus word); Lit "}"].

(** [re.sub(r"\{(\w+)\}", r'{\1}', inner)]: from left to right, each
    match of the pattern is replaced by an opening brace, its group and a
    closing brace; [n] bounds the number of steps. *)
Fixpoint sub_braces_chars (n : nat) (l : list ascii) : list ascii :=
  match n with
  | O => l
  | S n' =>
      match l with
      | [] => []
      | c :: l' =>
          match rmatch (length l) braces l []
                  (fun rest caps => Some (caps ++ [rest])) with
          | Some [g; rest] =>
              ("{"%char :: g) ++ "}"%char :: sub_braces_chars n' rest
          | _ => c :: sub_braces_chars n' l'
          end
      end
  end.

Definition sub_braces (t : string) : string :=
  Text.text (sub_braces_chars (length (Text.chars t)) (Text.chars t)).

(** [" " * (4*indent)] *)
Definition indent_text (indent : nat) : string := str_repeat (4 * indent) " ".

Definition cat (parts : list string) : string :=
  fold_right String.append "" parts.

(** [re.match(pattern, ts)] behind its [ts.startswith(keyword)] guard. *)
Definition guarded (keyword : string) (p : regex) (ts : string)
  : option (list string) :=
  if Text.startswith keyword ts then re_match p ts else None.

(** One round of the loop of [compile_file]: the line appended to
    [py_lines], if any, and the indentation level afterwards. *)
Definition translate_line (indent : nat) (ln : string) : option string * nat :=
  let s := Text.rstrip_newline ln in
  let ts := Text.strip s in
  let pad := indent_text indent in
  if Text.is_empty ts || Text.startswith "#" ts then (None, indent)
  else
  match guarded "stryset" stryset ts with
  | Some [name; expr] => (Some (cat [pad; name; " = "; expr]), indent)
  | _ =>
  match guarded "stryprint" stryprint ts with
  | Some [e] =>
      let expr := Text.strip e in
      if is_quoted expr then
        let inner := sub_braces (Text.slice_inner expr) in
        (Some (cat [pad; "print(f"; Text.dquote; inner; Text.dquote; ")"]),
         indent)
      else (Some (cat [pad; "print("; expr; ")"]), indent)
  | _ =>
  match guarded "if" if_ ts with
  | Some [c] => (Some (cat [pad; "if "; c; ":"]), S indent)
  | _ =>
  if Text.startswith "else:" ts then
    (Some (cat [indent_text (Nat.pred indent); "else:"]), S (Nat.pred indent))
  else
  match guarded "while" while_ ts with
  | Some [c] => (Some (cat [pad; "while "; c; ":"]), S indent)
  | _ =>
  match guarded "def" def ts with
  | Some [name; params] =>
      (Some (cat [pad; "def "; name; "("; params; "):"]), S indent)
  | _ =>
  if Text.startswith "return" ts then
    (Some (cat [pad; "return "; Text.strip (Text.drop_prefix 6 ts)]), indent)
  else if String.eqb ts "end" then (None, Nat.pred indent)
  else
  match guarded "import" import_ ts with
  | Some [m] =>
      (Some (cat [pad; "# import "; m; " (module needs manual conversion)"]),
       indent)
  | _ => (Some (cat [pad; ts]), indent)
  end end end end end end.

(** The loop of [compile_file] from indentation level [indent]: the
    lines of [py_lines], in order. *)
Fixpoint translate_from (indent : nat) (lines : list string) : list string :=
  match lines with
  | [] => []
  | ln :: rest =>
      match translate_line indent ln with
      | (Some out, indent') => out :: translate_from indent' rest
      | (None, indent') => translate_from indent' rest
      end
  end.

Definition translate (lines : list string) : list string :=
  translate_from 0 lines.

Definition nl : string := String Text.newline EmptyString.

(** What [compile_file] writes to the output file. *)
Definition render (py_lines : list string) : string :=
  cat [ cat ["# Auto-compiled from .stryke"; nl];
        cat ["def _stryke_main():"; nl];
        match py_lines with
        | [] => cat ["    pass"; nl]
        | _ => cat (map (fun l => cat ["    "; l; nl]) py_lines)
        end;
        cat [nl; "if __name__=='__main__':"; nl; "    _stryke_main()"; nl] ].

(** [compile_file(src_path, out_path)]; [splitext_root] is
    [os.path.splitext(...)[0]] of the host. *)
Definition compile_file (host : Host) (splitext_root : string -> string)
    (src_path : string) (out_path : option string) : M unit :=
  match host_readlines host src_path with
  | None => print (OutFileNotFound src_path)
  | Some lines =>
      let out_path :=
        match out_path with
        | Some p => if Text.is_empty p
                    then String.append (splitext_root src_path) "_compiled.py"
                    else p
        | None => String.append (splitext_root src_path) "_compiled.py"
        end in
      modify (fun s =>
                set_world {| stdin := stdin (world s);
                             stdout := stdout (world s);
                             files := <[out_path := render (translate lines)]>
                                        (files (world s)) |} s) ;;;
      print (OutHost (String.append "Compiled to " out_path))
  end.

End Transpiler.

(** The lines [compile_file] passes over: blank lines and comments. *)
Definition is_skipped (ln : string) : bool :=
  let ts := Text.strip (Text.rstrip_newline ln) in
  Text.is_empty ts || Text.startswith "#" ts.

(** A line that only closes a block. *)
Definition is_end (ln : string) : bool :=
  String.eqb (Text.strip (Text.rstrip_newline ln)) "end".

(** * Properties *)

(** ** Text helpers *)

Section TextFacts.
Import Text.

Lemma chars_text (l : list ascii) : chars (text l) = l.
Proof. apply list_ascii_of_string_of_list_ascii. Qed.

Lemma text_chars (s : string) : text (chars s) = s.
Proof. apply string_of_list_ascii_of_string. Qed.

Lemma newline_is_space (c : ascii) : is_newline c = true -> is_space c = true.
Proof.
  unfold is_newline, is_space. intros H.
  apply N.eqb_eq in H. rewrite H. reflexivity.
Qed.

Lemma rstrip_chars_cons (p : ascii -> bool) (c : ascii) (l : list ascii) :
  p c = false -> rstrip_chars p (c :: l) = c :: rstrip_chars p l.
Proof.
  intros Hc. simpl. destruct (rstrip_chars p l); [now rewrite Hc | reflexivity].
Qed.

(** Stripping on the left commutes with stripping a smaller class on
    the right. *)
Lemma drop_while_rstrip (p q : ascii -> bool) (l : list ascii) :
  (forall c, q c = true -> p c = true) ->
  drop_while p (rstrip_chars q l) = rstrip_chars q (drop_while p l).
Proof.
  intros Hqp. induction l as [|c l IH]; [reflexivity|].
  destruct (p c) eqn:Hp.
  - change (drop_while p (c :: l)) with (if p c then drop_while p l else c :: l).
    rewrite Hp, <- IH. simpl.
    destruct (rstrip_chars q l) eqn:Hr.
    + destruct (q c); simpl; [reflexivity | now rewrite Hp].
    + simpl. now rewrite Hp.
  - assert (Hq : q c = false).
    { destruct (q c) eqn:Hq; [|reflexivity]. apply Hqp in Hq. congruence. }
    rewrite (rstrip_chars_cons q c l Hq).
    simpl. now rewrite Hp, (rstrip_chars_cons q c l Hq).
Qed.

Lemma rstrip_rstrip (p q : ascii -> bool) (l : list ascii) :
  (forall c, q c = true -> p c = true) ->
  rstrip_chars p (rstrip_chars q l) = rstrip_chars p l.
Proof.
  intros Hqp. induction l as [|c l IH]; [reflexivity|].
  simpl. destruct (rstrip_chars q l) eqn:Hr.
  - simpl in IH. rewrite <- IH.
    destruct (q c) eqn:Hq.
    + apply Hqp in Hq. now rewrite Hq.
    + reflexivity.
  - simpl. simpl in IH. now rewrite IH.
Qed.

(** The two-step stripping of [execute_line] is a plain [strip]. *)
Lemma strip_rstrip_newline (line : string) :
  strip (rstrip_newline line) = strip line.
Proof.
  unfold strip, rstrip_newline, lstrip_chars. rewrite chars_text.
  rewrite (drop_while_rstrip is_space is_newline _ newline_is_space).
  now rewrite (rstrip_rstrip is_space is_newline _ newline_is_space).
Qed.

Lemma drop_while_all (p : ascii -> bool) (l : list ascii) :
  Forall (fun c => p c = true) l -> drop_while p l = [].
Proof.
  induction 1 as [|c l Hc _ IH]; [reflexivity|]. simpl. now rewrite Hc.
Qed.

Lemma strip_whitespace_only (line : string) :
  Forall (fun c => is_space c = true) (chars line) -> strip line = "".
Proof.
  intros H. unfold strip, lstrip_chars. now rewrite (drop_while_all _ _ H).
Qed.

End TextFacts.

(** ** The monad *)

(** A computation that yields no value passes that on through [bind]. *)
Lemma bind_fails_left {A B} (m : M A) (f : A -> M B) (s : state) :
  is_ok (m s).1 = false -> is_ok (bind m f s).1 = false.
Proof.
  unfold bind. destruct (m s) as [[a|e|] s']; simpl; congruence.
Qed.

Lemma bind_fails_right {A B} (m : M A) (f : A -> M B) (s : state) :
  (forall a s', is_ok (f a s').1 = false) -> is_ok (bind m f s).1 = false.
Proof.
  intros H. unfold bind. destruct (m s) as [[a|e|] s']; simpl; auto.
Qed.

(** ** Block extractor *)

(** What [parse_block_from] returns: the lines before the first
    terminator, appended to the accumulator, and that terminator's index. *)
Lemma parse_block_from_first_end (rest : list string) (i : nat)
    (acc block : list string) (j : nat) :
  parse_block_from rest i acc = Some (block, j) ->
  exists k,
    j = (i + k)%nat /\ block = acc ++ take k rest
    /\ Forall (fun l => Text.strip l <> "end") (take k rest)
    /\ exists l, rest !! k = Some l /\ Text.strip l = "end".
Proof.
  revert i acc. induction rest as [|l rest IH]; intros i acc H; [discriminate|].
  simpl in H. destruct (String.eqb (Text.strip l) "end") eqn:He.
  - injection H as <- <-. exists 0%nat. rewrite Nat.add_0_r, app_nil_r.
    repeat split; [constructor|]. exists l. split; [reflexivity|].
    now apply String.eqb_eq.
  - apply IH in H as (k & -> & -> & Hall & l' & Hl' & He').
    exists (S k). rewrite <- app_assoc. simpl. repeat split.
    + lia.
    + constructor; [|exact Hall]. now apply String.eqb_neq.
    + exists l'. now split.
Qed.

(** [parse_block] stops at the first terminator at or after [start_idx],
    whatever block-opening lines it has passed. *)
Lemma parse_block_first_end (lines : list string) (start_idx : nat)
    (block : list string) (j : nat) :
  parse_block lines start_idx = Some (block, j) ->
  (start_idx <= j)%nat
  /\ block = take (j - start_idx) (drop start_idx lines)
  /\ Forall (fun l => Text.strip l <> "end") block
  /\ exists l, lines !! j = Some l /\ Text.strip l = "end".
Proof.
  unfold parse_block. intros H.
  apply parse_block_from_first_end in H as (k & -> & -> & Hall & l & Hl & He).
  replace (start_idx + k - start_idx)%nat with k by lia.
  repeat split; [lia | exact Hall |].
  exists l. split; [|exact He]. now rewrite lookup_drop in Hl.
Qed.

(** C1 (the code departs from the claim): on the two-level construct
    [nested_lines], started right after the outer opener, [parse_block]
    returns the terminator of the inner [while] (index 3) as the match,
    and a body that holds neither the inner terminator nor the line after
    it; a depth count would have returned index 5. *)
Theorem parse_block_nested_takes_inner_end :
  parse_block nested_lines 1 = Some (["while (b):"; "stryset x (1)"], 3%nat)
  /\ nested_lines !! 3%nat = Some "end"
  /\ nested_lines !! 5%nat = Some "end".
Proof. repeat split. Qed.

(** ** Expression trees *)

(** Induction on expression trees, through the operand lists. *)
Section ExprInduction.
Variable P : expr -> Prop.
Hypothesis HExpression : forall b, P b -> P (Expression b).
Hypothesis HConstant : forall v, P (Constant v).
Hypothesis HBinOp : forall l op r, P l -> P r -> P (BinOp l op r).
Hypothesis HUnaryOp : forall op x, P x -> P (UnaryOp op x).
Hypothesis HBoolOp : forall op vs, Forall P vs -> P (BoolOp op vs).
Hypothesis HCompare :
  forall l ops cs, P l -> Forall P cs -> P (Compare l ops cs).
Hypothesis HName : forall idn, P (Name idn).
Hypothesis HCall : forall f args kws, Forall P args -> P (Call f args kws).
Hypothesis HAttribute : forall v a, P (Attribute v a).
Hypothesis HSubscript : forall v i, P (Subscript v i).
Hypothesis HComprehension : forall c e its, P (Comprehension c e its).
Hypothesis HLambda : forall b, P (Lambda b).
Hypothesis HOtherNode : forall c es, P (OtherNode c es).

Lemma expr_induction : forall e, P e.
Proof.
  fix IH 1. intros [b|v|l op r|op x|op vs|l ops cs|idn|f args kws
                   |v a|v i|c e its|b|c es].
  - apply HExpression, IH.
  - apply HConstant.
  - apply HBinOp; apply IH.
  - apply HUnaryOp, IH.
  - apply HBoolOp. induction vs as [|x vs IHvs]; constructor;
      [apply IH | exact IHvs].
  - apply HCompare; [apply IH|].
    induction cs as [|x cs IHcs]; constructor; [apply IH | exact IHcs].
  - apply HName.
  - apply HCall. induction args as [|x args IHargs]; constructor;
      [apply IH | exact IHargs].
  - apply HAttribute.
  - apply HSubscript.
  - apply HComprehension.
  - apply HLambda.
  - apply HOtherNode.
Qed.
End ExprInduction.

(** ** Blank lines and comments *)

(** C10: a line that is empty, whitespace only, or whose stripped text
    begins with [#] makes [execute_line] return [None] at once, at any
    fuel: variables, functions, debugger state, input and output are what
    they were, so no pause took place, whatever breakpoints are set and
    whether or not single stepping is on. *)
Theorem blank_or_comment_line_is_skipped (host : Host) (fuel : nat)
    (line : string) (lines : option (list string)) (idx : option nat)
    (source_name : string) (s : state) :
  blank_or_comment line ->
  execute_line host fuel line lines idx source_name s = (Ok SNone, s).
Proof.
  intros H. unfold execute_line, execute_line_body.
  rewrite strip_rstrip_newline.
  destruct H as [H | H].
  - now rewrite (strip_whitespace_only _ H).
  - rewrite H. now rewrite orb_true_r.
Qed.

Lemma blank_or_comment_line_is_skipped_witness :
  blank_or_comment (line_of "   # set the counter")
  /\ check_debug_pause armed_state "notes.stryke" 1 = true
  /\ execute_line sample_host 0 (line_of "   # set the counter")
       (Some [line_of "   # set the counter"]) (Some 0%nat) "notes.stryke"
       armed_state
     = (Ok SNone, armed_state).
Proof.
  assert (H : blank_or_comment (line_of "   # set the counter")).
  { right. vm_compute. reflexivity. }
  split; [exact H|]. split; [vm_compute; reflexivity|].
  apply (blank_or_comment_line_is_skipped sample_host 0 _ _ _ _ _ H).
Defined.

(** ** Function calls *)

(** The body of [call_user_func] puts the saved mapping back, whatever
    the loop over the function's lines did. *)
Lemma call_user_func_body_restores_vars (rec : interp) (name : string)
    (arg_values : list value) (s : state) :
  vars (call_user_func_body rec name arg_values s).2 = vars s.
Proof.
  unfold call_user_func_body, bind, get.
  destruct (funcs s !! name) as [[params body]|]; [|reflexivity].
  destruct (negb (length arg_values =? length params)%nat); [reflexivity|].
  unfold modify, try_finally.
  match goal with |- context [ i_func_loop ?r ?n ?b ?i ?st ] =>
    destruct (i_func_loop r n b i st) as [[v| e |] s2] end; reflexivity.
Qed.

(** C3: whatever a call of a user function does and however it ends (the
    body runs to its end, a [return] is met, an exception passes through,
    the callee is unknown or the argument count is wrong), the [vars]
    mapping after the call is the mapping from before the call: a name
    bound inside the body is not visible afterwards, and a caller's
    variable of the same name has its old value. *)
Theorem call_user_func_restores_vars (host : Host) (fuel : nat)
    (name : string) (arg_values : list value) (s : state) :
  vars (call_user_func host fuel name arg_values s).2 = vars s.
Proof. apply call_user_func_body_restores_vars. Qed.

(** Evaluating an expression leaves [vars] as it was: the only
    statements that run are those of called functions. *)
Section EvalFrame.
Variable host : Host.
Variable call : string -> list value -> M value.
Hypothesis call_frame : forall name args s, vars (call name args s).2 = vars s.

Lemma bind_preserves_vars {A B} (m : M A) (f : A -> M B) (s : state) :
  (forall s, vars (m s).2 = vars s) ->
  (forall a s, vars (f a s).2 = vars s) ->
  vars (bind m f s).2 = vars s.
Proof.
  intros Hm Hf. unfold bind. specialize (Hm s).
  destruct (m s) as [[a|e|] s']; simpl in *; [|exact Hm..].
  now rewrite Hf.
Qed.

Lemma mapM_preserves_vars (es : list expr) :
  Forall (fun e => forall s, vars (eval_ast host call e s).2 = vars s) es ->
  forall s, vars (mapM (eval_ast host call) es s).2 = vars s.
Proof.
  induction 1 as [|e es He _ IH]; intros s; [reflexivity|].
  cbn [mapM]. apply bind_preserves_vars; [exact He|].
  intros v s'. apply bind_preserves_vars; [exact IH | reflexivity].
Qed.

Lemma compare_loop_preserves_vars (cs : list expr) :
  Forall (fun e => forall s, vars (eval_ast host call e s).2 = vars s) cs ->
  forall ops left s,
    vars (compare_loop host (eval_ast host call) ops cs left s).2 = vars s.
Proof.
  induction 1 as [|c cs Hc _ IH]; intros ops left s; [reflexivity|].
  destruct ops as [|op ops]; [reflexivity|].
  cbn [compare_loop]. apply bind_preserves_vars; [exact Hc|].
  intros right s'. destruct (ops_cmpop host op) as [f|]; [|reflexivity].
  apply bind_preserves_vars.
  - intros s0. now destruct (f left right).
  - intros r s0. destruct (negb (truthy host r)); [reflexivity | apply IH].
Qed.

Lemma eval_ast_preserves_vars (e : expr) :
  forall s, vars (eval_ast host call e s).2 = vars s.
Proof.
  induction e as [b IH|v|l op r IHl IHr|op x IH|op vs IH|l ops cs IHl IHcs
                 |idn|f args kws IH|v a|v i|c e its|b|c es]
    using expr_induction; intros s; try reflexivity.
  - apply IH.
  - cbn [eval_ast]. apply bind_preserves_vars; [exact IHl|].
    intros lv s1. apply bind_preserves_vars; [exact IHr|].
    intros rv s2. destruct (ops_operator host op) as [g|]; [|reflexivity].
    now destruct (g lv rv).
  - cbn [eval_ast]. apply bind_preserves_vars; [exact IH|].
    intros ov s1. destruct (ops_unaryop host op) as [g|]; [|reflexivity].
    now destruct (g ov).
  - cbn [eval_ast]. apply bind_preserves_vars;
      [now apply mapM_preserves_vars | reflexivity].
  - cbn [eval_ast]. apply bind_preserves_vars; [exact IHl|].
    intros lv s1. now apply compare_loop_preserves_vars.
  - cbn [eval_ast]. unfold bind, get.
    destruct (vars s !! idn); [reflexivity|].
    destruct (mem idn global_env_keys); [reflexivity|].
    destruct (mem idn safe_function_names); reflexivity.
  - destruct f; try reflexivity.
    cbn [eval_ast]. apply bind_preserves_vars;
      [now apply mapM_preserves_vars|].
    intros argv s1. unfold bind, get.
    destruct (funcs s1 !! id); [apply call_frame|].
    destruct (mem id safe_function_names); [|reflexivity].
    unfold call_builtin.
    now destruct (host_builtin host id argv (world s1)) as [[ex|v] w].
Qed.

Lemma safe_eval_preserves_vars (expr_text : string) (s : state) :
  vars (safe_eval host call expr_text s).2 = vars s.
Proof.
  unfold safe_eval.
  destruct (is_quoted (Text.strip expr_text)); [reflexivity|].
  destruct (ast_parse host (Text.strip expr_text)) as [node|].
  - apply eval_ast_preserves_vars.
  - unfold bind, get.
    now destruct (vars s !! Text.strip expr_text).
Qed.

End EvalFrame.

(** The scoping example of the specification: the caller sets [x] to 1
    and calls [f], which sets [x] to 99 and returns it; afterwards the
    caller's [x] is still 1 and the result is bound to [y]. *)
Example caller_variable_survives_call :
  run_file sample_host 10 "scope.stryke" (initial_state [])
  = (Ok VNone,
     set_funcs {[ "f" := ([], [line_of "stryset x (99)"; line_of "return x"]) ]}
       (set_vars {[ "x" := VInt 1; "y" := VInt 99 ]} (initial_state []))).
Proof. vm_compute. reflexivity. Qed.

(** Each way out of a call occurs: a [return] from the body, falling off
    its end, and an exception raised inside it. *)
Example call_returns_and_restores :
  let s := set_vars {[ "x" := VInt 1 ]}
             (set_funcs {[ "f" := ([], ["stryset x (99)"; "return x"]) ]}
                (initial_state [])) in
  call_user_func sample_host 5 "f" [] s = (Ok (VInt 99), s).
Proof. vm_compute. reflexivity. Qed.

Example call_completes_and_restores :
  let s := set_vars {[ "x" := VInt 1 ]}
             (set_funcs {[ "f" := ([], ["stryset x (99)"]) ]}
                (initial_state [])) in
  call_user_func sample_host 5 "f" [] s = (Ok VNone, s).
Proof. vm_compute. reflexivity. Qed.

Example call_fails_and_restores :
  let s := set_vars {[ "x" := VInt 1 ]}
             (set_funcs {[ "f" := ([], ["stryset x (99)"; "stryset x (1 / 0)"]) ]}
                (initial_state [])) in
  call_user_func sample_host 5 "f" [] s = (Raise ZeroDivisionError, s).
Proof. vm_compute. reflexivity. Qed.

(** ** Expression evaluator: the fallback on a parse failure *)

(** C8: when the text is no quoted literal and the parser rejects it,
    [safe_eval] raises nothing: it returns the value of the local variable
    whose name is the stripped text if there is one, and the stripped text
    itself as a string otherwise; the state is untouched. *)
Theorem safe_eval_parse_failure_fallback (host : Host)
    (call : string -> list value -> M value) (expr_text : string) (s : state) :
  is_quoted (Text.strip expr_text) = false ->
  ast_parse host (Text.strip expr_text) = None ->
  safe_eval host call expr_text s
  = (Ok (match vars s !! Text.strip expr_text with
         | Some v => v
         | None => VStr (Text.strip expr_text)
         end), s).
Proof.
  intros Hq Hp. unfold safe_eval. rewrite Hq, Hp. unfold bind, get.
  destruct (vars s !! Text.strip expr_text); reflexivity.
Qed.

Lemma safe_eval_parse_failure_fallback_witness :
  safe_eval sample_host (call_user_func sample_host 3) "hello world"
    (initial_state [])
  = (Ok (VStr "hello world"), initial_state []).
Proof.
  apply (safe_eval_parse_failure_fallback sample_host _ "hello world").
  - vm_compute. reflexivity.
  - vm_compute. reflexivity.
Defined.

Example safe_eval_fallback_reads_variable :
  let s := set_vars {[ "2x" := VInt 7 ]} (initial_state []) in
  safe_eval sample_host (call_user_func sample_host 3) " 2x " s = (Ok (VInt 7), s).
Proof. vm_compute. reflexivity. Qed.

(** ** Expression evaluator: comparison chains *)

Section CompareChain.
Variable host : Host.
Variable call : string -> list value -> M value.

Let eval := eval_ast host call.

(** One round of the comparison loop. *)
Lemma compare_loop_step (op : cmpop) (ops : list cmpop) (comp : expr)
    (comparators : list expr) (left right r : value)
    (f : value -> value -> exn + value) (s s' : state) :
  eval comp s = (Ok right, s') ->
  ops_cmpop host op = Some f ->
  f left right = inr r ->
  compare_loop host eval (op :: ops) (comp :: comparators) left s
  = if truthy host r then compare_loop host eval ops comparators right s'
    else (Ok (VBool false), s').
Proof.
  intros He Hop Hf. simpl. unfold bind at 1. rewrite He, Hop.
  unfold bind at 1. rewrite Hf. simpl.
  destruct (truthy host r); reflexivity.
Qed.

(** The [ast.Compare] case on a chain of two pairs: [False] as soon as
    the first pair fails, with [c] left unevaluated; otherwise the
    conjunction of the two pairs. *)
Lemma compare_node_is_conjunction (a b c : expr) (op1 op2 : cmpop)
    (f1 : value -> value -> exn + value)
    (va vb r1 : value) (s s1 s2 : state) :
  eval a s = (Ok va, s1) ->
  eval b s1 = (Ok vb, s2) ->
  ops_cmpop host op1 = Some f1 ->
  f1 va vb = inr r1 ->
  (truthy host r1 = false ->
   eval (Compare a [op1; op2] [b; c]) s = (Ok (VBool false), s2))
  /\ (forall (f2 : value -> value -> exn + value) (vc r2 : value) (s3 : state),
        eval c s2 = (Ok vc, s3) ->
        ops_cmpop host op2 = Some f2 ->
        f2 vb vc = inr r2 ->
        eval (Compare a [op1; op2] [b; c]) s
        = (Ok (VBool (truthy host r1 && truthy host r2)),
           if truthy host r1 then s3 else s2)).
Proof.
  intros Ha Hb Hop1 Hf1.
  assert (Hhead : eval (Compare a [op1; op2] [b; c]) s
                  = compare_loop host eval [op1; op2] [b; c] va s1).
  { unfold eval. cbn [eval_ast]. unfold bind at 1.
    fold eval. now rewrite Ha. }
  rewrite Hhead, (compare_loop_step _ _ _ _ _ _ _ _ _ _ Hb Hop1 Hf1).
  split.
  - intros Hr1. now rewrite Hr1.
  - intros f2 vc r2 s3 Hc Hop2 Hf2.
    destruct (truthy host r1); [|reflexivity].
    rewrite (compare_loop_step _ _ _ _ _ _ _ _ _ _ Hc Hop2 Hf2).
    simpl. destruct (truthy host r2); reflexivity.
Qed.

(** C7, as the code has it: for a text that is not taken for a quoted
    literal and that parses as the chain [a OP1 b OP2 c], whose operands
    [a] and [b] evaluate and whose first comparison yields [r1], the
    evaluator answers [False] as soon as [r1] is false, with [c] left
    unevaluated; and when [c] evaluates too and the second comparison
    yields [r2], the answer is [True] exactly when both [r1] and [r2] are
    true.  The operands are evaluated from left to right, each once. *)
Theorem compare_chain_is_conjunction (expr_text : string) (a b c : expr)
    (op1 op2 : cmpop) (f1 : value -> value -> exn + value)
    (va vb r1 : value) (s s1 s2 : state) :
  is_quoted (Text.strip expr_text) = false ->
  ast_parse host (Text.strip expr_text)
  = Some (Expression (Compare a [op1; op2] [b; c])) ->
  eval a s = (Ok va, s1) ->
  eval b s1 = (Ok vb, s2) ->
  ops_cmpop host op1 = Some f1 ->
  f1 va vb = inr r1 ->
  (truthy host r1 = false ->
   safe_eval host call expr_text s = (Ok (VBool false), s2))
  /\ (forall (f2 : value -> value -> exn + value) (vc r2 : value) (s3 : state),
        eval c s2 = (Ok vc, s3) ->
        ops_cmpop host op2 = Some f2 ->
        f2 vb vc = inr r2 ->
        safe_eval host call expr_text s
        = (Ok (VBool (truthy host r1 && truthy host r2)),
           if truthy host r1 then s3 else s2)).
Proof.
  intros Hq Hp Ha Hb Hop1 Hf1.
  assert (Hroot : safe_eval host call expr_text s
                  = eval (Compare a [op1; op2] [b; c]) s).
  { unfold safe_eval. rewrite Hq, Hp. reflexivity. }
  rewrite Hroot.
  exact (compare_node_is_conjunction a b c op1 op2 f1 va vb r1 s s1 s2
           Ha Hb Hop1 Hf1).
Qed.

End CompareChain.

Lemma compare_chain_is_conjunction_witness :
  safe_eval sample_host (call_user_func sample_host 0) "1 < 2 < 3"
    (initial_state [])
  = (Ok (VBool true), initial_state []).
Proof.
  refine (proj2 (compare_chain_is_conjunction sample_host _ "1 < 2 < 3"
                   (Constant (VInt 1)) (Constant (VInt 2)) (Constant (VInt 3))
                   Lt Lt (py_compare sample_host Lt)
                   (VInt 1) (VInt 2) (VBool true) _ _ _ _ _ _ _ _ _)
                (py_compare sample_host Lt) (VInt 3) (VBool true)
                (initial_state []) _ _ _); reflexivity.
Defined.

(** C7 as stated fails: the chain ['c' < 'b' < 'a'] begins and ends with
    a quote, so the evaluator takes the whole text for a quoted literal
    and returns what stands between the outer quotes, a non-empty string
    and so a true value, although the first pair ['c' < 'b'] does not
    hold and the comparison itself evaluates to [False]. *)
Lemma quoted_chain_is_returned_as_text :
  let chain := Compare (Constant (VStr "c")) [Lt; Lt]
                 [Constant (VStr "b"); Constant (VStr "a")] in
  ast_parse sample_host (Text.strip "'c' < 'b' < 'a'")
  = Some (Expression chain)
  /\ eval_ast sample_host (call_user_func sample_host 0) chain
       (initial_state [])
     = (Ok (VBool false), initial_state [])
  /\ safe_eval sample_host (call_user_func sample_host 0) "'c' < 'b' < 'a'"
       (initial_state [])
     = (Ok (VStr "c' < 'b' < 'a"), initial_state [])
  /\ truthy sample_host (VStr "c' < 'b' < 'a") = true.
Proof. repeat split; vm_compute; reflexivity. Qed.

(** The two chains of the specification text. *)
Example chain_1_lt_2_lt_3 :
  safe_eval sample_host (call_user_func sample_host 0) "1 < 2 < 3"
    (initial_state [])
  = (Ok (VBool true), initial_state []).
Proof. vm_compute. reflexivity. Qed.

Example chain_3_lt_2_lt_1 :
  safe_eval sample_host (call_user_func sample_host 0) "3 < 2 < 1"
    (initial_state [])
  = (Ok (VBool false), initial_state []).
Proof. vm_compute. reflexivity. Qed.

(** ** Expression evaluator: constructs outside the grammar *)


Section Unsupported.
Variable host : Host.
Variable call : string -> list value -> M value.

Lemma mapM_fails (es : list expr) :
  Forall (fun e => exposed e = true ->
                   forall s, is_ok (eval_ast host call e s).1 = false) es ->
  existsb exposed es = true ->
  forall s, is_ok (mapM (eval_ast host call) es s).1 = false.
Proof.
  induction 1 as [|e es He _ IH]; intros Hex s; [discriminate|].
  simpl in Hex. cbn [mapM].
  destruct (exposed e) eqn:Hexp.
  - apply bind_fails_left. now apply He.
  - apply bind_fails_right. intros v s'.
    apply bind_fails_left. now apply IH.
Qed.

(** Evaluation of a tree with an exposed unsupported node does not
    produce a value. *)
Lemma exposed_never_evaluates (e : expr) :
  exposed e = true -> forall s, is_ok (eval_ast host call e s).1 = false.
Proof.
  induction e as [b IH|v|l op r IHl IHr|op x IH|op vs IH|l ops cs IHl IHcs
                 |idn|f args kws IH|v a|v i|c e its|b|c es]
    using expr_induction; intros Hexp s; try discriminate; try reflexivity.
  - now apply IH.
  - cbn [eval_ast]. simpl in Hexp. destruct (exposed l) eqn:Hl.
    + apply bind_fails_left. now apply IHl.
    + apply bind_fails_right. intros lv s'.
      apply bind_fails_left. now apply IHr.
  - cbn [eval_ast]. apply bind_fails_left. now apply IH.
  - cbn [eval_ast]. apply bind_fails_left. now apply mapM_fails.
  - cbn [eval_ast]. simpl in Hexp. destruct (exposed l) eqn:Hl.
    + apply bind_fails_left. now apply IHl.
    + apply bind_fails_right. intros lv s'.
      destruct ops as [|op ops]; [discriminate|].
      destruct cs as [|comp cs]; [discriminate|].
      cbn [compare_loop]. apply bind_fails_left.
      inversion IHcs; subst. auto.
  - simpl in Hexp. destruct f; try reflexivity.
    cbn [eval_ast]. apply bind_fails_left. now apply mapM_fails.
Qed.

(** An unsupported node raises [ValueError] on the spot, with the state
    as it was; no part of the node is evaluated. *)
Lemma unsupported_node_raises (e : expr) (s : state) :
  unsupported_node e = true ->
  eval_ast host call e s = (Raise (unsupported_error e), s).
Proof.
  destruct e; try discriminate; try reflexivity.
  destruct e; try discriminate; reflexivity.
Qed.

(** A construct that evaluation comes to is outside the grammar, and
    [eval_ast] raises the [ValueError] for it, in the state of that
    moment: nothing on the way catches the exception. *)
Lemma reached_in_list_raises (es : list expr) :
  Forall (fun e => forall s n s',
              reached_unsupported host call e s = Some (n, s') ->
              unsupported_node n = true
              /\ eval_ast host call e s = (Raise (unsupported_error n), s')) es ->
  forall s n s',
    reached_in_list host call (reached_unsupported host call) es s
    = Some (n, s') ->
    unsupported_node n = true
    /\ mapM (eval_ast host call) es s = (Raise (unsupported_error n), s').
Proof.
  induction 1 as [|e es He _ IH]; intros s n s' Hr; [discriminate|].
  cbn [reached_in_list] in Hr. cbn [mapM].
  destruct (reached_unsupported host call e s) as [found|] eqn:Hre.
  - injection Hr as ->. destruct (He _ _ _ Hre) as [Hn Hev].
    split; [exact Hn|]. unfold bind at 1. now rewrite Hev.
  - destruct (eval_ast host call e s) as [[v|x|] s1] eqn:Hev;
      try discriminate.
    destruct (IH _ _ _ Hr) as [Hn Hrest].
    split; [exact Hn|]. unfold bind at 1. rewrite Hev.
    unfold bind at 1. now rewrite Hrest.
Qed.

Lemma reached_in_chain_raises (comparators : list expr) :
  Forall (fun e => forall s n s',
              reached_unsupported host call e s = Some (n, s') ->
              unsupported_node n = true
              /\ eval_ast host call e s = (Raise (unsupported_error n), s'))
         comparators ->
  forall ops lv s n s',
    reached_in_chain host call (reached_unsupported host call)
      ops comparators lv s = Some (n, s') ->
    unsupported_node n = true
    /\ compare_loop host (eval_ast host call) ops comparators lv s
       = (Raise (unsupported_error n), s').
Proof.
  induction 1 as [|comp comparators He _ IH]; intros ops lv s n s' Hr;
    [discriminate|].
  destruct ops as [|op ops]; [discriminate|].
  cbn [reached_in_chain] in Hr. cbn [compare_loop].
  destruct (reached_unsupported host call comp s) as [found|] eqn:Hre.
  - injection Hr as ->. destruct (He _ _ _ Hre) as [Hn Hev].
    split; [exact Hn|]. unfold bind at 1. now rewrite Hev.
  - destruct (eval_ast host call comp s) as [[rv|x|] s1] eqn:Hev;
      try discriminate.
    destruct (ops_cmpop host op) as [f|]; [|discriminate].
    destruct (f lv rv) as [x|r] eqn:Hf; [discriminate|].
    destruct (truthy host r) eqn:Ht; [|discriminate].
    destruct (IH _ _ _ _ _ Hr) as [Hn Hrest].
    split; [exact Hn|]. unfold bind at 1. rewrite Hev.
    unfold bind at 1. rewrite Hf. cbn [lift_result ret]. rewrite Ht.
    exact Hrest.
Qed.

Lemma reached_unsupported_raises (e : expr) :
  forall s n s',
    reached_unsupported host call e s = Some (n, s') ->
    unsupported_node n = true
    /\ eval_ast host call e s = (Raise (unsupported_error n), s').
Proof.
  induction e as [b IH|v|l op r IHl IHr|op x IH|op vs IH|l ops cs IHl IHcs
                 |idn|f args kws IH|v a|v i|c e its|b|c es]
    using expr_induction; intros s n s' Hr;
    cbn [reached_unsupported] in Hr; try discriminate;
    try (injection Hr as <- <-; split; reflexivity).
  - now apply IH.
  - cbn [eval_ast].
    destruct (reached_unsupported host call l s) as [found|] eqn:Hrl.
    + injection Hr as ->. destruct (IHl _ _ _ Hrl) as [Hn Hev].
      split; [exact Hn|]. unfold bind at 1. now rewrite Hev.
    + destruct (eval_ast host call l s) as [[lv|x|] s1] eqn:Hev;
        try discriminate.
      destruct (IHr _ _ _ Hr) as [Hn Hevr].
      split; [exact Hn|]. unfold bind at 1. rewrite Hev.
      unfold bind at 1. now rewrite Hevr.
  - cbn [eval_ast]. destruct (IH _ _ _ Hr) as [Hn Hev].
    split; [exact Hn|]. unfold bind at 1. now rewrite Hev.
  - cbn [eval_ast]. destruct (reached_in_list_raises vs IH _ _ _ Hr)
      as [Hn Hev].
    split; [exact Hn|]. unfold bind at 1. now rewrite Hev.
  - cbn [eval_ast].
    destruct (reached_unsupported host call l s) as [found|] eqn:Hrl.
    + injection Hr as ->. destruct (IHl _ _ _ Hrl) as [Hn Hev].
      split; [exact Hn|]. unfold bind at 1. now rewrite Hev.
    + destruct (eval_ast host call l s) as [[lv|x|] s1] eqn:Hev;
        try discriminate.
      destruct (reached_in_chain_raises cs IHcs _ _ _ _ _ Hr) as [Hn Hevc].
      split; [exact Hn|]. unfold bind at 1. now rewrite Hev.
  - destruct f;
      try (injection Hr as <- <-; split; reflexivity).
    cbn [eval_ast]. destruct (reached_in_list_raises args IH _ _ _ Hr)
      as [Hn Hev].
    split; [exact Hn|]. unfold bind at 1. now rewrite Hev.
Qed.

(** C4, as the code has it, for a text that is not taken for a quoted
    literal and that parses.  When the evaluation comes to a construct
    outside the grammar (going through the operands of unary, binary and
    boolean operators, the positional arguments of calls, the left
    operand of a comparison and its comparators as long as every pair so
    far holds, each part passed only when it produced a value),
    [safe_eval] raises the [ValueError] for that construct, in the state
    of that moment: the construct is not executed.  When such a construct
    stands at the root, at an operand of an operator, at a positional
    argument, at the left operand or the first comparator of a
    comparison, [safe_eval] produces no value, whatever the other parts
    evaluate to.  When it is the root of the tree, the [ValueError] is
    raised at once, the state untouched. *)
Theorem unsupported_construct_is_rejected (expr_text : string) (e : expr)
    (s : state) :
  is_quoted (Text.strip expr_text) = false ->
  ast_parse host (Text.strip expr_text) = Some e ->
  (forall n s',
      reached_unsupported host call e s = Some (n, s') ->
      unsupported_node n = true
      /\ safe_eval host call expr_text s = (Raise (unsupported_error n), s'))
  /\ (exposed e = true -> is_ok (safe_eval host call expr_text s).1 = false)
  /\ (unsupported_node (root_node e) = true ->
      safe_eval host call expr_text s
      = (Raise (unsupported_error (root_node e)), s)).
Proof.
  intros Hq Hp. unfold safe_eval. rewrite Hq, Hp. split; [|split].
  - intros n s' Hr. now apply reached_unsupported_raises.
  - intros Hexp. now apply exposed_never_evaluates.
  - intros Hroot. destruct e; try (now apply unsupported_node_raises).
    cbn [eval_ast root_node] in *. now apply unsupported_node_raises.
Qed.

End Unsupported.

Lemma unsupported_construct_is_rejected_witness :
  safe_eval sample_host (call_user_func sample_host 0) "1 < 2 < x.y"
    (initial_state [])
  = (Raise (ValueError "Unsupported expression type: <class 'ast.Attribute'>"),
     initial_state [])
  /\ is_ok (safe_eval sample_host (call_user_func sample_host 0) "x.y"
              (initial_state [])).1 = false.
Proof.
  split.
  - destruct (unsupported_construct_is_rejected sample_host
                (call_user_func sample_host 0) "1 < 2 < x.y"
                (Expression (Compare (Constant (VInt 1)) [Lt; Lt]
                               [Constant (VInt 2); Attribute (Name "x") "y"]))
                (initial_state []) eq_refl eq_refl) as [Hreach _].
    exact (proj2 (Hreach (Attribute (Name "x") "y") (initial_state [])
                    eq_refl)).
  - destruct (unsupported_construct_is_rejected sample_host
                (call_user_func sample_host 0) "x.y"
                (Expression (Attribute (Name "x") "y")) (initial_state [])
                eq_refl eq_refl) as (_ & Hexp & _).
    exact (Hexp eq_refl).
Defined.

Example attribute_access_raises_value_error :
  safe_eval sample_host (call_user_func sample_host 0) "x.y" (initial_state [])
  = (Raise (ValueError "Unsupported expression type: <class 'ast.Attribute'>"),
     initial_state []).
Proof. vm_compute. reflexivity. Qed.

(** C4 as stated fails, in four ways.  The parse tree of [1 > 2 > x.y]
    contains an attribute access, and the evaluator answers [False]
    without an error, because the comparator behind the failing pair
    [1 > 2] is never evaluated.  The parse tree of [f(k=x.y)] contains one
    in a keyword argument, which the evaluator never looks at: the call
    of the user function [f] goes through.  The text [import os] is no
    expression, the parser refuses it, and the evaluator returns the text
    itself as a string.  And ['a'.b + 'c'] begins and ends with a quote,
    so it is returned as a string without being parsed. *)
Lemma unsupported_constructs_that_are_accepted :
  let call := call_user_func sample_host 3 in
  let defined :=
    set_funcs {[ "f" := ([], [line_of "return 5"]) ]} (initial_state []) in
  (exists e,
      ast_parse sample_host (Text.strip "1 > 2 > x.y") = Some e
      /\ contains_unsupported e = true
      /\ safe_eval sample_host call "1 > 2 > x.y" (initial_state [])
         = (Ok (VBool false), initial_state []))
  /\ (exists e,
        ast_parse sample_host (Text.strip "f(k=x.y)") = Some e
        /\ contains_unsupported e = true
        /\ safe_eval sample_host call "f(k=x.y)" defined
           = (Ok (VInt 5), defined))
  /\ (ast_parse sample_host (Text.strip "import os") = None
      /\ safe_eval sample_host call "import os" (initial_state [])
         = (Ok (VStr "import os"), initial_state []))
  /\ (exists e,
        ast_parse sample_host (Text.strip "'a'.b + 'c'") = Some e
        /\ contains_unsupported e = true
        /\ safe_eval sample_host call "'a'.b + 'c'" (initial_state [])
           = (Ok (VStr "a'.b + 'c"), initial_state [])).
Proof.
  cbv zeta. split; [|split; [|split]].
  - eexists. split; [vm_compute; reflexivity|]. split; vm_compute; reflexivity.
  - eexists. split; [vm_compute; reflexivity|]. split; vm_compute; reflexivity.
  - split; vm_compute; reflexivity.
  - eexists. split; [vm_compute; reflexivity|]. split; vm_compute; reflexivity.
Qed.

(** ** File runs: [return] at the top level *)

(** C5, as the code has it: when a line executed by the loop of
    [run_file] yields a [ReturnSignal], the run ends there and then: the
    value carried by the signal is the result of [run_file], and the final
    state is the state right after that statement, so no later line is
    executed and nothing is reported. *)
Theorem top_level_return_ends_run (host : Host) (fuel : nat) (path : string)
    (lines : list string) (i : nat) (line : string) (v : value)
    (s s' : state) :
  lines !! i = Some line ->
  execute_line host fuel line (Some lines) (Some i) path s = (Ok (SReturn v), s') ->
  run_loop host (S fuel) path lines i s = (Ok v, s').
Proof.
  intros Hl He. cbn [run_loop]. rewrite Hl. unfold bind. now rewrite He.
Qed.

Lemma top_level_return_ends_run_witness :
  run_loop sample_host 3 "top_return.stryke" top_return_program 0
    (initial_state [])
  = (Ok (VInt 5), initial_state []).
Proof.
  apply (top_level_return_ends_run sample_host 2 "top_return.stryke"
           top_return_program 0 (line_of "return 5")).
  - reflexivity.
  - vm_compute. reflexivity.
Defined.

(** C5 as stated fails: the file [top_return.stryke], whose lines are
    [return 5] and [stryprint 1], runs to a successful end with the value
    5 and an empty output: the signal is not discarded and no diagnostic
    appears. *)
Lemma top_level_return_is_silent_success :
  host_readlines sample_host "top_return.stryke"
  = Some [line_of "return 5"; line_of "stryprint 1"]
  /\ run_file sample_host 10 "top_return.stryke" (initial_state [])
     = (Ok (VInt 5), initial_state [])
  /\ stdout (world (run_file sample_host 10 "top_return.stryke"
                      (initial_state [])).2) = [].
Proof. repeat split; vm_compute; reflexivity. Qed.

(** ** The [while] statement *)

(** No pattern of [execute_line] matches a [while] line: the statement
    dispatch returns [None] for it and evaluates nothing. *)
Lemma while_line_matches_no_pattern :
  let t := "while (x > 0):" in
  Regex.re_match Patterns.stryset t = None
  /\ Regex.re_match Patterns.stryprint t = None
  /\ Regex.re_match Patterns.def t = None
  /\ Regex.re_match Patterns.return_ t = None
  /\ Regex.re_match Patterns.if_ t = None.
Proof. repeat split; vm_compute; reflexivity. Qed.

Lemma while_line_is_ignored (host : Host) (rec : interp)
    (lines : option (list string)) (idx : option nat) (s : state) :
  dispatch host rec "while (x > 0):" lines idx s = (Ok SNone, s).
Proof. reflexivity. Qed.

(** C2 (the code departs from the claim): the file [while.stryke] is
    [stryset x (0)], [while (x > 0):], [stryset x (99)], [end].  Its
    condition is false on the first test, so the body should not run and
    [x] should stay 0; the run ends with [x] bound to 99, the body having
    been executed once as plain top-level lines. *)
Theorem while_body_runs_without_condition :
  host_readlines sample_host "while.stryke"
  = Some [line_of "stryset x (0)"; line_of "while (x > 0):";
          line_of "stryset x (99)"; line_of "end"]
  /\ run_file sample_host 10 "while.stryke" (initial_state [])
     = (Ok VNone, set_vars {[ "x" := VInt 99 ]} (initial_state []))
  /\ safe_eval sample_host (call_user_func sample_host 0) "x > 0"
       (set_vars {[ "x" := VInt 0 ]} (initial_state []))
     = (Ok (VBool false), set_vars {[ "x" := VInt 0 ]} (initial_state [])).
Proof. repeat split; vm_compute; reflexivity. Qed.

(** ** Debugger: step-over *)

(** The pause check reads neither the recorded step-over depth nor the
    call depth. *)
Lemma check_debug_pause_ignores_depth (s : state) (d : option Z) (c : Z)
    (source_name : string) (lineno : nat) :
  check_debug_pause (set_step_over_depth d (set_call_depth c s))
    source_name lineno
  = check_debug_pause s source_name lineno.
Proof. reflexivity. Qed.

(** Once single stepping is on, the check asks for a pause before every
    statement, at any call depth. *)
Lemma single_step_always_pauses (s : state) (source_name : string)
    (lineno : nat) :
  single_step s = true -> check_debug_pause s source_name lineno = true.
Proof. intros H. unfold check_debug_pause. now rewrite H. Qed.

(** C6 (the code departs from the claim): the file [step_over.stryke] is
    [def f():], [stryset y (1)], [end], [stryset x (f())], run with a
    breakpoint on its line 4 and the commands [n], [bt], [c].  The pause at
    line 4 takes [n] at call depth 0 and records that depth; the very next
    pause is at line 1 of [<func f>], inside the call, where [bt] reports
    call depth 1.  A step-over would have run the call through. *)
Theorem next_pauses_inside_nested_call :
  let final := (run_file sample_host 20 "step_over.stryke" step_over_state).2 in
  (run_file sample_host 20 "step_over.stryke" step_over_state).1 = Ok VNone
  /\ stdout (world final)
     = [OutPaused "step_over.stryke" 4 "stryset x (f())";
        OutPrompt "(stry-debug) ";
        OutPaused "<func f>" 1 "stryset y (1)";
        OutPrompt "(stry-debug) ";
        OutStack 1 ∅;
        OutPrompt "(stry-debug) "]
  /\ step_over_depth final = Some 0.
Proof. repeat split; vm_compute; reflexivity. Qed.

(** ** The matcher only returns matches *)

Section RegexFacts.
Import Regex.
Variable total : nat.

Lemma star_loop_sound (g : bool) (r : regex) (k : cont)
    (n : nat) (s : list ascii) (caps out : captures) :
  (forall s caps k out,
      rmatch total r s caps k = Some out ->
      exists s' caps', matches total r s caps s' caps' /\ k s' caps' = Some out) ->
  star_loop (rmatch total r) g k n s caps = Some out ->
  exists s' caps',
    matches total (Star g r) s caps s' caps' /\ k s' caps' = Some out.
Proof.
  intros Hr. revert s caps out. induction n as [|n IH]; intros s caps out H.
  - simpl in H. exists s, caps. split; [constructor | exact H].
  - cbn [star_loop] in H.
    assert (Hmore : forall o,
               rmatch total r s caps
                 (fun s' caps' =>
                    if (length s' <? length s)%nat
                    then star_loop (rmatch total r) g k n s' caps'
                    else None) = Some o ->
               exists s' caps',
                 matches total (Star g r) s caps s' caps'
                 /\ k s' caps' = Some o).
    { intros o Ho. apply Hr in Ho as (s1 & caps1 & Hm & Hk).
      destruct (length s1 <? length s)%nat; [|discriminate].
      apply IH in Hk as (s2 & caps2 & Hm2 & Hk2).
      exists s2, caps2. split; [|exact Hk2].
      eapply matches_Star_more; eassumption. }
    assert (Hdone : forall o, k s caps = Some o ->
               exists s' caps',
                 matches total (Star g r) s caps s' caps'
                 /\ k s' caps' = Some o).
    { intros o Ho. exists s, caps. split; [constructor | exact Ho]. }
    destruct g.
    + destruct (rmatch total r s caps _) as [o|] eqn:Hm.
      * injection H as <-. now apply Hmore.
      * now apply Hdone.
    + destruct (k s caps) as [o|] eqn:Hk.
      * injection H as <-. now apply Hdone.
      * now apply Hmore.
Qed.

Lemma rmatch_sound (r : regex) :
  forall s caps k out,
    rmatch total r s caps k = Some out ->
    exists s' caps', matches total r s caps s' caps' /\ k s' caps' = Some out.
Proof.
  induction r as [| |c|p|r1 IH1 r2 IH2|g r IH|r IH]; intros s caps k out H;
    cbn [rmatch] in H.
  - destruct (length s =? total)%nat eqn:He; [|discriminate].
    apply Nat.eqb_eq in He. exists s, caps. split; [now constructor | exact H].
  - destruct s as [|c [|c' s]]; try discriminate.
    + exists [], caps. split; [constructor | exact H].
    + destruct (Text.is_newline c) eqn:Hc; [|discriminate].
      exists [c], caps. split; [now constructor | exact H].
  - destruct s as [|c' s]; [discriminate|].
    destruct (Ascii.eqb c c') eqn:Hc; [|discriminate].
    apply Ascii.eqb_eq in Hc as <-.
    exists s, caps. split; [constructor | exact H].
  - destruct s as [|c' s]; [discriminate|].
    destruct (p c') eqn:Hc; [|discriminate].
    exists s, caps. split; [now constructor | exact H].
  - apply IH1 in H as (s1 & caps1 & Hm1 & H).
    apply IH2 in H as (s2 & caps2 & Hm2 & H).
    exists s2, caps2. split; [|exact H]. econstructor; eassumption.
  - eapply star_loop_sound; eassumption.
  - apply IH in H as (s1 & caps1 & Hm & H).
    eexists s1, _. split; [|exact H]. now constructor.
Qed.

(** A match consumes a prefix of the text and only appends captures. *)
Lemma matches_consumes (r : regex) s caps s' caps' :
  matches total r s caps s' caps' ->
  exists pre added, s = pre ++ s' /\ caps' = caps ++ added.
Proof.
  induction 1 as [s caps _| caps | c caps _ | c s caps | p c s caps _
                 | r1 r2 s caps s1 caps1 s2 caps2 _ IH1 _ IH2
                 | g r s caps
                 | g r s caps s1 caps1 s2 caps2 _ IH1 _ IH2
                 | r s caps s1 caps1 _ IH];
    try (exists [], []; split; [reflexivity | symmetry; apply app_nil_r]);
    try (exists [c], []; split; [reflexivity | symmetry; apply app_nil_r]).
  - destruct IH1 as (p1 & a1 & -> & ->), IH2 as (p2 & a2 & -> & ->).
    exists (p1 ++ p2), (a1 ++ a2). now rewrite <- !app_assoc.
  - destruct IH1 as (p1 & a1 & -> & ->), IH2 as (p2 & a2 & -> & ->).
    exists (p1 ++ p2), (a1 ++ a2). now rewrite <- !app_assoc.
  - destruct IH as (p1 & a1 & -> & ->).
    eexists p1, _. split; [reflexivity|]. now rewrite <- app_assoc.
Qed.

Lemma matches_capture_free (r : regex) s caps s' caps' :
  matches total r s caps s' caps' -> capture_free r = true -> caps' = caps.
Proof.
  induction 1; simpl; intros Hf; try reflexivity; try discriminate.
  - apply andb_true_iff in Hf as [H1 H2].
    rewrite IHmatches2, IHmatches1; auto.
  - rewrite IHmatches2, IHmatches1; auto.
Qed.

(** What a run of one character class consumes. *)
Lemma matches_star_class (g : bool) (p : ascii -> bool) s caps s' caps' :
  matches total (Star g (Class p)) s caps s' caps' ->
  exists pre, s = pre ++ s' /\ Forall (fun c => p c = true) pre.
Proof.
  remember (Star g (Class p)) as r eqn:Hr.
  induction 1 as [| | | | | | g' r' s caps
                 | g' r' s caps s1 caps1 s2 caps2 H1 _ _ IH2 |];
    try discriminate.
  - exists []. split; [reflexivity | constructor].
  - injection Hr as -> ->. destruct (IH2 eq_refl) as (pre & -> & Hall).
    inversion H1; subst. exists (c :: pre). split; [reflexivity|].
    now constructor.
Qed.

Lemma matches_plus_class (p : ascii -> bool) s caps s' caps' :
  matches total (plus (Class p)) s caps s' caps' ->
  exists c pre, s = (c :: pre) ++ s' /\ Forall (fun c => p c = true) (c :: pre).
Proof.
  unfold plus. intros H. inversion H as [| | | | |r1 r2 s0 c0 s1 c1 s2 c2 H1 H2| | |]; subst.
  inversion H1; subst.
  apply matches_star_class in H2 as (pre & -> & Hall).
  exists c, pre. split; [reflexivity | now constructor].
Qed.

End RegexFacts.

(** ** Assignment lines *)

Section StrysetFacts.
Import Regex.

Lemma matches_lit_chars (total : nat) (cs : list ascii) s caps s' caps' :
  matches total (lit_chars cs) s caps s' caps' ->
  s = cs ++ s' /\ caps' = caps.
Proof.
  revert s caps. induction cs as [|c cs IH]; intros s caps H.
  - simpl in H. split.
    + apply matches_star_class in H as (pre & -> & Hall).
      destruct Hall; [reflexivity | discriminate].
    + now apply (matches_capture_free _ _ _ _ _ _ H).
  - destruct cs as [|c' cs].
    + simpl in H. inversion H; subst. now split.
    + change (lit_chars (c :: c' :: cs))
        with (Seq (Lit c) (lit_chars (c' :: cs))) in H.
      inversion H as [| | | | |r1 r2 s0 c0 s1 c1 s2 c2 H1 H2| | |]; subst.
      inversion H1; subst.
      apply IH in H2 as [-> ->]. now split.
Qed.

Lemma word_is_plain (c : ascii) :
  Text.is_word c = true ->
  Text.is_space c = false
  /\ c <> ascii_of_N 34 /\ c <> ascii_of_N 39.
Proof.
  destruct c as [[] [] [] [] [] [] [] []]; vm_compute; intros H;
    repeat split; solve [reflexivity | discriminate].
Qed.

Lemma space_is_not_hash (c : ascii) :
  Text.is_space c = true -> c <> "#"%char.
Proof.
  destruct c as [[] [] [] [] [] [] [] []]; vm_compute; intros H;
    solve [discriminate].
Qed.

Lemma startswith_cons_ne (a c : ascii) (l : list ascii) :
  c <> a -> Text.startswith (String a EmptyString) (Text.text (c :: l)) = false.
Proof.
  intros Hne. unfold Text.startswith, Text.text.
  cbn [string_of_list_ascii String.prefix].
  destruct (ascii_dec a c) as [->|_]; [contradiction | reflexivity].
Qed.

Lemma first_char_not_hash (c : ascii) (l : list ascii) :
  c <> "#"%char ->
  (Text.is_empty (Text.text (c :: l))
   || Text.startswith "#" (Text.text (c :: l))) = false.
Proof.
  intros Hne. rewrite (startswith_cons_ne "#" c l Hne). reflexivity.
Qed.

Ltac split_seq :=
  match goal with
  | H : matches _ (Seq _ _) _ _ _ _ |- _ => inversion H; subst; clear H
  end.

(** A line the assignment pattern accepts is neither blank nor a
    comment, and the name it captures is a non-empty run of word
    characters. *)
Lemma stryset_match_shape (t name : string) (rest : list string) :
  re_match Patterns.stryset t = Some (name :: rest) ->
  (Text.is_empty t || Text.startswith "#" t) = false
  /\ exists c w,
       name = Text.text (c :: w)
       /\ Forall (fun c => Text.is_word c = true) (c :: w).
Proof.
  unfold re_match.
  destruct (rmatch _ _ _ _ _) as [caps|] eqn:Hm; [|discriminate].
  intros Hcaps. injection Hcaps as Hcaps.
  apply rmatch_sound in Hm as (s' & caps' & Hm & Hk). injection Hk as ->.
  cbv [Patterns.stryset seq] in Hm.
  split_seq.
  match goal with H : matches _ Begin _ _ _ _ |- _ => inversion H; subst; clear H end.
  split_seq.
  match goal with H : matches _ (Star _ ws) _ _ _ _ |- _ =>
    pose proof (matches_capture_free _ _ _ _ _ _ H eq_refl) as ->;
    apply matches_star_class in H as (pre & Hpre & Hspaces) end.
  split_seq.
  match goal with H : matches _ (lit _) _ _ _ _ |- _ =>
    apply matches_lit_chars in H as [-> ->] end.
  split_seq.
  match goal with H : matches _ (plus ws) _ _ _ _ |- _ =>
    pose proof (matches_capture_free _ _ _ _ _ _ H eq_refl) as ->; clear H end.
  split_seq.
  match goal with H : matches _ (Group _) _ _ _ _ |- _ =>
    inversion H; subst; clear H end.
  match goal with H : matches _ (plus word) _ _ _ _ |- _ =>
    pose proof (matches_capture_free _ _ _ _ _ _ H eq_refl) as ->;
    apply matches_plus_class in H as (c & w & -> & Hword) end.
  match goal with H : matches _ _ _ _ _ _ |- _ =>
    apply matches_consumes in H as (_ & added & _ & ->) end.
  split.
  - rewrite <- (text_chars t), Hpre.
    destruct Hspaces as [|c0 pre0 Hc0 _].
    + apply first_char_not_hash. discriminate.
    + apply first_char_not_hash. now apply space_is_not_hash.
  - exists c, w. split; [|exact Hword].
    assert (Htake : take (length ((c :: w) ++ s2) - length s2)
                      ((c :: w) ++ s2) = c :: w).
    { replace (length ((c :: w) ++ s2) - length s2)%nat
        with (length (c :: w)) by (rewrite length_app; lia).
      apply take_app_length. }
    rewrite Htake in Hcaps. cbn [app map] in Hcaps.
    now injection Hcaps as <- _.
Qed.
End StrysetFacts.

Lemma rstrip_chars_none (p : ascii -> bool) (l : list ascii) :
  Forall (fun c => p c = false) l -> Text.rstrip_chars p l = l.
Proof.
  induction 1 as [|c l Hc _ IH]; [reflexivity|].
  now rewrite (rstrip_chars_cons p c l Hc), IH.
Qed.

(** A run of word characters is its own stripped form and is no quoted
    literal. *)
Lemma word_text_is_plain (c : ascii) (w : list ascii) :
  Forall (fun c => Text.is_word c = true) (c :: w) ->
  Text.strip (Text.text (c :: w)) = Text.text (c :: w)
  /\ is_quoted (Text.text (c :: w)) = false.
Proof.
  intros Hword.
  assert (Hplain : Forall (fun c => Text.is_space c = false) (c :: w)).
  { eapply Forall_impl; [exact Hword|]. intros a Ha. now apply word_is_plain. }
  destruct (word_is_plain c (Forall_inv Hword)) as (Hsp & Hdq & Hsq).
  split.
  - unfold Text.strip, Text.lstrip_chars. rewrite chars_text.
    cbn [Text.drop_while]. rewrite Hsp. now rewrite rstrip_chars_none.
  - unfold is_quoted, Text.dquote, Text.squote.
    now rewrite !startswith_cons_ne.
Qed.

(** C9, as the code has it: take a line the assignment pattern accepts,
    with name [name] and expression text [e]; let the debugger check
    before the statement complete and [e] evaluate to [v].  Then the line
    binds [v] to [name] and returns [None]; and if the expression parser
    reads [name] as the identifier of that name (or rejects it), evaluating
    the bare name right afterwards yields [v] and changes nothing. *)
Theorem assignment_then_name_round_trip (host : Host) (fuel : nat)
    (call : string -> list value -> M value)
    (line : string) (lines : option (list string)) (idx : option nat)
    (source_name name e : string) (v : value) (s s0 s1 : state) :
  Regex.re_match Patterns.stryset (Text.strip (Text.rstrip_newline line))
  = Some [name; e] ->
  debug_check (interp_at host fuel) source_name (lineno_of idx)
    (Text.rstrip_newline line) s = (Ok tt, s0) ->
  safe_eval host (i_call_user_func (interp_at host fuel)) e s0 = (Ok v, s1) ->
  reads_as_identifier host name ->
  execute_line host fuel line lines idx source_name s
  = (Ok SNone, set_vars (<[name := v]> (vars s1)) s1)
  /\ safe_eval host call name (set_vars (<[name := v]> (vars s1)) s1)
     = (Ok v, set_vars (<[name := v]> (vars s1)) s1).
Proof.
  intros Hmatch Hdbg Heval Hid.
  destruct (stryset_match_shape _ _ _ Hmatch) as [Hnb (c & w & -> & Hword)].
  destruct (word_text_is_plain c w Hword) as [Hstrip Hquoted].
  split.
  - unfold execute_line, execute_line_body. rewrite Hnb.
    unfold bind at 1. rewrite Hdbg.
    unfold dispatch. rewrite Hmatch.
    unfold bind at 1. rewrite Heval. reflexivity.
  - unfold safe_eval. rewrite Hstrip, Hquoted.
    destruct Hid as [-> | ->].
    + cbn [eval_ast]. unfold bind, get. cbn [vars set_vars].
      now rewrite lookup_insert_eq.
    + unfold bind, get. cbn [vars set_vars]. now rewrite lookup_insert_eq.
Qed.

Lemma assignment_then_name_round_trip_witness :
  let s2 := set_vars {[ "x" := VInt 5 ]} (initial_state []) in
  execute_line sample_host 1 (line_of "stryset x (5)") None None "<stdin>"
    (initial_state [])
  = (Ok SNone, s2)
  /\ safe_eval sample_host (call_user_func sample_host 0) "x" s2
     = (Ok (VInt 5), s2).
Proof.
  apply (assignment_then_name_round_trip sample_host 1
           (call_user_func sample_host 0) (line_of "stryset x (5)") None None
           "<stdin>" "x" "5" (VInt 5)
           (initial_state []) (initial_state []) (initial_state [])).
  - vm_compute. reflexivity.
  - vm_compute. reflexivity.
  - vm_compute. reflexivity.
  - left. vm_compute. reflexivity.
Defined.

(** C9 as stated fails: the line [stryset 1 (5)] binds 5 to the name [1],
    and evaluating the bare name [1] right afterwards yields the integer
    literal 1, not the assigned 5. *)
Lemma numeric_name_reads_back_as_literal :
  let s2 := set_vars {[ "1" := VInt 5 ]} (initial_state []) in
  Regex.re_match Patterns.stryset "stryset 1 (5)" = Some ["1"; "5"]
  /\ execute_line sample_host 1 (line_of "stryset 1 (5)") None None "<stdin>"
       (initial_state [])
     = (Ok SNone, s2)
  /\ vars s2 !! "1" = Some (VInt 5)
  /\ safe_eval sample_host (call_user_func sample_host 0) "1" s2
     = (Ok (VInt 1), s2).
Proof. repeat split; vm_compute; reflexivity. Qed.

(** ** The [if] statement as written

    In the [if] case the loop [while i<len(block): res=execute_line(...)]
    has the call as its whole body, so [i] stays 0: on a block with at
    least one line the loop can only be left by an exception. *)
Lemma if_while_never_returns (host : Host) (fuel : nat) (block : list string)
    (line : string) (res : option signal) (s : state) :
  block !! 0%nat = Some line ->
  is_ok (i_if_while (interp_at host fuel) block 0 res s).1 = false.
Proof.
  intros Hl. revert res s. induction fuel as [|fuel IH]; intros res s.
  - reflexivity.
  - cbn [interp_at step i_if_while]. unfold if_while_body. rewrite Hl.
    apply bind_fails_right. intros r s'. apply IH.
Qed.

(** Hence the statements after that loop are reached on an empty block
    only, where [res] is still unassigned. *)
Lemma if_while_returns_unassigned (host : Host) (fuel : nat)
    (block : list string) (r : option signal) (s s' : state) :
  i_if_while (interp_at host fuel) block 0 None s = (Ok r, s') ->
  block = [] /\ r = None /\ s' = s.
Proof.
  intros H. destruct block as [|line block].
  - destruct fuel; [discriminate|]. now injection H as <- <-.
  - pose proof (if_while_never_returns host fuel (line :: block) line None s
                  eq_refl) as Hn.
    rewrite H in Hn. discriminate.
Qed.

(** ** Worked examples of the text helpers and patterns *)

Example strip_example : Text.strip "  end  " = "end".
Proof. reflexivity. Qed.

Example stryset_example :
  Regex.re_match Patterns.stryset "stryset x ( 1 + 2 )" = Some ["x"; "1 + 2 "].
Proof. vm_compute. reflexivity. Qed.

Example def_example :
  Regex.re_match Patterns.def "def add(a, b):" = Some ["add"; "a, b"].
Proof. vm_compute. reflexivity. Qed.

Example if_example :
  Regex.re_match Patterns.if_ "if (x > (1)):" = Some ["x > (1)"].
Proof. vm_compute. reflexivity. Qed.

(** * Invariants of the interpreter *)

(** ** A relation kept by every statement and call

    [R] is a preorder on states that the elementary updates of the
    statement interpreter preserve: binding a variable, registering a
    function, any change of the streams, and the bracket formed by the
    increment and decrement of the call depth around a function body.
    What the debugger does at a pause is left to [prompt_ok] and
    [debug_check_ok]. *)
Section Invariant.
Variable host : Host.
Variable R : state -> state -> Prop.
Hypothesis R_refl : forall s, R s s.
Hypothesis R_trans : forall s1 s2 s3, R s1 s2 -> R s2 s3 -> R s1 s3.
Hypothesis R_vars : forall s m, R s (set_vars m s).
Hypothesis R_funcs :
  forall s k v, R s (set_funcs (<[k := v]> (funcs s)) s).
Hypothesis R_world : forall s w, R s (set_world w s).
Hypothesis R_bracket :
  forall s s2 m,
    R (set_call_depth (call_depth s + 1) s) s2 ->
    R s (set_call_depth (call_depth s2 - 1) (set_vars m s2)).

Lemma respects_ret {A} (a : A) : respects R (ret a).
Proof. intros s. apply R_refl. Qed.

Lemma respects_raise {A} (e : exn) : respects R (@raise A e).
Proof. intros s. apply R_refl. Qed.

Lemma respects_out_of_fuel {A} : respects R (@out_of_fuel A).
Proof. intros s. apply R_refl. Qed.

Lemma respects_get : respects R get.
Proof. intros s. apply R_refl. Qed.

Lemma respects_bind {A B} (m : M A) (f : A -> M B) :
  respects R m -> (forall a, respects R (f a)) -> respects R (bind m f).
Proof.
  intros Hm Hf s. unfold bind. specialize (Hm s).
  destruct (m s) as [[a|e|] s']; simpl in *; [|exact Hm..].
  eapply R_trans; [exact Hm | apply Hf].
Qed.

Lemma respects_modify (f : state -> state) :
  (forall s, R s (f s)) -> respects R (modify f).
Proof. intros Hf s. apply Hf. Qed.

Lemma respects_print (e : out_event) : respects R (print e).
Proof. apply respects_modify. intros s. apply R_world. Qed.

Lemma respects_lift_result {A} (r : exn + A) : respects R (lift_result r).
Proof. destruct r; [apply respects_raise | apply respects_ret]. Qed.

Lemma respects_try_except {A} (body handler : M A) :
  respects R body -> respects R handler -> respects R (try_except body handler).
Proof.
  intros Hb Hh s. unfold try_except. specialize (Hb s).
  destruct (body s) as [[a|e|] s']; simpl in *; try exact Hb.
  eapply R_trans; [exact Hb | apply Hh].
Qed.

Lemma respects_call_builtin (fname : string) (args : list value) :
  respects R (call_builtin host fname args).
Proof.
  intros s. unfold call_builtin.
  destruct (host_builtin host fname args (world s)) as [[e|v] w]; apply R_world.
Qed.

Section Evaluation.
Variable call : string -> list value -> M value.
Hypothesis call_ok : forall name args, respects R (call name args).

Lemma respects_mapM (es : list expr) :
  Forall (fun e => respects R (eval_ast host call e)) es ->
  respects R (mapM (eval_ast host call) es).
Proof.
  induction 1 as [|e es He _ IH]; cbn [mapM]; [apply respects_ret|].
  apply respects_bind; [exact He|]. intros v.
  apply respects_bind; [exact IH|]. intros vs. apply respects_ret.
Qed.

Lemma respects_compare_loop (cs : list expr) :
  Forall (fun e => respects R (eval_ast host call e)) cs ->
  forall ops left,
    respects R (compare_loop host (eval_ast host call) ops cs left).
Proof.
  induction 1 as [|c cs Hc _ IH]; intros ops left; [apply respects_ret|].
  destruct ops as [|op ops]; [apply respects_ret|].
  cbn [compare_loop]. apply respects_bind; [exact Hc|]. intros right.
  destruct (ops_cmpop host op) as [f|]; [|apply respects_raise].
  apply respects_bind; [apply respects_lift_result|]. intros r.
  destruct (negb (truthy host r)); [apply respects_ret | apply IH].
Qed.

Lemma respects_eval_ast (e : expr) : respects R (eval_ast host call e).
Proof.
  induction e as [b IH|v|l op r IHl IHr|op x IH|op vs IH|l ops cs IHl IHcs
                 |idn|f args kws IH|v a|v i|c e its|b|c es]
    using expr_induction; try apply respects_raise.
  - exact IH.
  - apply respects_ret.
  - cbn [eval_ast]. apply respects_bind; [exact IHl|]. intros lv.
    apply respects_bind; [exact IHr|]. intros rv.
    destruct (ops_operator host op); [apply respects_lift_result
                                     | apply respects_raise].
  - cbn [eval_ast]. apply respects_bind; [exact IH|]. intros ov.
    destruct (ops_unaryop host op); [apply respects_lift_result
                                    | apply respects_raise].
  - cbn [eval_ast]. apply respects_bind; [now apply respects_mapM|].
    intros values. apply respects_ret.
  - cbn [eval_ast]. apply respects_bind; [exact IHl|]. intros lv.
    now apply respects_compare_loop.
  - cbn [eval_ast]. apply respects_bind; [apply respects_get|]. intros s.
    destruct (vars s !! idn); [apply respects_ret|].
    destruct (mem idn global_env_keys); [apply respects_ret|].
    destruct (mem idn safe_function_names);
      [apply respects_ret | apply respects_raise].
  - destruct f; try apply respects_raise.
    cbn [eval_ast]. apply respects_bind; [now apply respects_mapM|].
    intros argv. apply respects_bind; [apply respects_get|]. intros s.
    destruct (funcs s !! id); [apply call_ok|].
    destruct (mem id safe_function_names);
      [apply respects_call_builtin | apply respects_raise].
Qed.

Lemma respects_safe_eval (expr_text : string) :
  respects R (safe_eval host call expr_text).
Proof.
  unfold safe_eval.
  destruct (is_quoted (Text.strip expr_text)); [apply respects_ret|].
  destruct (ast_parse host (Text.strip expr_text)) as [node|].
  - apply respects_eval_ast.
  - apply respects_bind; [apply respects_get|]. intros s.
    destruct (vars s !! Text.strip expr_text); apply respects_ret.
Qed.

End Evaluation.

Ltac respects_step :=
  first
    [ apply respects_ret
    | apply respects_raise
    | apply respects_out_of_fuel
    | apply respects_get
    | apply respects_print
    | apply respects_lift_result
    | apply respects_call_builtin
    | apply respects_bind; [|intros ?]
    | match goal with
      | |- respects _ (match ?x with _ => _ end) => destruct x
      | |- respects _ (let '(_, _) := ?x in _) => destruct x
      end ].

(** *** Relations the debugger commands preserve as well *)
Section Prompt.
Hypothesis R_bp_add :
  forall s b, R s (set_breakpoints ({[ b ]} ∪ breakpoints s) s).
Hypothesis R_bp_del :
  forall s n, R s (set_breakpoints (breakpoints s ∖ {[ inl n ]}) s).
Hypothesis R_single_step : forall s, R s (set_single_step true s).
Hypothesis R_step_over : forall s d, R s (set_step_over_depth d s).
Hypothesis R_watch : forall s w, R s (set_watch_expressions w s).

Variable rec : interp.
Hypothesis rec_core : core_respects R rec.
Hypothesis rec_prompt : prompt_respects R rec.

Lemma respects_watch_loop_body (i : nat) :
  respects R (watch_loop_body host rec i).
Proof.
  destruct rec_core as (Hexec & Hcall & Hloop & Hwhile).
  destruct rec_prompt as (Hwatch & Hcmd).
  unfold watch_loop_body.
  repeat first
    [ apply Hwatch
    | apply respects_try_except
    | apply respects_safe_eval; exact Hcall
    | respects_step ].
Qed.

Lemma respects_command_loop_body : respects R (command_loop_body host rec).
Proof.
  destruct rec_prompt as (Hwatch & Hcmd).
  unfold command_loop_body, add_breakpoint.
  repeat first
    [ apply Hcmd
    | apply respects_modify; intros ?;
      first [apply R_world | apply R_bp_add | apply R_bp_del | apply R_watch]
    | respects_step ].
Qed.

Lemma respects_debug_prompt (source_name : string) (lineno : nat)
    (line_text : string) :
  respects R (debug_prompt rec source_name lineno line_text).
Proof.
  destruct rec_prompt as (Hwatch & Hcmd).
  unfold debug_prompt.
  repeat first [ apply Hcmd | apply Hwatch | respects_step ].
Qed.

Lemma respects_debug_check (source_name : string) (lineno : nat)
    (raw : string) :
  respects R (debug_check rec source_name lineno raw).
Proof.
  unfold debug_check.
  repeat first
    [ apply respects_debug_prompt
    | apply respects_modify; intros ?;
      first [ apply R_single_step
            | eapply R_trans; [apply R_step_over | apply R_single_step] ]
    | respects_step ].
Qed.

Lemma prompt_respects_step : prompt_respects R (step host rec).
Proof.
  split; intros; cbn [step i_watch_loop i_command_loop].
  - apply respects_watch_loop_body.
  - apply respects_command_loop_body.
Qed.

End Prompt.

Lemma prompt_respects_bottom : prompt_respects R bottom.
Proof. split; intros; apply respects_out_of_fuel. Qed.

Variable prompt_ok : interp -> Prop.
Hypothesis prompt_ok_bottom : prompt_ok bottom.
Hypothesis prompt_ok_step :
  forall rec, core_respects R rec -> prompt_ok rec -> prompt_ok (step host rec).
Hypothesis debug_check_ok :
  forall rec, core_respects R rec -> prompt_ok rec ->
    forall source_name lineno raw,
      respects R (debug_check rec source_name lineno raw).

Section Step.
Variable rec : interp.
Hypothesis rec_core : core_respects R rec.
Hypothesis rec_prompt : prompt_ok rec.

Lemma respects_block_after (lines : option (list string)) (idx : option nat) :
  respects R (block_after lines idx).
Proof. unfold block_after. repeat respects_step. Qed.

Lemma respects_rec_eval (expr_text : string) :
  respects R (safe_eval host (i_call_user_func rec) expr_text).
Proof. apply respects_safe_eval. apply rec_core. Qed.

Lemma respects_dispatch (stripped : string) (lines : option (list string))
    (idx : option nat) :
  respects R (dispatch host rec stripped lines idx).
Proof.
  destruct rec_core as (Hexec & Hcall & Hloop & Hwhile).
  unfold dispatch.
  repeat first
    [ apply respects_rec_eval
    | apply respects_block_after
    | apply Hwhile
    | apply respects_modify; intros ?; first [apply R_vars | apply R_funcs]
    | respects_step ].
Qed.

Lemma respects_execute_line_body (line : string) (lines : option (list string))
    (idx : option nat) (source_name : string) :
  respects R (execute_line_body host rec line lines idx source_name).
Proof.
  unfold execute_line_body.
  destruct (_ || _); [apply respects_ret|].
  apply respects_bind; [now apply debug_check_ok|].
  intros _. apply respects_dispatch.
Qed.

Lemma respects_func_loop_body (name : string) (body : list string) (i : nat) :
  respects R (func_loop_body rec name body i).
Proof.
  destruct rec_core as (Hexec & Hcall & Hloop & Hwhile).
  unfold func_loop_body.
  repeat first [ apply Hexec | apply Hloop | respects_step ].
Qed.

Lemma respects_if_while_body (block : list string) (i : nat)
    (res : option signal) :
  respects R (if_while_body rec block i res).
Proof.
  destruct rec_core as (Hexec & Hcall & Hloop & Hwhile).
  unfold if_while_body.
  repeat first [ apply Hexec | apply Hwhile | respects_step ].
Qed.

Lemma respects_call_user_func_body (name : string) (arg_values : list value) :
  respects R (call_user_func_body rec name arg_values).
Proof.
  destruct rec_core as (Hexec & Hcall & Hloop & Hwhile).
  intros s. unfold call_user_func_body, bind at 1, get.
  destruct (funcs s !! name) as [[params body]|]; [|apply R_refl].
  destruct (negb (length arg_values =? length params)%nat); [apply R_refl|].
  unfold bind at 1, modify at 1, try_finally.
  match goal with
  | |- context [ bind ?m ?f ?st ] =>
      assert (Hin : R st (bind m f st).2);
      [ apply (respects_bind m f);
        [ apply respects_modify; intros ?; apply R_vars
        | intros _; apply Hloop ]
      | destruct (bind m f st) as [r s2] ]
  end.
  simpl in *. now apply R_bracket.
Qed.

Lemma core_respects_step : core_respects R (step host rec).
Proof.
  repeat split; intros; cbn [step i_execute_line i_call_user_func i_func_loop
                               i_if_while].
  - apply respects_execute_line_body.
  - apply respects_call_user_func_body.
  - apply respects_func_loop_body.
  - apply respects_if_while_body.
Qed.

End Step.

Lemma core_respects_bottom : core_respects R bottom.
Proof. repeat split; intros; apply respects_out_of_fuel. Qed.

Lemma interp_at_respects (fuel : nat) :
  core_respects R (interp_at host fuel) /\ prompt_ok (interp_at host fuel).
Proof.
  induction fuel as [|fuel [IHc IHp]]; cbn [interp_at].
  - split; [apply core_respects_bottom | apply prompt_ok_bottom].
  - split; [now apply core_respects_step | now apply prompt_ok_step].
Qed.

Lemma respects_execute_line (fuel : nat) (line : string)
    (lines : option (list string)) (idx : option nat) (source_name : string) :
  respects R (execute_line host fuel line lines idx source_name).
Proof.
  destruct (interp_at_respects fuel) as [Hc Hp].
  now apply respects_execute_line_body.
Qed.

Lemma respects_call_user_func (fuel : nat) (name : string)
    (arg_values : list value) :
  respects R (call_user_func host fuel name arg_values).
Proof.
  destruct (interp_at_respects fuel) as [Hc Hp].
  now apply respects_call_user_func_body.
Qed.

Lemma respects_run_loop (fuel : nat) (path : string) (lines : list string)
    (i : nat) :
  respects R (run_loop host fuel path lines i).
Proof.
  revert i. induction fuel as [|fuel IH]; intros i; cbn [run_loop].
  - apply respects_out_of_fuel.
  - repeat first [ apply respects_execute_line | apply IH | respects_step ].
Qed.

Lemma respects_run_file (fuel : nat) (path : string) :
  respects R (run_file host fuel path).
Proof.
  unfold run_file.
  repeat first [ apply respects_run_loop | respects_step ].
Qed.

End Invariant.

(** A relation kept by statements and by the debugger is kept by every
    function of the interpreter, at any fuel and whatever the outcome. *)
Lemma invariant_kept_at (host : Host) (R : state -> state -> Prop) :
  statement_invariant R -> debugger_invariant R ->
  forall fuel,
    core_respects R (interp_at host fuel)
    /\ prompt_respects R (interp_at host fuel).
Proof.
  intros [Hrefl Htrans Hvars Hfuncs Hworld Hbracket]
         [Hadd Hdel Hss Hso Hwatch] fuel.
  apply (interp_at_respects host R Hrefl Htrans Hvars Hfuncs Hworld Hbracket
           (prompt_respects R)).
  - now apply prompt_respects_bottom.
  - intros rec Hc Hp. now apply prompt_respects_step.
  - intros rec Hc Hp src n raw. now apply respects_debug_check.
Qed.

Lemma invariant_kept (host : Host) (R : state -> state -> Prop) :
  statement_invariant R -> debugger_invariant R ->
  forall fuel,
    (forall line lines idx source_name,
        respects R (execute_line host fuel line lines idx source_name))
    /\ (forall name arg_values,
           respects R (call_user_func host fuel name arg_values))
    /\ (forall path, respects R (run_file host fuel path)).
Proof.
  intros Hs Hd fuel.
  assert (Hat := invariant_kept_at host R Hs Hd).
  destruct Hs as [Hrefl Htrans Hvars Hfuncs Hworld Hbracket].
  destruct Hd as [Hadd Hdel Hss Hso Hwatch].
  assert (Hbot : prompt_respects R bottom)
    by now apply prompt_respects_bottom.
  assert (Hstep : forall rec, core_respects R rec -> prompt_respects R rec ->
                              prompt_respects R (step host rec))
    by (intros rec Hc Hp; now apply prompt_respects_step).
  assert (Hdbg : forall rec, core_respects R rec -> prompt_respects R rec ->
                   forall source_name lineno raw,
                     respects R (debug_check rec source_name lineno raw))
    by (intros rec Hc Hp src n raw; now apply respects_debug_check).
  repeat split; intros.
  - now apply (respects_execute_line host R Hrefl Htrans Hvars Hfuncs Hworld
                 Hbracket (prompt_respects R)).
  - now apply (respects_call_user_func host R Hrefl Htrans Hvars Hfuncs Hworld
                 Hbracket (prompt_respects R)).
  - now apply (respects_run_file host R Hrefl Htrans Hvars Hfuncs Hworld
                 Hbracket (prompt_respects R)).
Qed.

(** ** Call depth *)

Lemma same_call_depth_statement : statement_invariant same_call_depth.
Proof.
  split; unfold same_call_depth; intros; try reflexivity.
  - congruence.
  - simpl in *. lia.
Qed.

Lemma same_call_depth_debugger : debugger_invariant same_call_depth.
Proof. split; reflexivity. Qed.

(** X1: [_call_depth] is balanced: after any statement, any call of a user
    function and any file run, however it ends (a value, a [ReturnSignal],
    an exception, a pause in the debugger), the call depth is what it was
    before. *)
Theorem call_depth_is_balanced (host : Host) (fuel : nat) (s : state) :
  (forall line lines idx source_name,
      call_depth (execute_line host fuel line lines idx source_name s).2
      = call_depth s)
  /\ (forall name arg_values,
         call_depth (call_user_func host fuel name arg_values s).2
         = call_depth s)
  /\ (forall path, call_depth (run_file host fuel path s).2 = call_depth s).
Proof.
  destruct (invariant_kept host same_call_depth same_call_depth_statement
              same_call_depth_debugger fuel) as (He & Hc & Hr).
  repeat split; intros; [apply He | apply Hc | apply Hr].
Qed.

(** ** The function table *)

Lemma functions_kept_statement : statement_invariant functions_kept.
Proof.
  split; unfold functions_kept; intros; simpl; try reflexivity.
  - etrans; eassumption.
  - rewrite dom_insert_L. set_solver.
  - simpl in *. assumption.
Qed.

Lemma functions_kept_debugger : debugger_invariant functions_kept.
Proof. split; unfold functions_kept; intros; reflexivity. Qed.

(** X2: no statement, call or file run removes a function: every name
    defined before is still defined afterwards (a [def] adds a name or
    overwrites one). *)
Theorem functions_are_never_removed (host : Host) (fuel : nat) (s : state) :
  (forall line lines idx source_name,
      dom (funcs s)
      ⊆ dom (funcs (execute_line host fuel line lines idx source_name s).2))
  /\ (forall name arg_values,
         dom (funcs s)
         ⊆ dom (funcs (call_user_func host fuel name arg_values s).2))
  /\ (forall path, dom (funcs s) ⊆ dom (funcs (run_file host fuel path s).2)).
Proof.
  destruct (invariant_kept host functions_kept functions_kept_statement
              functions_kept_debugger fuel) as (He & Hc & Hr).
  repeat split; intros; [apply He | apply Hc | apply Hr].
Qed.

(** ** Single stepping *)

Lemma single_step_kept_statement : statement_invariant single_step_kept.
Proof.
  split; unfold single_step_kept; intros; simpl in *; auto.
Qed.

Lemma single_step_kept_debugger : debugger_invariant single_step_kept.
Proof. split; unfold single_step_kept; intros; simpl in *; auto. Qed.

(** X3: single stepping is never switched off: once [_single_step] is
    true it is true after every statement, call and file run, whichever
    debugger commands were given, [continue] included. *)
Theorem single_step_is_never_cleared (host : Host) (fuel : nat) (s : state) :
  single_step s = true ->
  (forall line lines idx source_name,
      single_step (execute_line host fuel line lines idx source_name s).2 = true)
  /\ (forall name arg_values,
         single_step (call_user_func host fuel name arg_values s).2 = true)
  /\ (forall path, single_step (run_file host fuel path s).2 = true).
Proof.
  intros Hs.
  destruct (invariant_kept host single_step_kept single_step_kept_statement
              single_step_kept_debugger fuel) as (He & Hc & Hr).
  repeat split; intros; [now apply He | now apply Hc | now apply Hr].
Qed.

Lemma single_step_is_never_cleared_witness :
  single_step armed_state = true
  /\ single_step
       (execute_line sample_host 5 (line_of "stryset x (5)") None None
          "notes.stryke" armed_state).2 = true.
Proof.
  split; [reflexivity|].
  apply (single_step_is_never_cleared sample_host 5 armed_state eq_refl).
Defined.

(** ** Breakpoints *)

Lemma qualified_breakpoints_kept_statement :
  statement_invariant qualified_breakpoints_kept.
Proof.
  split; unfold qualified_breakpoints_kept; intros; simpl in *; auto.
Qed.

Lemma qualified_breakpoints_kept_debugger :
  debugger_invariant qualified_breakpoints_kept.
Proof.
  split; unfold qualified_breakpoints_kept; intros; simpl in *; auto;
    set_solver.
Qed.

(** X4: a breakpoint given as [file:line] is permanent: no statement, call
    or file run, and no debugger command ([del] included, which only
    discards bare line numbers), takes it out of [_breakpoints]. *)
Theorem qualified_breakpoint_is_permanent (host : Host) (fuel : nat)
    (s : state) (b : string * Z) :
  inr b ∈ breakpoints s ->
  (forall line lines idx source_name,
      inr b ∈ breakpoints
                (execute_line host fuel line lines idx source_name s).2)
  /\ (forall name arg_values,
         inr b ∈ breakpoints (call_user_func host fuel name arg_values s).2)
  /\ (forall path, inr b ∈ breakpoints (run_file host fuel path s).2).
Proof.
  intros Hb.
  destruct (invariant_kept host qualified_breakpoints_kept
              qualified_breakpoints_kept_statement
              qualified_breakpoints_kept_debugger fuel) as (He & Hc & Hr).
  repeat split; intros; [now apply He | now apply Hc | now apply Hr].
Qed.

Lemma qualified_breakpoint_is_permanent_witness :
  inr ("step_over.stryke", 4) ∈ breakpoints del_state
  /\ inr ("step_over.stryke", 4)
       ∈ breakpoints (run_file sample_host 20 "step_over.stryke" del_state).2.
Proof.
  assert (H : inr ("step_over.stryke", 4) ∈ breakpoints del_state).
  { apply (bool_decide_eq_true_1 _). vm_compute. reflexivity. }
  split; [exact H|].
  apply (qualified_breakpoint_is_permanent sample_host 20 del_state _ H).
Defined.

Example del_command_was_read :
  stdout (world (run_file sample_host 20 "step_over.stryke" del_state).2)
  = [OutPaused "step_over.stryke" 4 "stryset x (f())";
     OutPrompt "(stry-debug) "; OutBreakpointRemoved "4";
     OutPrompt "(stry-debug) "].
Proof. vm_compute. reflexivity. Qed.

(** ** A disarmed debugger *)

Lemma disarmed_no_pause (s : state) (source_name : string) (lineno : nat) :
  disarmed s -> check_debug_pause s source_name lineno = false.
Proof.
  intros [Hs Hb]. unfold check_debug_pause. rewrite Hs, Hb.
  rewrite !bool_decide_eq_false_2; [reflexivity | set_solver..].
Qed.

Lemma stays_disarmed_statement : statement_invariant stays_disarmed.
Proof.
  split; unfold stays_disarmed, debugger_untouched, disarmed; intros;
    simpl in *; try (repeat split; tauto).
  destruct (H H1) as (Hd & Hso & Hw).
  destruct (H0 Hd) as (Hd' & Hso' & Hw').
  repeat split; try tauto; congruence.
Qed.

Lemma stays_disarmed_debug_check (rec : interp) (source_name : string)
    (lineno : nat) (raw : string) :
  respects stays_disarmed (debug_check rec source_name lineno raw).
Proof.
  intros s Hd. unfold debug_check, bind, get.
  rewrite (disarmed_no_pause s source_name lineno Hd). simpl.
  unfold debugger_untouched. repeat split; apply Hd.
Qed.

(** X5: a run that starts with the debugger disarmed (single stepping
    off, no breakpoint: the state right after import) never arms it: after
    every statement, call and file run single stepping is still off, the
    breakpoint set is still empty, and the recorded step-over depth and
    the watch list are untouched.  No statement of the language reaches
    the debugger prompt from such a state. *)
Theorem disarmed_debugger_stays_disarmed (host : Host) (fuel : nat)
    (s : state) :
  disarmed s ->
  (forall line lines idx source_name,
      debugger_untouched s
        (execute_line host fuel line lines idx source_name s).2)
  /\ (forall name arg_values,
         debugger_untouched s (call_user_func host fuel name arg_values s).2)
  /\ (forall path, debugger_untouched s (run_file host fuel path s).2).
Proof.
  intros Hd.
  destruct stays_disarmed_statement as [Hrefl Htrans Hvars Hfuncs Hworld Hbr].
  assert (Hdbg : forall rec : interp, core_respects stays_disarmed rec -> True ->
                   forall source_name lineno raw,
                     respects stays_disarmed
                       (debug_check rec source_name lineno raw))
    by (intros; apply stays_disarmed_debug_check).
  split; [|split]; intros.
  - now apply (respects_execute_line host stays_disarmed Hrefl Htrans Hvars
                 Hfuncs Hworld Hbr (fun _ => True) I (fun _ _ _ => I) Hdbg).
  - now apply (respects_call_user_func host stays_disarmed Hrefl Htrans Hvars
                 Hfuncs Hworld Hbr (fun _ => True) I (fun _ _ _ => I) Hdbg).
  - now apply (respects_run_file host stays_disarmed Hrefl Htrans Hvars
                 Hfuncs Hworld Hbr (fun _ => True) I (fun _ _ _ => I) Hdbg).
Qed.

Lemma disarmed_debugger_stays_disarmed_witness :
  disarmed (initial_state ["s"; "b 1"])
  /\ debugger_untouched (initial_state ["s"; "b 1"])
       (run_file sample_host 20 "scope.stryke" (initial_state ["s"; "b 1"])).2.
Proof.
  assert (H : disarmed (initial_state ["s"; "b 1"])) by (split; reflexivity).
  split; [exact H|].
  apply (disarmed_debugger_stays_disarmed sample_host 20 _ H).
Defined.

(** * Further properties of the evaluator and the statements *)

(** ** Expression evaluation and [vars] *)

(** X6: evaluating an expression never changes [vars], whatever the
    expression does: the user functions it calls (also inside the
    arguments of other calls) put the mapping back, and nothing else in
    the evaluator writes to it.  This holds for every outcome. *)
Theorem expression_evaluation_keeps_vars (host : Host) (fuel : nat)
    (expr_text : string) (s : state) :
  vars (safe_eval host (call_user_func host fuel) expr_text s).2 = vars s.
Proof.
  apply safe_eval_preserves_vars.
  intros name args s'. apply call_user_func_body_restores_vars.
Qed.

(** ** Block extractor: the terminator found *)

(** X7: when [parse_block] succeeds, the index it returns is that of the
    first line at or after [start_idx] whose stripped text is [end], and
    the block is exactly the lines from [start_idx] up to it: no line of
    the block is a terminator, whatever openers it contains. *)
Theorem parse_block_returns_first_end (lines : list string) (start_idx : nat)
    (block : list string) (j : nat) :
  parse_block lines start_idx = Some (block, j) ->
  (start_idx <= j)%nat
  /\ block = take (j - start_idx) (drop start_idx lines)
  /\ Forall (fun l => Text.strip l <> "end") block
  /\ exists l, lines !! j = Some l /\ Text.strip l = "end".
Proof.
  unfold parse_block. intros H.
  apply parse_block_from_first_end in H as (k & -> & -> & Hall & l & Hl & He).
  replace (start_idx + k - start_idx)%nat with k by lia.
  repeat split; [lia | exact Hall |].
  exists l. split; [|exact He]. now rewrite lookup_drop in Hl.
Qed.

Lemma parse_block_returns_first_end_witness :
  parse_block nested_lines 1 = Some (["while (b):"; "stryset x (1)"], 3%nat)
  /\ (1 <= 3)%nat
  /\ ["while (b):"; "stryset x (1)"] = take (3 - 1) (drop 1 nested_lines)
  /\ Forall (fun l => Text.strip l <> "end") ["while (b):"; "stryset x (1)"]
  /\ exists l, nested_lines !! 3%nat = Some l /\ Text.strip l = "end".
Proof.
  split; [reflexivity|].
  apply (parse_block_returns_first_end nested_lines 1). reflexivity.
Defined.

Lemma parse_block_from_none (rest : list string) (i : nat) (acc : list string) :
  parse_block_from rest i acc = None
  <-> Forall (fun l => Text.strip l <> "end") rest.
Proof.
  revert i acc. induction rest as [|l rest IH]; intros i acc; simpl.
  - split; [constructor | reflexivity].
  - destruct (String.eqb_spec (Text.strip l) "end") as [He|He].
    + split; [discriminate|]. intros H. inversion H; subst. contradiction.
    + rewrite IH. split; [now constructor | now inversion 1].
Qed.

(** X8: [parse_block] fails with [SyntaxError("Missing 'end'")] exactly
    when no line at or after [start_idx] has the stripped text [end]; in
    particular it fails on every start index beyond the last line. *)
Theorem parse_block_fails_iff_no_end (lines : list string) (start_idx : nat) :
  parse_block lines start_idx = None
  <-> Forall (fun l => Text.strip l <> "end") (drop start_idx lines).
Proof. apply parse_block_from_none. Qed.

(** ** Quoted literals *)

Lemma chars_append (a b : string) :
  Text.chars (String.append a b) = Text.chars a ++ Text.chars b.
Proof. induction a as [|c a IH]; simpl; [reflexivity | now rewrite IH]. Qed.

Lemma rstrip_chars_last (p : ascii -> bool) (l : list ascii) (c : ascii) :
  p c = false -> Text.rstrip_chars p (l ++ [c]) = l ++ [c].
Proof.
  intros Hc. induction l as [|a l IH]; simpl.
  - now rewrite Hc.
  - rewrite IH. now destruct (l ++ [c]) eqn:E; [destruct l; discriminate|].
Qed.

Lemma startswith_cons_eq (c : ascii) (l : list ascii) :
  Text.startswith (String c EmptyString) (Text.text (c :: l)) = true.
Proof.
  unfold Text.startswith, Text.text.
  cbn [string_of_list_ascii String.prefix].
  destruct (ascii_dec c c) as [_|Hne]; [|contradiction].
  now destruct (string_of_list_ascii l).
Qed.

Lemma endswith_last (c : ascii) (l : list ascii) :
  Text.endswith (String c EmptyString) (Text.text (l ++ [c])) = true.
Proof.
  unfold Text.endswith. rewrite chars_text, rev_app_distr.
  apply (startswith_cons_eq c (rev l)).
Qed.

(** A text between two copies of a character that is no whitespace. *)
Lemma quoted_text_shape (q : ascii) (body : string) :
  Text.is_space q = false ->
  let t := Text.text (q :: Text.chars body ++ [q]) in
  Text.strip t = t
  /\ Text.startswith (String q EmptyString) t = true
  /\ Text.endswith (String q EmptyString) t = true
  /\ Text.slice_inner t = body.
Proof.
  intros Hq t. subst t. repeat split.
  - unfold Text.strip, Text.lstrip_chars. rewrite chars_text.
    cbn [Text.drop_while]. rewrite Hq.
    change (q :: Text.chars body ++ [q]) with ((q :: Text.chars body) ++ [q]).
    now rewrite (rstrip_chars_last Text.is_space (q :: Text.chars body) q Hq).
  - apply startswith_cons_eq.
  - apply (endswith_last q (q :: Text.chars body)).
  - unfold Text.slice_inner. rewrite chars_text. cbn [tl].
    rewrite removelast_last. apply text_chars.
Qed.

(** X9: a text written between two double quotes or between two single
    quotes evaluates to exactly what stands between them, verbatim and
    without being parsed, whatever that is (operators, calls, further
    quotes, blanks at its ends); the state is untouched. *)
Theorem quoted_literal_evaluates_to_its_contents (host : Host)
    (call : string -> list value -> M value) (body : string) (s : state) :
  safe_eval host call
    (String.append Text.dquote (String.append body Text.dquote)) s
  = (Ok (VStr body), s)
  /\ safe_eval host call
       (String.append Text.squote (String.append body Text.squote)) s
     = (Ok (VStr body), s).
Proof.
  assert (Hform : forall q,
             String.append (String q EmptyString)
               (String.append body (String q EmptyString))
             = Text.text (q :: Text.chars body ++ [q])).
  { intros q. rewrite <- (text_chars (String.append _ _)).
    now rewrite chars_append, chars_append. }
  split.
  - unfold Text.dquote. rewrite Hform.
    destruct (quoted_text_shape (ascii_of_N 34) body eq_refl)
      as (Hs & Hp & He & Hi).
    unfold safe_eval, is_quoted, Text.dquote. now rewrite Hs, Hp, He, Hi.
  - unfold Text.squote. rewrite Hform.
    destruct (quoted_text_shape (ascii_of_N 39) body eq_refl)
      as (Hs & Hp & He & Hi).
    unfold safe_eval, is_quoted, Text.dquote, Text.squote.
    rewrite Hs, Hp, He, Hi. now rewrite orb_true_r.
Qed.

(** ** Boolean operators *)

(** X10: [and] and [or] do not short-circuit: every operand is evaluated,
    in order, before the result is formed.  If the first operand of a
    two-operand [and]/[or] evaluates and the second raises, the whole
    expression raises that exception, whatever the first operand was; and
    when both evaluate, the result is a boolean ([all] or [any] of the
    truth values), not one of the operands. *)
Theorem boolop_evaluates_every_operand (host : Host)
    (call : string -> list value -> M value) (op : boolop) (a b : expr)
    (va : value) (s s1 : state) :
  eval_ast host call a s = (Ok va, s1) ->
  (forall e s2,
      eval_ast host call b s1 = (Raise e, s2) ->
      eval_ast host call (BoolOp op [a; b]) s = (Raise e, s2))
  /\ (forall vb s2,
         eval_ast host call b s1 = (Ok vb, s2) ->
         eval_ast host call (BoolOp op [a; b]) s
         = (Ok (VBool (match op with
                       | And => truthy host va && truthy host vb
                       | Or => truthy host va || truthy host vb
                       end)), s2)).
Proof.
  intros Ha. split; intros x s2 Hb; cbn [eval_ast mapM]; unfold bind;
    rewrite Ha, Hb; simpl; [reflexivity|].
  destruct op; simpl; now rewrite ?andb_true_r, ?orb_false_r.
Qed.

Lemma boolop_evaluates_every_operand_witness :
  eval_ast sample_host (call_user_func sample_host 0)
    (BoolOp Or [Constant (VBool true); Name "undefined"]) (initial_state [])
  = (Raise (NameError "Unknown identifier: undefined"), initial_state []).
Proof.
  apply (proj1 (boolop_evaluates_every_operand sample_host _ Or
                  (Constant (VBool true)) (Name "undefined") (VBool true)
                  (initial_state []) (initial_state []) eq_refl)).
  reflexivity.
Defined.

(** ** The statement patterns exclude each other *)

Section Keywords.
Import Regex.

(** Each statement pattern is [^\s*] followed by a keyword: a text it
    accepts is a run of whitespace, the keyword, and a rest. *)
Lemma keyword_pattern_prefix (kw : string) (r : regex) (rs : list regex)
    (t : string) (groups : list string) :
  re_match (seq (Begin :: Star true ws :: lit kw :: r :: rs)) t = Some groups ->
  exists pre rest,
    Text.chars t = pre ++ Text.chars kw ++ rest
    /\ Forall (fun c => Text.is_space c = true) pre.
Proof.
  unfold re_match.
  destruct (rmatch _ _ _ _ _) as [caps|] eqn:Hm; [|discriminate]. intros _.
  apply rmatch_sound in Hm as (s' & caps' & Hm & _).
  change (seq (Begin :: Star true ws :: lit kw :: r :: rs))
    with (Seq Begin (Seq (Star true ws) (Seq (lit kw) (seq (r :: rs))))) in Hm.
  inversion Hm as [| | | | |r1 r2 s0 c0 s1 c1 s2 c2 H1 H2| | |]; subst; clear Hm.
  inversion H1; subst; clear H1.
  inversion H2 as [| | | | |r1 r2 s0 c0 s1 c1 s2 c2 H3 H4| | |]; subst; clear H2.
  apply matches_star_class in H3 as (pre & Hpre & Hspaces).
  inversion H4 as [| | | | |r1 r2 s0 c0 s3 c3 s4 c4 H5 H6| | |]; subst; clear H4.
  apply matches_lit_chars in H5 as [-> _].
  exists pre, s3. now split.
Qed.

Lemma space_prefix_unique (p1 p2 : list ascii) (a b : ascii)
    (x y : list ascii) :
  Forall (fun c => Text.is_space c = true) p1 ->
  Forall (fun c => Text.is_space c = true) p2 ->
  Text.is_space a = false -> Text.is_space b = false ->
  p1 ++ a :: x = p2 ++ b :: y -> a :: x = b :: y.
Proof.
  intros H1. revert p2. induction H1 as [|c p1 Hc _ IH]; intros p2 H2 Ha Hb E.
  - destruct H2 as [|c p2 Hc _]; [exact E|].
    simpl in E. injection E as -> _. congruence.
  - destruct H2 as [|c' p2 Hc' H2].
    + simpl in E. injection E as -> _. congruence.
    + simpl in E. injection E as _ E. now apply (IH p2).
Qed.

End Keywords.

Ltac keyword_shape H :=
  let pre := fresh "pre" in
  let rest := fresh "rest" in
  let Hs := fresh "Hshape" in
  let Hp := fresh "Hspaces" in
  unfold accepts in H;
  match type of H with
  | match Regex.re_match ?p ?t with _ => _ end = true =>
      destruct (Regex.re_match p t) as [?|] eqn:Hs; [|discriminate H];
      apply keyword_pattern_prefix in Hs as (pre & rest & Hs & Hp)
  end.

Ltac keyword_clash :=
  match goal with
  | Hp : accepts ?p ?t = true, Hq : accepts ?q ?t = true |- False =>
      keyword_shape Hp; keyword_shape Hq;
      match goal with
      | H1 : Text.chars t = _, H2 : Text.chars t = _ |- _ =>
          rewrite H1 in H2; cbn [Text.chars list_ascii_of_string app] in H2;
          apply space_prefix_unique in H2; [congruence | auto ..]
      end
  end.

(** X11: at most one of the five statement patterns of [execute_line]
    accepts a given text, so the order in which it tries them never
    decides how a line is read. *)
Theorem at_most_one_pattern_accepts (t : string) :
  (accepting_patterns t <= 1)%nat.
Proof.
  unfold accepting_patterns, statement_patterns. cbn [List.filter].
  destruct (accepts Patterns.stryset t) eqn:H0;
  destruct (accepts Patterns.stryprint t) eqn:H1;
  destruct (accepts Patterns.def t) eqn:H2;
  destruct (accepts Patterns.return_ t) eqn:H3;
  destruct (accepts Patterns.if_ t) eqn:H4; cbn [length]; try lia;
  exfalso; keyword_clash.
Qed.

(** ** Statements one by one *)

Ltac accepted H :=
  match type of H with
  | Regex.re_match ?p ?t = Some _ =>
      let Ha := fresh "Hacc" in
      assert (Ha : accepts p t = true) by (unfold accepts; now rewrite H)
  end.

Ltac rejected :=
  match goal with
  | |- Regex.re_match ?p ?t = None =>
      let E := fresh "E" in
      destruct (Regex.re_match p t) eqn:E; [exfalso | reflexivity];
      accepted E; keyword_clash
  end.

Lemma def_line_only (t : string) (groups : list string) :
  Regex.re_match Patterns.def t = Some groups ->
  Regex.re_match Patterns.stryset t = None
  /\ Regex.re_match Patterns.stryprint t = None.
Proof. intros H. accepted H. split; rejected. Qed.

Lemma return_line_only (t : string) (groups : list string) :
  Regex.re_match Patterns.return_ t = Some groups ->
  Regex.re_match Patterns.stryset t = None
  /\ Regex.re_match Patterns.stryprint t = None
  /\ Regex.re_match Patterns.def t = None.
Proof. intros H. accepted H. repeat split; rejected. Qed.

Lemma if_line_only (t : string) (groups : list string) :
  Regex.re_match Patterns.if_ t = Some groups ->
  Regex.re_match Patterns.stryset t = None
  /\ Regex.re_match Patterns.stryprint t = None
  /\ Regex.re_match Patterns.def t = None
  /\ Regex.re_match Patterns.return_ t = None.
Proof. intros H. accepted H. repeat split; rejected. Qed.

(** A text that a statement pattern accepts is neither blank nor a
    comment. *)
Lemma accepted_line_not_blank (p : Regex.regex) (t : string) :
  In p statement_patterns -> accepts p t = true ->
  (Text.is_empty t || Text.startswith "#" t) = false.
Proof.
  intros Hin Hp.
  assert (Hshape : exists pre c rest,
             Text.chars t = pre ++ c :: rest
             /\ Forall (fun c => Text.is_space c = true) pre
             /\ c <> "#"%char).
  { simpl in Hin.
    destruct Hin as [<-|[<-|[<-|[<-|[<-|[]]]]]]; keyword_shape Hp;
      cbn [Text.chars list_ascii_of_string app] in *;
      eexists _, _, _; (split; [eassumption|]); (split; [assumption|]);
      discriminate. }
  destruct Hshape as (pre & c & rest & Ht & Hspaces & Hc).
  rewrite <- (text_chars t), Ht.
  destruct Hspaces as [|c0 pre0 Hc0 _]; apply first_char_not_hash;
    [exact Hc | now apply space_is_not_hash].
Qed.

(** X12: given without a line list and an index, as the REPL gives it its
    input, a [def] line never defines anything: once the debugger check
    has passed, [execute_line] raises the [TypeError] of [idx+1] on
    [None], and the function table is as before. *)
Theorem def_without_index_raises (host : Host) (fuel : nat) (line : string)
    (lines : option (list string)) (source_name fname params : string)
    (s s0 : state) :
  Regex.re_match Patterns.def (Text.strip (Text.rstrip_newline line))
  = Some [fname; params] ->
  debug_check (interp_at host fuel) source_name 0 (Text.rstrip_newline line) s
  = (Ok tt, s0) ->
  execute_line host fuel line lines None source_name s
  = (Raise (TypeError "unsupported operand type(s) for +: 'NoneType' and 'int'"),
     s0).
Proof.
  intros Hm Hdbg.
  destruct (def_line_only _ _ Hm) as [Hset Hprint].
  accepted Hm.
  unfold execute_line, execute_line_body.
  rewrite (accepted_line_not_blank Patterns.def _
             ltac:(simpl; tauto) Hacc).
  unfold bind at 1. cbn [lineno_of]. rewrite Hdbg.
  unfold dispatch. rewrite Hset, Hprint, Hm. reflexivity.
Qed.

Lemma def_without_index_raises_witness :
  execute_line sample_host 1 "def f():" None None "<stdin>" (initial_state [])
  = (Raise (TypeError "unsupported operand type(s) for +: 'NoneType' and 'int'"),
     initial_state []).
Proof.
  apply (def_without_index_raises sample_host 1 "def f():" None "<stdin>"
           "f" ""); vm_compute; reflexivity.
Defined.

(** X13: inside a line list, a [def] line whose block has a terminator
    stores as the body exactly the lines between itself and the first
    [end] after it, with the parameter names split at the commas and
    stripped, under the function's name (replacing an earlier definition);
    it runs none of these lines, leaves [vars] alone and returns the index
    of that [end]. *)
Theorem def_registers_block (host : Host) (fuel : nat) (line : string)
    (lines : list string) (i j : nat) (block : list string)
    (source_name fname params : string) (s s0 : state) :
  Regex.re_match Patterns.def (Text.strip (Text.rstrip_newline line))
  = Some [fname; params] ->
  debug_check (interp_at host fuel) source_name (S i)
    (Text.rstrip_newline line) s = (Ok tt, s0) ->
  parse_block lines (S i) = Some (block, j) ->
  execute_line host fuel line (Some lines) (Some i) source_name s
  = (Ok (SJump j),
     set_funcs (<[fname := (param_list_of params, block)]> (funcs s0)) s0)
  /\ block = take (j - S i) (drop (S i) lines)
  /\ Forall (fun l => Text.strip l <> "end") block.
Proof.
  intros Hm Hdbg Hblock.
  destruct (def_line_only _ _ Hm) as [Hset Hprint].
  accepted Hm.
  split.
  - unfold execute_line, execute_line_body.
    rewrite (accepted_line_not_blank Patterns.def _
               ltac:(simpl; tauto) Hacc).
    unfold bind at 1. cbn [lineno_of]. rewrite Hdbg.
    unfold dispatch. rewrite Hset, Hprint, Hm.
    unfold block_after, bind at 1. rewrite Hblock. reflexivity.
  - apply parse_block_first_end in Hblock as (_ & Hb & Hall & _).
    now split.
Qed.

Lemma def_registers_block_witness :
  execute_line sample_host 1 (line_of "def add( a , b ):")
    (Some [line_of "def add( a , b ):"; "return a"; "end"]) (Some 0%nat)
    "<stdin>" (initial_state [])
  = (Ok (SJump 2),
     set_funcs {[ "add" := (["a"; "b"], ["return a"]) ]} (initial_state [])).
Proof.
  apply (def_registers_block sample_host 1 (line_of "def add( a , b ):")
           [line_of "def add( a , b ):"; "return a"; "end"] 0 2 ["return a"]
           "<stdin>" "add" " a , b "); vm_compute; reflexivity.
Defined.

(** X14: given without a line list and an index, an [if] line evaluates
    its condition and then fails: once the debugger check has passed and
    the condition has a value, [execute_line] raises the [TypeError] of
    [idx+1] on [None]; the block is never looked for. *)
Theorem if_without_index_raises (host : Host) (fuel : nat) (line : string)
    (lines : option (list string)) (source_name e : string) (cond : value)
    (s s0 s1 : state) :
  Regex.re_match Patterns.if_ (Text.strip (Text.rstrip_newline line))
  = Some [e] ->
  debug_check (interp_at host fuel) source_name 0 (Text.rstrip_newline line) s
  = (Ok tt, s0) ->
  safe_eval host (i_call_user_func (interp_at host fuel)) e s0 = (Ok cond, s1) ->
  execute_line host fuel line lines None source_name s
  = (Raise (TypeError "unsupported operand type(s) for +: 'NoneType' and 'int'"),
     s1).
Proof.
  intros Hm Hdbg Heval.
  destruct (if_line_only _ _ Hm) as (Hset & Hprint & Hdef & Hret).
  accepted Hm.
  unfold execute_line, execute_line_body.
  rewrite (accepted_line_not_blank Patterns.if_ _
             ltac:(simpl; tauto) Hacc).
  unfold bind at 1. cbn [lineno_of]. rewrite Hdbg.
  unfold dispatch. rewrite Hset, Hprint, Hdef, Hret, Hm.
  unfold bind at 1. rewrite Heval. reflexivity.
Qed.

Lemma if_without_index_raises_witness :
  execute_line sample_host 1 "if (1 < 2 < 3):" None None "<stdin>"
    (initial_state [])
  = (Raise (TypeError "unsupported operand type(s) for +: 'NoneType' and 'int'"),
     initial_state []).
Proof.
  apply (if_without_index_raises sample_host 1 "if (1 < 2 < 3):" None
           "<stdin>" "1 < 2 < 3" (VBool true) (initial_state [])
           (initial_state []) (initial_state [])); vm_compute; reflexivity.
Defined.

(** ** A call, from binding to return *)

Lemma disarmed_debug_check (rec : interp) (s : state) (source_name : string)
    (lineno : nat) (raw : string) :
  disarmed s -> debug_check rec source_name lineno raw s = (Ok tt, s).
Proof.
  intros Hd. unfold debug_check, bind, get.
  now rewrite (disarmed_no_pause s source_name lineno Hd).
Qed.

(** A [return] line yields the [ReturnSignal] of its expression's value. *)
Lemma return_line_executes (host : Host) (rec : interp) (line : string)
    (lines : option (list string)) (idx : option nat)
    (source_name e : string) (v : value) (s s0 s1 : state) :
  Regex.re_match Patterns.return_ (Text.strip (Text.rstrip_newline line))
  = Some [e] ->
  debug_check rec source_name (lineno_of idx) (Text.rstrip_newline line) s
  = (Ok tt, s0) ->
  safe_eval host (i_call_user_func rec) e s0 = (Ok v, s1) ->
  execute_line_body host rec line lines idx source_name s
  = (Ok (SReturn v), s1).
Proof.
  intros Hm Hdbg Heval.
  destruct (return_line_only _ _ Hm) as (Hset & Hprint & Hdef).
  accepted Hm.
  unfold execute_line_body.
  rewrite (accepted_line_not_blank Patterns.return_ _
             ltac:(simpl; tauto) Hacc).
  unfold bind at 1. rewrite Hdbg.
  unfold dispatch. rewrite Hset, Hprint, Hdef, Hm.
  unfold bind at 1. now rewrite Heval.
Qed.

(** X15: with the debugger disarmed, calling a function whose first body
    line is [return e] with the right number of arguments evaluates [e]
    in the caller's own variables extended by the parameters, each bound
    to its argument in order (so the body sees the caller's variables),
    and returns that value; afterwards [vars] and the call depth are the
    caller's again, while everything else is as the evaluation of [e]
    left it. *)
Theorem call_returns_value_of_first_line (host : Host) (fuel : nat)
    (name : string) (params : list string) (line : string)
    (rest : list string) (arg_values : list value) (e : string) (v : value)
    (s s2 : state) :
  funcs s !! name = Some (params, line :: rest) ->
  length arg_values = length params ->
  Regex.re_match Patterns.return_ (Text.strip (Text.rstrip_newline line))
  = Some [e] ->
  disarmed s ->
  safe_eval host (i_call_user_func (interp_at host fuel)) e
    (set_vars (bind_params params arg_values (vars s))
       (set_call_depth (call_depth s + 1) s))
  = (Ok v, s2) ->
  call_user_func host (S (S fuel)) name arg_values s
  = (Ok v, set_call_depth (call_depth s) (set_vars (vars s) s2)).
Proof.
  intros Hf Hlen Hm Hd Heval.
  assert (Hdepth : call_depth s2 = call_depth s + 1).
  { destruct (invariant_kept_at host same_call_depth
                same_call_depth_statement same_call_depth_debugger fuel)
      as [(_ & Hcall & _) _].
    destruct same_call_depth_statement as [Hrefl Htrans Hvars _ Hworld _].
    pose proof (respects_safe_eval host same_call_depth Hrefl Htrans Hworld
                  _ Hcall e
                  (set_vars (bind_params params arg_values (vars s))
                     (set_call_depth (call_depth s + 1) s))) as Hr.
    rewrite Heval in Hr. exact Hr. }
  unfold call_user_func, call_user_func_body, bind at 1, get.
  rewrite Hf, Hlen, Nat.eqb_refl. cbn [negb].
  unfold bind at 1, modify at 1, try_finally, bind at 1, modify at 1.
  cbn [interp_at step i_func_loop]. unfold func_loop_body.
  cbn [lookup list_lookup]. unfold bind at 1.
  change (i_execute_line (step host (interp_at host fuel)))
    with (execute_line_body host (interp_at host fuel)).
  assert (Hd1 : disarmed
                  (set_vars (bind_params params arg_values (vars s))
                     (set_call_depth (call_depth s + 1) s))) by exact Hd.
  unfold bind_params in *.
  change (vars (set_call_depth (call_depth s + 1) s)) with (vars s).
  rewrite (return_line_executes host (interp_at host fuel) line
             (Some (line :: rest)) (Some 0%nat) (func_source name) e v _ _ s2
             Hm (disarmed_debug_check _ _ _ _ _ Hd1) Heval).
  cbn. now rewrite Hdepth, Z.add_simpl_r.
Qed.

Lemma call_returns_value_of_first_line_witness :
  let s := set_vars {[ "x" := VInt 7 ]}
             (set_funcs {[ "f" := (["y"], ["return x"]) ]} (initial_state [])) in
  call_user_func sample_host 2 "f" [VInt 1] s = (Ok (VInt 7), s).
Proof.
  intros s.
  refine (eq_trans
            (call_returns_value_of_first_line sample_host 0 "f" ["y"]
               "return x" [] [VInt 1] "x" (VInt 7) s
               (set_vars (<["y" := VInt 1]> (vars s))
                  (set_call_depth 1 s)) _ _ _ _ _) _);
    try (vm_compute; reflexivity).
  split; reflexivity.
Defined.

(** * The recorded step-over depth is never read *)

Section WriteOnly.
Variable host : Host.

Lemma agree_refl (s : state) : agree_but_depth s s.
Proof. repeat split. Qed.

Lemma agree_set_depth (s : state) (d : option Z) :
  agree_but_depth (set_step_over_depth d s) s.
Proof. repeat split. Qed.

Ltac agree_solve :=
  match goal with
  | H : agree_but_depth _ _ |- _ =>
      destruct H as (?Hv & ?Hf & ?Hb & ?Hs & ?Hc & ?Hw & ?Hio)
  end;
  unfold agree_but_depth; simpl; repeat split; congruence.

Lemma alike_ret {A} (a : A) : alike (ret a) (ret a).
Proof. intros s t H. now split. Qed.

Lemma alike_raise {A} (e : exn) : alike (@raise A e) (@raise A e).
Proof. intros s t H. now split. Qed.

Lemma alike_out_of_fuel {A} : alike (@out_of_fuel A) (@out_of_fuel A).
Proof. intros s t H. now split. Qed.

Lemma alike_bind {A B} (m1 m2 : M A) (f1 f2 : A -> M B) :
  alike m1 m2 -> (forall a, alike (f1 a) (f2 a)) ->
  alike (bind m1 f1) (bind m2 f2).
Proof.
  intros Hm Hf s t H. unfold bind. destruct (Hm s t H) as [Hr Hs].
  destruct (m1 s) as [[a|e|] s'], (m2 t) as [[b|e'|] t']; simpl in *;
    try discriminate; try (injection Hr as <-); try now split.
  now apply Hf.
Qed.

Lemma alike_bind_get {B} (f1 f2 : state -> M B) :
  (forall s t, agree_but_depth s t -> alike (f1 s) (f2 t)) ->
  alike (bind get f1) (bind get f2).
Proof. intros Hf s t H. unfold bind, get. now apply Hf. Qed.

Lemma alike_modify (f g : state -> state) :
  (forall s t, agree_but_depth s t -> agree_but_depth (f s) (g t)) ->
  alike (modify f) (modify g).
Proof. intros Hf s t H. split; [reflexivity | now apply Hf]. Qed.

Lemma alike_print (e : out_event) : alike (print e) (print e).
Proof. apply alike_modify. intros s t H. agree_solve. Qed.

Lemma alike_lift_result {A} (r : exn + A) :
  alike (lift_result r) (lift_result r).
Proof. destruct r; [apply alike_raise | apply alike_ret]. Qed.

Lemma alike_try_except {A} (b1 b2 h1 h2 : M A) :
  alike b1 b2 -> alike h1 h2 -> alike (try_except b1 h1) (try_except b2 h2).
Proof.
  intros Hb Hh s t H. unfold try_except. destruct (Hb s t H) as [Hr Hs].
  destruct (b1 s) as [[a|e|] s'], (b2 t) as [[b|e'|] t']; simpl in *;
    try discriminate; try now split.
  now apply Hh.
Qed.

Lemma alike_try_finally {A} (b1 b2 : M A) (c1 c2 : state -> state) :
  alike b1 b2 ->
  (forall s t, agree_but_depth s t -> agree_but_depth (c1 s) (c2 t)) ->
  alike (try_finally b1 c1) (try_finally b2 c2).
Proof.
  intros Hb Hc s t H. unfold try_finally. destruct (Hb s t H) as [Hr Hs].
  destruct (b1 s) as [r1 s'], (b2 t) as [r2 t']; simpl in *.
  split; [exact Hr | now apply Hc].
Qed.

Lemma alike_call_builtin (fname : string) (args : list value) :
  alike (call_builtin host fname args) (call_builtin host fname args).
Proof.
  intros s t H. unfold call_builtin.
  assert (Hio : world s = world t) by apply H. rewrite Hio.
  destruct (host_builtin host fname args (world t)) as [[e|v] w];
    (split; [reflexivity | agree_solve]).
Qed.

Ltac agree_rewrite H :=
  let Hv := fresh in let Hf := fresh in let Hb := fresh in
  let Hs := fresh in let Hc := fresh in let Hw := fresh in
  let Hio := fresh in
  pose proof H as (Hv & Hf & Hb & Hs & Hc & Hw & Hio);
  rewrite ?Hv, ?Hf, ?Hb, ?Hs, ?Hc, ?Hw, ?Hio;
  clear Hv Hf Hb Hs Hc Hw Hio.

Ltac alike_step :=
  match goal with
  | |- alike (ret _) (ret _) => apply alike_ret
  | |- alike (raise _) (raise _) => apply alike_raise
  | |- alike out_of_fuel out_of_fuel => apply alike_out_of_fuel
  | |- alike (print _) (print _) => apply alike_print
  | |- alike (lift_result _) (lift_result _) => apply alike_lift_result
  | |- alike (call_builtin _ _ _) (call_builtin _ _ _) =>
      apply alike_call_builtin
  | |- alike (bind get _) (bind get _) =>
      apply alike_bind_get;
      let s := fresh "s" in let t := fresh "t" in let H := fresh "Hst" in
      intros s t H; agree_rewrite H
  | |- alike (modify _) (modify _) =>
      apply alike_modify;
      let H := fresh "Hst" in intros ? ? H; agree_solve
  | |- alike (bind _ _) (bind _ _) => apply alike_bind; [|intros ?]
  | |- alike (match ?x with _ => _ end) (match ?x with _ => _ end) =>
      destruct x
  end.

Section Evaluation.
Variable call : string -> list value -> M value.
Hypothesis call_ok : forall name args, alike (call name args) (call name args).

Lemma alike_mapM (es : list expr) :
  Forall (fun e => alike (eval_ast host call e) (eval_ast host call e)) es ->
  alike (mapM (eval_ast host call) es) (mapM (eval_ast host call) es).
Proof.
  induction 1 as [|e es He _ IH]; cbn [mapM]; [apply alike_ret|].
  apply alike_bind; [exact He|]. intros v.
  apply alike_bind; [exact IH|]. intros vs. apply alike_ret.
Qed.

Lemma alike_compare_loop (cs : list expr) :
  Forall (fun e => alike (eval_ast host call e) (eval_ast host call e)) cs ->
  forall ops left,
    alike (compare_loop host (eval_ast host call) ops cs left)
          (compare_loop host (eval_ast host call) ops cs left).
Proof.
  induction 1 as [|c cs Hc _ IH]; intros ops left; [apply alike_ret|].
  destruct ops as [|op ops]; [apply alike_ret|].
  cbn [compare_loop]. apply alike_bind; [exact Hc|]. intros right.
  destruct (ops_cmpop host op) as [f|]; [|apply alike_raise].
  apply alike_bind; [apply alike_lift_result|]. intros r.
  destruct (negb (truthy host r)); [apply alike_ret | apply IH].
Qed.

Lemma alike_eval_ast (e : expr) :
  alike (eval_ast host call e) (eval_ast host call e).
Proof.
  induction e as [b IH|v|l op r IHl IHr|op x IH|op vs IH|l ops cs IHl IHcs
                 |idn|f args kws IH|v a|v i|c e its|b|c es]
    using expr_induction; try apply alike_raise.
  - exact IH.
  - apply alike_ret.
  - cbn [eval_ast]. apply alike_bind; [exact IHl|]. intros lv.
    apply alike_bind; [exact IHr|]. intros rv.
    destruct (ops_operator host op); [apply alike_lift_result
                                     | apply alike_raise].
  - cbn [eval_ast]. apply alike_bind; [exact IH|]. intros ov.
    destruct (ops_unaryop host op); [apply alike_lift_result
                                    | apply alike_raise].
  - cbn [eval_ast]. apply alike_bind; [now apply alike_mapM|].
    intros values. apply alike_ret.
  - cbn [eval_ast]. apply alike_bind; [exact IHl|]. intros lv.
    now apply alike_compare_loop.
  - cbn [eval_ast]. repeat alike_step.
  - destruct f; try apply alike_raise.
    cbn [eval_ast]. apply alike_bind; [now apply alike_mapM|].
    intros argv. repeat first [apply call_ok | alike_step].
Qed.

Lemma alike_safe_eval (expr_text : string) :
  alike (safe_eval host call expr_text) (safe_eval host call expr_text).
Proof.
  unfold safe_eval.
  destruct (is_quoted (Text.strip expr_text)); [apply alike_ret|].
  destruct (ast_parse host (Text.strip expr_text)) as [node|].
  - apply alike_eval_ast.
  - repeat alike_step.
Qed.

End Evaluation.

Section Step.
Variable rec : interp.
Hypothesis rec_ok : core_alike rec.

Lemma alike_rec_eval (expr_text : string) :
  alike (safe_eval host (i_call_user_func rec) expr_text)
        (safe_eval host (i_call_user_func rec) expr_text).
Proof. apply alike_safe_eval. apply rec_ok. Qed.

Lemma alike_block_after (lines : option (list string)) (idx : option nat) :
  alike (block_after lines idx) (block_after lines idx).
Proof. unfold block_after. repeat alike_step. Qed.

Lemma alike_dispatch (stripped : string) (lines : option (list string))
    (idx : option nat) :
  alike (dispatch host rec stripped lines idx)
        (dispatch host rec stripped lines idx).
Proof.
  destruct rec_ok as (Hexec & Hcall & Hloop & Hwhile & Hwatch & Hcmd).
  unfold dispatch.
  repeat first
    [ apply alike_rec_eval | apply alike_block_after | apply Hwhile
    | alike_step ].
Qed.

Lemma alike_watch_loop_body (i : nat) :
  alike (watch_loop_body host rec i) (watch_loop_body host rec i).
Proof.
  destruct rec_ok as (Hexec & Hcall & Hloop & Hwhile & Hwatch & Hcmd).
  unfold watch_loop_body.
  repeat first
    [ apply Hwatch
    | match goal with
      | |- alike (try_except _ _) (try_except _ _) => apply alike_try_except
      end
    | apply alike_rec_eval
    | alike_step ].
Qed.

Lemma alike_command_loop_body :
  alike (command_loop_body host rec) (command_loop_body host rec).
Proof.
  destruct rec_ok as (Hexec & Hcall & Hloop & Hwhile & Hwatch & Hcmd).
  unfold command_loop_body, add_breakpoint.
  repeat first [ apply Hcmd | alike_step ].
Qed.

Lemma alike_debug_prompt (source_name : string) (lineno : nat)
    (line_text : string) :
  alike (debug_prompt rec source_name lineno line_text)
        (debug_prompt rec source_name lineno line_text).
Proof.
  destruct rec_ok as (Hexec & Hcall & Hloop & Hwhile & Hwatch & Hcmd).
  unfold debug_prompt.
  repeat first [ apply Hcmd | apply Hwatch | alike_step ].
Qed.

Lemma alike_debug_check (source_name : string) (lineno : nat) (raw : string) :
  alike (debug_check rec source_name lineno raw)
        (debug_check rec source_name lineno raw).
Proof.
  unfold debug_check, check_debug_pause.
  repeat first [ apply alike_debug_prompt | alike_step ].
Qed.

Lemma alike_execute_line_body (line : string) (lines : option (list string))
    (idx : option nat) (source_name : string) :
  alike (execute_line_body host rec line lines idx source_name)
        (execute_line_body host rec line lines idx source_name).
Proof.
  unfold execute_line_body.
  destruct (_ || _); [apply alike_ret|].
  apply alike_bind; [apply alike_debug_check|].
  intros _. apply alike_dispatch.
Qed.

Lemma alike_func_loop_body (name : string) (body : list string) (i : nat) :
  alike (func_loop_body rec name body i) (func_loop_body rec name body i).
Proof.
  destruct rec_ok as (Hexec & Hcall & Hloop & Hwhile & Hwatch & Hcmd).
  unfold func_loop_body.
  repeat first [ apply Hexec | apply Hloop | alike_step ].
Qed.

Lemma alike_if_while_body (block : list string) (i : nat)
    (res : option signal) :
  alike (if_while_body rec block i res) (if_while_body rec block i res).
Proof.
  destruct rec_ok as (Hexec & Hcall & Hloop & Hwhile & Hwatch & Hcmd).
  unfold if_while_body.
  repeat first [ apply Hexec | apply Hwhile | alike_step ].
Qed.

Lemma alike_call_user_func_body (name : string) (arg_values : list value) :
  alike (call_user_func_body rec name arg_values)
        (call_user_func_body rec name arg_values).
Proof.
  destruct rec_ok as (Hexec & Hcall & Hloop & Hwhile & Hwatch & Hcmd).
  unfold call_user_func_body.
  repeat first
    [ apply Hloop
    | match goal with
      | |- alike (try_finally _ _) (try_finally _ _) =>
          apply alike_try_finally;
          [| let H := fresh "Hst" in intros ? ? H; agree_solve ]
      end
    | alike_step ].
Qed.

Lemma core_alike_step : core_alike (step host rec).
Proof.
  split; [|split; [|split; [|split; [|split]]]]; intros;
    cbn [step i_execute_line i_call_user_func i_func_loop
           i_if_while i_watch_loop i_command_loop].
  - apply alike_execute_line_body.
  - apply alike_call_user_func_body.
  - apply alike_func_loop_body.
  - apply alike_if_while_body.
  - apply alike_watch_loop_body.
  - apply alike_command_loop_body.
Qed.

End Step.

Lemma core_alike_at (fuel : nat) : core_alike (interp_at host fuel).
Proof.
  induction fuel as [|fuel IH]; cbn [interp_at].
  - split; [|split; [|split; [|split; [|split]]]]; intros;
      apply alike_out_of_fuel.
  - now apply core_alike_step.
Qed.

Lemma alike_execute_line (fuel : nat) (line : string)
    (lines : option (list string)) (idx : option nat) (source_name : string) :
  alike (execute_line host fuel line lines idx source_name)
        (execute_line host fuel line lines idx source_name).
Proof. apply alike_execute_line_body, core_alike_at. Qed.

Lemma alike_call_user_func (fuel : nat) (name : string)
    (arg_values : list value) :
  alike (call_user_func host fuel name arg_values)
        (call_user_func host fuel name arg_values).
Proof. apply alike_call_user_func_body, core_alike_at. Qed.

Lemma alike_run_loop (fuel : nat) (path : string) (lines : list string)
    (i : nat) :
  alike (run_loop host fuel path lines i) (run_loop host fuel path lines i).
Proof.
  revert i. induction fuel as [|fuel IH]; intros i; cbn [run_loop].
  - apply alike_out_of_fuel.
  - repeat first [ apply alike_execute_line | apply IH | alike_step ].
Qed.

Lemma alike_run_file (fuel : nat) (path : string) :
  alike (run_file host fuel path) (run_file host fuel path).
Proof.
  unfold run_file. repeat first [ apply alike_run_loop | alike_step ].
Qed.

(** X16: [_step_over_depth] is written by the [next] command and read by
    nothing: a statement, a call or a file run started with any other
    recorded depth has the same outcome and ends in the same state, the
    recorded depth itself apart. *)
Theorem step_over_depth_is_never_read (fuel : nat) (d : option Z) (s : state) :
  (forall line lines idx source_name,
      let r := execute_line host fuel line lines idx source_name in
      (r (set_step_over_depth d s)).1 = (r s).1
      /\ agree_but_depth (r (set_step_over_depth d s)).2 (r s).2)
  /\ (forall name arg_values,
         let r := call_user_func host fuel name arg_values in
         (r (set_step_over_depth d s)).1 = (r s).1
         /\ agree_but_depth (r (set_step_over_depth d s)).2 (r s).2)
  /\ (forall path,
         let r := run_file host fuel path in
         (r (set_step_over_depth d s)).1 = (r s).1
         /\ agree_but_depth (r (set_step_over_depth d s)).2 (r s).2).
Proof.
  split; [|split]; intros;
    first [ apply alike_execute_line | apply alike_call_user_func
          | apply alike_run_file ]; apply agree_set_depth.
Qed.

End WriteOnly.

(** * The debugger and the program's variables *)

Section PauseFrame.
Variable host : Host.

Lemma same_vars_refl (s : state) : same_vars s s.
Proof. reflexivity. Qed.

Lemma same_vars_trans (s1 s2 s3 : state) :
  same_vars s1 s2 -> same_vars s2 s3 -> same_vars s1 s3.
Proof. unfold same_vars. congruence. Qed.

Lemma same_vars_world (s : state) (w : io) : same_vars s (set_world w s).
Proof. reflexivity. Qed.

Ltac vars_step :=
  match goal with
  | |- respects _ (ret _) => apply (respects_ret same_vars same_vars_refl)
  | |- respects _ (raise _) => apply (respects_raise same_vars same_vars_refl)
  | |- respects _ out_of_fuel =>
      apply (respects_out_of_fuel same_vars same_vars_refl)
  | |- respects _ get => apply (respects_get same_vars same_vars_refl)
  | |- respects _ (print _) => apply (respects_print same_vars same_vars_world)
  | |- respects _ (modify _) => intros ?; reflexivity
  | |- respects _ (try_except _ _) =>
      apply (respects_try_except same_vars same_vars_trans)
  | |- respects _ (safe_eval _ _ _) =>
      intros ?; apply safe_eval_preserves_vars; assumption
  | |- respects _ (bind _ _) =>
      apply (respects_bind same_vars same_vars_trans); [|intros ?]
  | |- respects _ (match ?x with _ => _ end) => destruct x
  end.

Lemma prompt_keeps_vars (fuel : nat) :
  (forall name args s,
      vars (i_call_user_func (interp_at host fuel) name args s).2 = vars s)
  /\ prompt_respects same_vars (interp_at host fuel).
Proof.
  induction fuel as [|fuel (Hcall & Hwatch & Hcmd)]; cbn [interp_at].
  - repeat split; intros; reflexivity.
  - split; [|split]; intros;
      cbn [step i_call_user_func i_watch_loop i_command_loop].
    + apply call_user_func_body_restores_vars.
    + unfold watch_loop_body.
      repeat first [ apply Hwatch | vars_step ].
    + unfold command_loop_body, add_breakpoint.
      repeat first [ apply Hcmd | vars_step ].
Qed.

(** X20: a pause is transparent to the program's variables: the debugger
    check before a statement, with whatever the prompt then does (printing
    the watch expressions, which may call user functions, and obeying any
    sequence of commands), leaves [vars] as it was, whatever the outcome. *)
Theorem pause_keeps_vars (fuel : nat) (source_name : string) (lineno : nat)
    (raw : string) (s : state) :
  vars (debug_check (interp_at host fuel) source_name lineno raw s).2 = vars s.
Proof.
  destruct (prompt_keeps_vars fuel) as (Hcall & Hwatch & Hcmd).
  revert s. change (respects same_vars
                      (debug_check (interp_at host fuel) source_name lineno raw)).
  unfold debug_check, debug_prompt.
  repeat first [ apply Hwatch | apply Hcmd | vars_step ].
Qed.

End PauseFrame.

(** * The [if] statement *)

(** X21: an [if] line whose condition evaluates to a false value runs
    nothing of its block: it returns the index of the first [end] after
    it, in the state the evaluation of the condition left. *)
Theorem if_false_skips_block (host : Host) (fuel : nat) (line : string)
    (lines : list string) (i j : nat) (block : list string)
    (source_name e : string) (cond : value) (s s0 s1 : state) :
  Regex.re_match Patterns.if_ (Text.strip (Text.rstrip_newline line))
  = Some [e] ->
  debug_check (interp_at host fuel) source_name (S i)
    (Text.rstrip_newline line) s = (Ok tt, s0) ->
  safe_eval host (i_call_user_func (interp_at host fuel)) e s0 = (Ok cond, s1) ->
  parse_block lines (S i) = Some (block, j) ->
  truthy host cond = false ->
  execute_line host fuel line (Some lines) (Some i) source_name s
  = (Ok (SJump j), s1).
Proof.
  intros Hm Hdbg Heval Hblock Hcond.
  destruct (if_line_only _ _ Hm) as (Hset & Hprint & Hdef & Hret).
  accepted Hm.
  unfold execute_line, execute_line_body.
  rewrite (accepted_line_not_blank Patterns.if_ _ ltac:(simpl; tauto) Hacc).
  unfold bind at 1. cbn [lineno_of]. rewrite Hdbg.
  unfold dispatch. rewrite Hset, Hprint, Hdef, Hret, Hm.
  unfold bind at 1. rewrite Heval.
  unfold block_after, bind at 1. rewrite Hblock. cbn. now rewrite Hcond.
Qed.

Lemma if_false_skips_block_witness :
  execute_line sample_host 1 "if (3 < 2 < 1):"
    (Some ["if (3 < 2 < 1):"; "stryset x (1)"; "end"]) (Some 0%nat) "<stdin>"
    (initial_state [])
  = (Ok (SJump 2), initial_state []).
Proof.
  apply (if_false_skips_block sample_host 1 "if (3 < 2 < 1):"
           ["if (3 < 2 < 1):"; "stryset x (1)"; "end"] 0 2 ["stryset x (1)"]
           "<stdin>" "3 < 2 < 1" (VBool false) (initial_state [])
           (initial_state []) (initial_state []));
    vm_compute; reflexivity.
Defined.

Lemma if_true_enters_loop (host : Host) (fuel : nat) (line : string)
    (lines : list string) (i j : nat) (block : list string)
    (source_name e : string) (cond : value) (s s0 s1 : state) :
  Regex.re_match Patterns.if_ (Text.strip (Text.rstrip_newline line))
  = Some [e] ->
  debug_check (interp_at host fuel) source_name (S i)
    (Text.rstrip_newline line) s = (Ok tt, s0) ->
  safe_eval host (i_call_user_func (interp_at host fuel)) e s0 = (Ok cond, s1) ->
  parse_block lines (S i) = Some (block, j) ->
  truthy host cond = true ->
  execute_line host fuel line (Some lines) (Some i) source_name s
  = match i_if_while (interp_at host fuel) block 0 None s1 with
    | (Ok (Some SNone), s2) => (Ok (SJump j), s2)
    | (Ok (Some (SJump _)), s2) =>
        (Raise (SyntaxError "'continue' not properly in loop"), s2)
    | (Ok (Some (SReturn v)), s2) => (Ok (SReturn v), s2)
    | (Ok None, s2) => (Raise (UnboundLocalError "res"), s2)
    | (Raise x, s2) => (Raise x, s2)
    | (OutOfFuel, s2) => (OutOfFuel, s2)
    end.
Proof.
  intros Hm Hdbg Heval Hblock Hcond.
  destruct (if_line_only _ _ Hm) as (Hset & Hprint & Hdef & Hret).
  accepted Hm.
  unfold execute_line, execute_line_body.
  rewrite (accepted_line_not_blank Patterns.if_ _ ltac:(simpl; tauto) Hacc).
  unfold bind at 1. cbn [lineno_of]. rewrite Hdbg.
  unfold dispatch. rewrite Hset, Hprint, Hdef, Hret, Hm.
  unfold bind at 1. rewrite Heval.
  unfold block_after, bind at 1. rewrite Hblock. cbn [ret]. rewrite Hcond.
  unfold bind.
  destruct (i_if_while (interp_at host fuel) block 0 None s1)
    as [[[[| |]|]| |] s2]; reflexivity.
Qed.

(** X22: as the source is written, an [if] line whose condition is true
    never completes normally.  Its loop
    [while i<len(block): res=execute_line(block[i], ...)] never advances
    [i], so on a block with at least one line the statement ends in an
    exception or runs for ever; and on an empty block the test of the
    unassigned [res] raises [UnboundLocalError]. *)
Theorem if_true_never_completes (host : Host) (fuel : nat) (line : string)
    (lines : list string) (i j : nat) (block : list string)
    (source_name e : string) (cond : value) (s s0 s1 : state) :
  Regex.re_match Patterns.if_ (Text.strip (Text.rstrip_newline line))
  = Some [e] ->
  debug_check (interp_at host fuel) source_name (S i)
    (Text.rstrip_newline line) s = (Ok tt, s0) ->
  safe_eval host (i_call_user_func (interp_at host fuel)) e s0 = (Ok cond, s1) ->
  parse_block lines (S i) = Some (block, j) ->
  truthy host cond = true ->
  is_ok (execute_line host fuel line (Some lines) (Some i) source_name s).1
  = false
  /\ (block = [] -> (0 < fuel)%nat ->
      execute_line host fuel line (Some lines) (Some i) source_name s
      = (Raise (UnboundLocalError "res"), s1)).
Proof.
  intros Hm Hdbg Heval Hblock Hcond.
  rewrite (if_true_enters_loop host fuel line lines i j block source_name e
             cond s s0 s1 Hm Hdbg Heval Hblock Hcond).
  split.
  - destruct (i_if_while (interp_at host fuel) block 0 None s1)
      as [[r| |] s2] eqn:Hw; try reflexivity.
    apply if_while_returns_unassigned in Hw as (_ & -> & _). reflexivity.
  - intros -> Hfuel. destruct fuel as [|fuel]; [lia|]. reflexivity.
Qed.

Lemma if_true_never_completes_witness :
  is_ok (execute_line sample_host 5 "if (1 < 2 < 3):"
           (Some ["if (1 < 2 < 3):"; "stryset x (1)"; "end"]) (Some 0%nat)
           "<stdin>" (initial_state [])).1 = false.
Proof.
  apply (if_true_never_completes sample_host 5 "if (1 < 2 < 3):"
           ["if (1 < 2 < 3):"; "stryset x (1)"; "end"] 0 2 ["stryset x (1)"]
           "<stdin>" "1 < 2 < 3" (VBool true) (initial_state [])
           (initial_state []) (initial_state []));
    vm_compute; reflexivity.
Defined.

(** * The transpiler *)

Section TranspilerFacts.
Import Regex.

(** ** The brace substitution *)

Lemma braces_match_shape (l g rest : list ascii) :
  rmatch (length l) Transpiler.braces l []
    (fun rest caps => Some (caps ++ [rest])) = Some [g; rest] ->
  l = ("{"%char :: g) ++ "}"%char :: rest.
Proof.
  intros H. apply rmatch_sound in H as (s' & caps' & Hm & Hk).
  cbv [Transpiler.braces seq] in Hm.
  inversion Hm as [| | | | |r1 r2 s0 c0 s1 c1 s2 c2 H1 H2| | |]; subst; clear Hm.
  inversion H1; subst; clear H1.
  inversion H2 as [| | | | |r1 r2 s0 c0 s3 c3 s4 c4 H3 H4| | |]; subst; clear H2.
  inversion H3 as [| | | | | | | |r s0 c0 s5 c5 H5]; subst; clear H3.
  pose proof (matches_capture_free _ _ _ _ _ _ H5 eq_refl) as ->.
  apply matches_plus_class in H5 as (c & w & -> & _).
  inversion H4; subst; clear H4.
  assert (Htake : take (length ((c :: w) ++ "}"%char :: s')
                        - length ("}"%char :: s'))
                     ((c :: w) ++ "}"%char :: s') = c :: w).
  { replace (length ((c :: w) ++ "}"%char :: s') - length ("}"%char :: s'))%nat
      with (length (c :: w)) by (rewrite length_app; lia).
    apply take_app_length. }
  rewrite Htake in Hk. cbn [app] in Hk. now injection Hk as <- <-.
Qed.

Lemma sub_braces_chars_id (n : nat) (l : list ascii) :
  Transpiler.sub_braces_chars n l = l.
Proof.
  revert l. induction n as [|n IH]; intros l; [reflexivity|].
  cbn [Transpiler.sub_braces_chars]. destruct l as [|c l]; [reflexivity|].
  destruct (rmatch _ _ _ _ _) as [[|g [|rest [|x caps]]]|] eqn:Hm;
    try (now rewrite IH).
  apply braces_match_shape in Hm. now rewrite IH, Hm.
Qed.

(** X17: the rewrite [re.sub(r"\{(\w+)\}", r'{\1}', inner)] that
    [compile_file] applies to a quoted print text changes nothing: every
    text comes out as it went in. *)
Theorem brace_substitution_is_identity (t : string) :
  Transpiler.sub_braces t = t.
Proof.
  unfold Transpiler.sub_braces. rewrite sub_braces_chars_id. apply text_chars.
Qed.

(** ** Assignment lines, read as the interpreter reads them *)

Lemma strip_no_leading_space (x : string) :
  match Text.chars (Text.strip x) with
  | [] => True
  | c :: _ => Text.is_space c = false
  end.
Proof.
  unfold Text.strip, Text.lstrip_chars. rewrite chars_text.
  assert (H : match Text.drop_while Text.is_space (Text.chars x) with
              | [] => True
              | c :: _ => Text.is_space c = false
              end).
  { induction (Text.chars x) as [|c l IH]; simpl; [exact I|].
    destruct (Text.is_space c) eqn:Hc; [exact IH | exact Hc]. }
  destruct (Text.drop_while Text.is_space (Text.chars x)) as [|c l];
    [exact I|].
  now rewrite (rstrip_chars_cons Text.is_space c l H).
Qed.

(** On a text without leading whitespace, a leading [\s*] consumes
    nothing. *)
Lemma leading_ws_skipped (total : nat) (r : regex) (l : list ascii)
    (caps : captures) (k : cont) :
  match l with [] => True | c :: _ => Text.is_space c = false end ->
  rmatch total (Seq (Star true ws) r) l caps k = rmatch total r l caps k.
Proof.
  intros H. cbn [rmatch]. destruct l as [|c l]; [reflexivity|].
  cbn [length star_loop]. unfold ws. cbn [rmatch]. now rewrite H.
Qed.

Lemma begin_ws_skipped (total : nat) (r : regex) (l : list ascii)
    (caps : captures) (k : cont) :
  match l with [] => True | c :: _ => Text.is_space c = false end ->
  rmatch total (Seq Begin (Seq (Star true ws) r)) l caps k
  = rmatch total (Seq Begin r) l caps k.
Proof.
  intros H.
  change (rmatch total (Seq Begin (Seq (Star true ws) r)) l caps k)
    with (if (length l =? total)%nat
          then rmatch total (Seq (Star true ws) r) l caps k else None).
  change (rmatch total (Seq Begin r) l caps k)
    with (if (length l =? total)%nat then rmatch total r l caps k else None).
  now rewrite leading_ws_skipped.
Qed.

Lemma stryset_patterns_agree (x : string) :
  re_match Transpiler.stryset (Text.strip x)
  = re_match Patterns.stryset (Text.strip x).
Proof.
  unfold re_match.
  change Patterns.stryset
    with (Seq Begin (Seq (Star true ws)
                       (seq [lit "stryset"; plus ws; Group (plus word);
                             Star true ws; Lit "("; Star true ws;
                             Group (plus dot); Star true ws; Lit ")";
                             Star true ws; End_]))).
  change Transpiler.stryset
    with (Seq Begin (seq [lit "stryset"; plus ws; Group (plus word);
                          Star true ws; Lit "("; Star true ws;
                          Group (plus dot); Star true ws; Lit ")";
                          Star true ws; End_])).
  now rewrite (begin_ws_skipped _ _ _ _ _ (strip_no_leading_space x)).
Qed.

Lemma prefix_append (kw rest : string) :
  String.prefix kw (String.append kw rest) = true.
Proof.
  induction kw as [|a kw IH]; simpl.
  - now destruct rest.
  - destruct (ascii_dec a a) as [_|Hne]; [exact IH | contradiction].
Qed.

Lemma text_app (a b : list ascii) :
  Text.text (a ++ b) = String.append (Text.text a) (Text.text b).
Proof. induction a as [|c a IH]; simpl; [reflexivity | now rewrite IH]. Qed.

(** A text the transpiler's assignment pattern accepts starts with the
    keyword. *)
Lemma stryset_match_starts (t : string) (groups : list string) :
  re_match Transpiler.stryset t = Some groups ->
  Text.startswith "stryset" t = true.
Proof.
  unfold re_match.
  destruct (rmatch _ _ _ _ _) as [caps|] eqn:Hm; [|discriminate]. intros _.
  apply rmatch_sound in Hm as (s' & caps' & Hm & _).
  change Transpiler.stryset
    with (Seq Begin (Seq (lit "stryset")
                       (seq [plus ws; Group (plus word);
                             Star true ws; Lit "("; Star true ws;
                             Group (plus dot); Star true ws; Lit ")";
                             Star true ws; End_]))) in Hm.
  inversion Hm as [| | | | |r1 r2 s0 c0 s1 c1 s2 c2 H1 H2| | |]; subst; clear Hm.
  inversion H1; subst; clear H1.
  inversion H2 as [| | | | |r1 r2 s0 c0 s3 c3 s4 c4 H3 H4| | |]; subst; clear H2.
  apply matches_lit_chars in H3 as [Ht _].
  unfold Text.startswith. rewrite <- (text_chars t), Ht, text_app.
  apply (prefix_append "stryset").
Qed.

(** X18: the transpiler reads assignment lines as the interpreter does:
    whenever the assignment pattern of [execute_line] accepts a line with
    name [name] and expression text [e], [compile_file] turns that line
    into [name = e] at the current indentation and keeps the indentation
    level. *)
Theorem transpiler_reads_assignments_like_interpreter (indent : nat)
    (ln name e : string) :
  re_match Patterns.stryset (Text.strip (Text.rstrip_newline ln))
  = Some [name; e] ->
  Transpiler.translate_line indent ln
  = (Some (Transpiler.cat [Transpiler.indent_text indent; name; " = "; e]),
     indent).
Proof.
  intros Hm.
  assert (Hacc : accepts Patterns.stryset (Text.strip (Text.rstrip_newline ln))
                 = true) by (unfold accepts; now rewrite Hm).
  rewrite <- stryset_patterns_agree in Hm.
  unfold Transpiler.translate_line.
  rewrite (accepted_line_not_blank Patterns.stryset _
             ltac:(simpl; tauto) Hacc).
  unfold Transpiler.guarded at 1.
  now rewrite (stryset_match_starts _ _ Hm), Hm.
Qed.

Lemma transpiler_reads_assignments_like_interpreter_witness :
  Transpiler.translate_line 1 (line_of "  stryset total (a + b)")
  = (Some "    total = a + b", 1%nat).
Proof.
  apply (transpiler_reads_assignments_like_interpreter 1
           (line_of "  stryset total (a + b)") "total" "a + b").
  vm_compute. reflexivity.
Defined.

(** ** Lines that leave no trace *)

Lemma translate_line_silent (indent : nat) (ln : string) :
  (Transpiler.translate_line indent ln).1 = None
  <-> is_skipped ln = true \/ is_end ln = true.
Proof.
  unfold is_skipped, is_end, Transpiler.translate_line.
  set (ts := Text.strip (Text.rstrip_newline ln)).
  destruct (Text.is_empty ts || Text.startswith "#" ts) eqn:Hskip;
    [cbn; tauto|].
  destruct (String.eqb ts "end") eqn:Hend.
  - apply String.eqb_eq in Hend. rewrite Hend. cbn. tauto.
  - split; [|intros [H|H]; discriminate H].
    repeat match goal with
           | |- context [ match ?x with _ => _ end ] => destruct x
           end; cbn; intros H; discriminate H.
Qed.

(** X19: the transpiler drops no statement.  A source line leaves no line
    in the output of [compile_file] only when it is blank, a comment or a
    bare [end]; every other line, whether one of the rules reads it or it
    falls through to the raw copy, gives exactly one line of Python. *)
Theorem transpiler_drops_no_statement (indent : nat) (lines : list string) :
  length (Transpiler.translate_from indent lines)
  = length (List.filter (fun ln => negb (is_skipped ln || is_end ln)) lines).
Proof.
  revert indent. induction lines as [|ln lines IH]; intros indent;
    [reflexivity|].
  cbn [Transpiler.translate_from List.filter].
  pose proof (translate_line_silent indent ln) as Hs.
  destruct (Transpiler.translate_line indent ln) as [[out|] indent'];
    cbn [fst] in Hs.
  - destruct (is_skipped ln || is_end ln) eqn:Hb; cbn [negb length].
    + apply orb_true_iff in Hb. apply Hs in Hb. discriminate Hb.
    + now rewrite IH.
  - destruct Hs as [Hs _]. specialize (Hs eq_refl).
    apply orb_true_iff in Hs. rewrite Hs. cbn [negb]. apply IH.
Qed.

End TranspilerFacts.
